(** * bongbosse: the Stryktipset probability and combinatorics core

    A shallow embedding of the numeric and combinatorial functions of
    [src/lib/utils/odds.ts], [src/lib/utils/kellycriterion.ts],
    [src/lib/utils/systemGenerator.ts] and the football-intelligence module
    it imports, of the system-size calculator of
    [src/lib/utils/svenskaSpelApi.ts] and of the row generator, followed by
    the properties proved about them.

    Conventions of the embedding.
    - A JavaScript [number] is an exact rational ([Q]); the rounding of IEEE
      doubles, [NaN] and the infinities are not modelled.  Equalities between
      numbers are stated with [==].
    - [Math.random()] is a stream [rand : nat -> Q] read through a counter
      that every call advances; its contract [0 <= rand n < 1] is a
      hypothesis of the theorems that depend on it.
    - [Math.log2] is a parameter of the functions that call it.
    - A thrown [TypeError] is the [Throw] result of the monad [M].
    - [console.log] calls, identifiers and timestamps are left out.
    - [Math.round x] is [Qfloor (x + 1/2)], [Math.floor] is [Qfloor].
    - Several theorems carry hypotheses that keep the numbers they compare
      at least 1e-9 apart, the odds above 1 or the probabilities in
      [[0,1]].  The rationals do not need them: they keep the statement
      true of the doubles of the program, where rounding, underflow or a
      division by zero could otherwise reverse an order or a sign. *)

From Stdlib Require Import QArith Qminmax Qround Qabs ZArith List String DecimalString.
From Stdlib Require Import Bool Arith Permutation FinFun Sorted Lia Lqa.
Import ListNotations.

Open Scope Q_scope.

(** ** Shared data types ([src/lib/types/index.ts], [src/lib/types/system.ts]) *)

(** The object shape [{ home: number; draw: number; away: number }], used for
    odds, probabilities, betting percentages and tip counts alike. *)
Record Triple : Type := mkTriple { home : Q; draw : Q; away : Q }.

(** [type Outcome = '1' | 'X' | '2'] *)
Inductive Outcome : Type := O1 | OX | O2.

(** [type RiskProfile = 'safe' | 'balanced' | 'risky']; at run time any
    string can arrive, and the code's [switch] and [if] chains decide what
    happens to the others, so a profile is a string. *)
Definition RiskProfile : Type := string.

Definition Outcome_eqb (a b : Outcome) : bool :=
  match a, b with
  | O1, O1 | OX, OX | O2, O2 => true
  | _, _ => false
  end.

(** JavaScript's [<], [<=], [>], [>=] on numbers. *)
Definition Qltb (a b : Q) : bool := negb (Qle_bool b a).
Definition Qgtb (a b : Q) : bool := Qltb b a.
Definition Qgeb (a b : Q) : bool := Qle_bool b a.

(** [Math.max(a, b, c)] and [Math.min(a, b, c)]. *)
Definition Qmax3 (a b c : Q) : Q := Qmax (Qmax a b) c.
Definition Qmin3 (a b c : Q) : Q := Qmin (Qmin a b) c.

(** ** Odds normalisation and risk adjustment ([src/lib/utils/odds.ts]) *)

Definition oddsToNormalizedProbabilities (odds : Triple) : Triple :=
  let impliedProbs :=
    {| home := 1 / home odds; draw := 1 / draw odds; away := 1 / away odds |} in
  let total := home impliedProbs + draw impliedProbs + away impliedProbs in
  {| home := home impliedProbs / total;
     draw := draw impliedProbs / total;
     away := away impliedProbs / total |}.

Definition adjustProbabilityForRisk (prob riskFactor : Q) : Q :=
  let bias := 1 + riskFactor * (0.5 - prob) in
  Qmax 0 (Qmin 1 (prob * bias)).

Definition getRiskFactor (profile : RiskProfile) : Q :=
  if String.eqb profile "safe" then -0.7
  else if String.eqb profile "balanced" then 0
  else if String.eqb profile "risky" then 0.7
  else 0.

Definition adjustMatchProbabilities (probabilities : Triple)
    (riskProfile : RiskProfile) : Triple :=
  let riskFactor := getRiskFactor riskProfile in
  let adjusted :=
    {| home := adjustProbabilityForRisk (home probabilities) riskFactor;
       draw := adjustProbabilityForRisk (draw probabilities) riskFactor;
       away := adjustProbabilityForRisk (away probabilities) riskFactor |} in
  let total := home adjusted + draw adjusted + away adjusted in
  {| home := home adjusted / total;
     draw := draw adjusted / total;
     away := away adjusted / total |}.

Definition calculateExpectedValues (odds probabilities : Triple) : Triple :=
  {| home := home odds * home probabilities - 1;
     draw := draw odds * draw probabilities - 1;
     away := away odds * away probabilities - 1 |}.

(** ** Kelly criterion ([src/lib/utils/kellycriterion.ts]) *)

Module KellyCriterion.

(** The default value of the [bankroll] parameter. *)
Definition default_bankroll : Q := 1000.

Definition calculateOptimalStake (trueProbability bookmakerOdds bankroll : Q) : Q :=
  let edge := trueProbability * bookmakerOdds - 1 in
  if Qle_bool edge 0 then 0
  else
    let kellyFraction := edge / (bookmakerOdds - 1) in
    Qmin (kellyFraction * bankroll) (0.25 * bankroll).

Definition calculateValue (trueProbability bookmakerOdds : Q) : Q :=
  trueProbability * bookmakerOdds - 1.

End KellyCriterion.

(** ** Effects: thrown errors and the random source *)

Inductive Exn : Type := TypeError.

Inductive Res (A : Type) : Type :=
| Ok (a : A)
| Throw (e : Exn).
Arguments Ok {A} a.
Arguments Throw {A} e.

Definition Res_bind {A B : Type} (r : Res A) (k : A -> Res B) : Res B :=
  match r with
  | Ok a => k a
  | Throw e => Throw e
  end.

(** A computation that may call [Math.random()] and may throw: the state is
    the number of draws made so far. *)
Definition M (A : Type) : Type := nat -> Res (A * nat).

Definition ret {A : Type} (a : A) : M A := fun n => Ok (a, n).

Definition bind {A B : Type} (m : M A) (k : A -> M B) : M B :=
  fun n =>
    match m n with
    | Ok (a, n') => k a n'
    | Throw e => Throw e
    end.

Definition throw {A : Type} (e : Exn) : M A := fun _ => Throw e.

Definition lift {A : Type} (r : Res A) : M A :=
  fun n =>
    match r with
    | Ok a => Ok (a, n)
    | Throw e => Throw e
    end.

Declare Scope M_scope.
Delimit Scope M_scope with M.
Notation "x <- m ;; k" := (bind m (fun x => k))
  (at level 61, m at next level, right associativity) : M_scope.
Notation "x <~ r ;; k" := (Res_bind r (fun x => k))
  (at level 61, r at next level, right associativity) : M_scope.
Open Scope M_scope.

(** JavaScript arrays. *)

Fixpoint mapi_from {A B : Type} (f : A -> nat -> B) (l : list A) (index : nat) : list B :=
  match l with
  | [] => []
  | x :: l' => f x index :: mapi_from f l' (S index)
  end.

(** [array.map((x, index) => ...)] *)
Definition mapi {A B : Type} (f : A -> nat -> B) (l : list A) : list B :=
  mapi_from f l 0.

Fixpoint update {A : Type} (l : list A) (i : nat) (v : A) : list A :=
  match l, i with
  | [], _ => []
  | _ :: l', O => v :: l'
  | x :: l', S i' => x :: update l' i' v
  end.

(** [[a[i], a[j]] = [a[j], a[i]]].  When an index is out of range the
    JavaScript assignment stores [undefined] in the array; every caller
    below then throws a [TypeError] on the first property read of that
    element, so the exchange reports the failure as [None]. *)
Definition swap {A : Type} (i j : nat) (l : list A) : option (list A) :=
  match nth_error l i, nth_error l j with
  | Some a, Some b => Some (update (update l i b) j a)
  | _, _ => None
  end.

(** [array[i] = v] on an array that may have holes: a write past the end
    extends the array, leaving holes in between. *)
Fixpoint array_set {A : Type} (a : list (option A)) (i : nat) (v : A) : list (option A) :=
  match i, a with
  | O, [] => [Some v]
  | O, _ :: a' => Some v :: a'
  | S i', [] => None :: array_set [] i' v
  | S i', x :: a' => x :: array_set a' i' v
  end.

(** Reading every element of an array as an object: a hole reads as
    [undefined], and the first property access on it throws. *)
Fixpoint dense {A : Type} (a : list (option A)) : Res (list A) :=
  match a with
  | [] => Ok []
  | None :: _ => Throw TypeError
  | Some x :: a' => xs <~ dense a' ;; Ok (x :: xs)
  end.

(** [array.reduce((acc, x, index) => ..., init)] with a callback that may
    throw. *)
Fixpoint reduce_indexed {A B : Type} (f : B -> A -> nat -> Res B)
    (l : list A) (index : nat) (acc : B) : Res B :=
  match l with
  | [] => Ok acc
  | x :: l' => acc' <~ f acc x index ;; reduce_indexed f l' (S index) acc'
  end.

Fixpoint mapi_res_from {A B : Type} (f : A -> nat -> Res B) (l : list A) (index : nat)
    : Res (list B) :=
  match l with
  | [] => Ok []
  | x :: l' =>
      y <~ f x index ;;
      ys <~ mapi_res_from f l' (S index) ;;
      Ok (y :: ys)
  end.

(** [string.includes(sub)] *)
Definition includes (s sub : string) : bool :=
  match String.index 0 sub s with
  | Some _ => true
  | None => false
  end.

Definition Qsum (l : list Q) : Q := fold_left Qplus l 0.

Definition Q_of_nat (n : nat) : Q := inject_Z (Z.of_nat n).

(** ** Matches and their analysis data *)

Record SvenskaSpelData : Type := {
  svenskaFolket : option Triple;
  expertTips : option Triple;
  league : option string
}.

(** [MatchWithOdds]; the team names [home] and [away] of the interface are
    the fields [home_team] and [away_team] here, and the optional
    [oddsAnalysis], which none of the modelled functions reads, is left out. *)
Record MatchWithOdds : Type := {
  matchId : string;
  home_team : string;
  away_team : string;
  kickoff : string;
  odds : Triple;
  probabilities : Triple;
  svenskaSpelData : option SvenskaSpelData
}.

(** [GeneratedRow]; [row_index] stands for the identifier
    [system_row_<index>]. *)
Record GeneratedRow : Type := {
  row_index : nat;
  outcomes : list Outcome;
  expectedCorrect : Q;
  expectedPayout : Q;
  row_riskProfile : RiskProfile
}.

(** The eight buckets of a simulation, as tallies or as frequencies. *)
Record Buckets (A : Type) : Type := {
  exactly10 : A; exactly11 : A; exactly12 : A; exactly13 : A;
  atLeast10 : A; atLeast11 : A; atLeast12 : A; atLeast13 : A
}.
Arguments exactly10 {A} _.
Arguments exactly11 {A} _.
Arguments exactly12 {A} _.
Arguments exactly13 {A} _.
Arguments atLeast10 {A} _.
Arguments atLeast11 {A} _.
Arguments atLeast12 {A} _.
Arguments atLeast13 {A} _.

Record SimulationResult : Type := {
  rowId : nat;
  correctResults : Buckets Q;
  averageCorrect : Q;
  sim_expectedPayout : Q;
  iterations : nat
}.

Section Engine.

(** The values returned by successive calls of [Math.random()]. *)
Variable rand : nat -> Q.

(** [Math.log2] *)
Variable log2 : Q -> Q.

(** [Math.random()] *)
Definition random : M Q := fun n => Ok (rand n, S n).

(** [Math.floor(Math.random() * len)] used as an array index. *)
Definition random_index (len : nat) : M nat :=
  r <- random ;;
  ret (Z.to_nat (Qfloor (r * Q_of_nat len))).

(** ** Monte Carlo simulation of a row (second part of [odds.ts]) *)

Definition selectWeightedRandomOutcome (probabilities : Triple) : M Outcome :=
  random_ <- random ;;
  if Qltb random_ (home probabilities) then ret O1
  else if Qltb random_ (home probabilities + draw probabilities) then ret OX
  else ret O2.

(** The loop of [simulateMatchday], entered at index [i] with the matches
    from [i] on; [predictions[i]] of a too short row is [undefined] and
    equals no outcome. *)
Fixpoint simulateMatchday_from (predictions : list Outcome)
    (matches : list MatchWithOdds) (i : nat) (correctCount : nat) : M nat :=
  match matches with
  | [] => ret correctCount
  | match_ :: rest =>
      let prediction := nth_error predictions i in
      actualOutcome <- selectWeightedRandomOutcome (probabilities match_) ;;
      let correctCount' :=
        match prediction with
        | Some p => if Outcome_eqb p actualOutcome then S correctCount else correctCount
        | None => correctCount
        end in
      simulateMatchday_from predictions rest (S i) correctCount'
  end.

Definition simulateMatchday (predictions : list Outcome)
    (matches : list MatchWithOdds) : M nat :=
  simulateMatchday_from predictions matches 0 0.

(** The mutable locals of [simulateRow]. *)
Record Tally : Type := {
  results : Buckets nat;
  totalCorrect : nat
}.

Definition initial_tally : Tally :=
  {| results := {| exactly10 := 0; exactly11 := 0; exactly12 := 0; exactly13 := 0;
                   atLeast10 := 0; atLeast11 := 0; atLeast12 := 0; atLeast13 := 0 |}%nat;
     totalCorrect := 0%nat |}.

Definition incr_if (b : bool) (n : nat) : nat := if b then S n else n.

(** The body of the simulation loop after the draw: the [switch] on the
    exact count and the four at-least tests. *)
Definition record_trial (correctCount : nat) (t : Tally) : Tally :=
  let r := results t in
  {| results :=
       {| exactly10 := incr_if (correctCount =? 10)%nat (exactly10 r);
          exactly11 := incr_if (correctCount =? 11)%nat (exactly11 r);
          exactly12 := incr_if (correctCount =? 12)%nat (exactly12 r);
          exactly13 := incr_if (correctCount =? 13)%nat (exactly13 r);
          atLeast10 := incr_if (10 <=? correctCount)%nat (atLeast10 r);
          atLeast11 := incr_if (11 <=? correctCount)%nat (atLeast11 r);
          atLeast12 := incr_if (12 <=? correctCount)%nat (atLeast12 r);
          atLeast13 := incr_if (13 <=? correctCount)%nat (atLeast13 r) |};
     totalCorrect := (totalCorrect t + correctCount)%nat |}.

(** [for (let i = 0; i < iterations; i++)], with [remaining] iterations
    still to run. *)
Fixpoint simulateRow_loop (row : GeneratedRow) (matches : list MatchWithOdds)
    (remaining : nat) (t : Tally) : M Tally :=
  match remaining with
  | O => ret t
  | S remaining' =>
      correctCount <- simulateMatchday (outcomes row) matches ;;
      simulateRow_loop row matches remaining' (record_trial correctCount t)
  end.

(** The four entries of the constant table [payouts] of
    [calculateExpectedPayout]. *)
Definition payouts_exactly10 : Q := 50.
Definition payouts_exactly11 : Q := 500.
Definition payouts_exactly12 : Q := 5000.
Definition payouts_exactly13 : Q := 50000.

Definition calculateExpectedPayout (probabilities : Buckets Q) : Q :=
  exactly10 probabilities * payouts_exactly10 +
  exactly11 probabilities * payouts_exactly11 +
  exactly12 probabilities * payouts_exactly12 +
  exactly13 probabilities * payouts_exactly13.

Definition simulateRow (row : GeneratedRow) (matches : list MatchWithOdds)
    (iterations : nat) : M SimulationResult :=
  t <- simulateRow_loop row matches iterations initial_tally ;;
  let results := results t in
  let n := Q_of_nat iterations in
  let probabilities :=
    {| exactly10 := Q_of_nat (exactly10 results) / n;
       exactly11 := Q_of_nat (exactly11 results) / n;
       exactly12 := Q_of_nat (exactly12 results) / n;
       exactly13 := Q_of_nat (exactly13 results) / n;
       atLeast10 := Q_of_nat (atLeast10 results) / n;
       atLeast11 := Q_of_nat (atLeast11 results) / n;
       atLeast12 := Q_of_nat (atLeast12 results) / n;
       atLeast13 := Q_of_nat (atLeast13 results) / n |} in
  let averageCorrect := Q_of_nat (totalCorrect t) / n in
  let expectedPayout := calculateExpectedPayout probabilities in
  ret {| rowId := row_index row;
         correctResults := probabilities;
         averageCorrect := averageCorrect;
         sim_expectedPayout := expectedPayout;
         iterations := iterations |}.

Fixpoint simulateMultipleRows (rows : list GeneratedRow) (matches : list MatchWithOdds)
    (iterations : nat) : M (list SimulationResult) :=
  match rows with
  | [] => ret []
  | row :: rows' =>
      r <- simulateRow row matches iterations ;;
      rs <- simulateMultipleRows rows' matches iterations ;;
      ret (r :: rs)
  end.

(** ** Football intelligence (the module [footballIntelligence] imported by
    [systemGenerator.ts]) *)

Record Scores : Type := {
  valueScore : Q;
  publicSentiment : Q;
  expertConsensus : Q;
  homeAdvantage : Q;
  uncertaintyScore : Q;
  contrarian : Q
}.

(** [recommendations]; its field [contrarian] is [contrarianPick] here. *)
Record Recommendations : Type := {
  safePick : Outcome;
  valuePick : Outcome;
  contrarianPick : Outcome;
  confidence : Q
}.

Record MatchIntelligence : Type := {
  match_ : MatchWithOdds;
  scores : Scores;
  recommendations : Recommendations
}.

Definition calculateValueScore (odds probabilities : Triple) : Q :=
  let homeEV := home odds * home probabilities - 1 in
  let drawEV := draw odds * draw probabilities - 1 in
  let awayEV := away odds * away probabilities - 1 in
  let bestEV := Qmax3 homeEV drawEV awayEV in
  Qmax 0 (Qmin 1 ((bestEV + 0.2) / 0.4)).

(** With [home = away = 0] and [draw > 0] the JavaScript quotient is [NaN];
    the score is only printed, no decision reads it. *)
Definition calculatePublicSentiment (svenskaFolket : option Triple) : Q :=
  match svenskaFolket with
  | None => 0.5
  | Some svenskaFolket =>
      let total := home svenskaFolket + draw svenskaFolket + away svenskaFolket in
      if Qeq_bool total 0 then 0.5
      else
        let homeWeight := home svenskaFolket / total in
        let awayWeight := away svenskaFolket / total in
        awayWeight / (homeWeight + awayWeight)
  end.

Definition calculateExpertConsensus (expertTips : option Triple) : Q :=
  match expertTips with
  | None => 0.5
  | Some expertTips =>
      let total := home expertTips + draw expertTips + away expertTips in
      if Qeq_bool total 0 then 0
      else
        let maxTips := Qmax3 (home expertTips) (draw expertTips) (away expertTips) in
        maxTips / total
  end.

(** [league?.includes(sub)] *)
Definition league_includes (league : option string) (sub : string) : bool :=
  match league with
  | Some l => includes l sub
  | None => false
  end.

Definition bigTeams : list string :=
  ["Manchester City"; "Arsenal"; "Liverpool"; "Real Madrid"; "Barcelona";
   "Bayern MÃ¼nchen"]%string.

Definition calculateHomeAdvantage (homeTeam awayTeam : string)
    (league : option string) : Q :=
  let advantage := 0.6 in
  let advantage := if league_includes league "Premier League" then 0.65 else advantage in
  let advantage := if league_includes league "La Liga" then 0.68 else advantage in
  let advantage := if league_includes league "Serie A" then 0.62 else advantage in
  let advantage := if league_includes league "Bundesliga" then 0.63 else advantage in
  let advantage := if league_includes league "Allsvenskan" then 0.67 else advantage in
  let advantage :=
    if existsb (fun team => includes awayTeam team) bigTeams
    then advantage - 0.1 else advantage in
  Qmax 0.4 (Qmin 0.8 advantage).

Definition calculateUncertainty (probabilities : Triple) : Q :=
  let probs := [home probabilities; draw probabilities; away probabilities] in
  let entropy :=
    - fold_left (fun sum p => if Qgtb p 0 then sum + p * log2 p else sum) probs 0 in
  entropy / log2 3.

Definition calculateContrarianScore (odds : Triple)
    (svenskaSpelData : option SvenskaSpelData) : Q :=
  match option_map svenskaFolket svenskaSpelData with
  | Some (Some svenskaFolket) =>
      let total := home svenskaFolket + draw svenskaFolket + away svenskaFolket in
      if Qeq_bool total 0 then 0
      else
        let oddsProbs :=
          {| home := 1 / home odds; draw := 1 / draw odds; away := 1 / away odds |} in
        let oddsTotal := home oddsProbs + draw oddsProbs + away oddsProbs in
        let normalizedOddsProbs :=
          {| home := home oddsProbs / oddsTotal;
             draw := draw oddsProbs / oddsTotal;
             away := away oddsProbs / oddsTotal |} in
        let publicProbs :=
          {| home := home svenskaFolket / total;
             draw := draw svenskaFolket / total;
             away := away svenskaFolket / total |} in
        let disagreement :=
          Qabs (home normalizedOddsProbs - home publicProbs) +
          Qabs (draw normalizedOddsProbs - draw publicProbs) +
          Qabs (away normalizedOddsProbs - away publicProbs) in
        Qmin 1 (disagreement / 0.6)
  | _ => 0
  end.

Definition getSafePick (probabilities : Triple) (expertConsensus : Q) : Outcome :=
  let weight := 0.7 + expertConsensus * 0.3 in
  let weightedProbs :=
    {| home := home probabilities * weight;
       draw := draw probabilities * weight;
       away := away probabilities * weight |} in
  if Qgeb (home weightedProbs) (draw weightedProbs)
     && Qgeb (home weightedProbs) (away weightedProbs) then O1
  else if Qgeb (draw weightedProbs) (away weightedProbs) then OX
  else O2.

Definition getValuePick (odds probabilities : Triple) : Outcome :=
  let homeEV := home odds * home probabilities - 1 in
  let drawEV := draw odds * draw probabilities - 1 in
  let awayEV := away odds * away probabilities - 1 in
  if Qgeb homeEV drawEV && Qgeb homeEV awayEV then O1
  else if Qgeb drawEV awayEV then OX
  else O2.

(** [!contrarianScore] holds of the number [0]. *)
Definition getContrarianPick (odds : Triple) (svenskaFolket : option Triple)
    (contrarianScore : Q) : Outcome :=
  let fallback :=
    getValuePick odds
      {| home := 1 / home odds; draw := 1 / draw odds; away := 1 / away odds |} in
  match svenskaFolket with
  | None => fallback
  | Some svenskaFolket =>
      if Qeq_bool contrarianScore 0 || Qltb contrarianScore 0.3 then fallback
      else
        let total := home svenskaFolket + draw svenskaFolket + away svenskaFolket in
        if Qeq_bool total 0 then O1
        else
          let publicPercentages :=
            {| home := home svenskaFolket / total;
               draw := draw svenskaFolket / total;
               away := away svenskaFolket / total |} in
          let minPublic :=
            Qmin3 (home publicPercentages) (draw publicPercentages)
                  (away publicPercentages) in
          if Qeq_bool (home publicPercentages) minPublic then O1
          else if Qeq_bool (draw publicPercentages) minPublic then OX
          else O2
  end.

Definition calculateOverallConfidence (scores : Scores) : Q :=
  let weights_valueScore := 0.25 in
  let weights_expertConsensus := 0.3 in
  let weights_homeAdvantage := 0.15 in
  let weights_uncertaintyScore := -0.2 in
  let weights_contrarian := 0.1 in
  let confidence :=
    valueScore scores * weights_valueScore +
    expertConsensus scores * weights_expertConsensus +
    homeAdvantage scores * weights_homeAdvantage +
    (1 - uncertaintyScore scores) * Qabs weights_uncertaintyScore +
    contrarian scores * weights_contrarian in
  Qmax 0 (Qmin 1 confidence).

Definition generateRecommendations (match_ : MatchWithOdds) (scores : Scores)
    : Recommendations :=
  let safePick := getSafePick (probabilities match_) (expertConsensus scores) in
  let valuePick := getValuePick (odds match_) (probabilities match_) in
  let contrarian_ :=
    getContrarianPick (odds match_)
      (match svenskaSpelData match_ with
       | Some d => svenskaFolket d
       | None => None
       end)
      (contrarian scores) in
  let confidence := calculateOverallConfidence scores in
  {| safePick := safePick;
     valuePick := valuePick;
     contrarianPick := contrarian_;
     confidence := confidence |}.

Definition analyzeMatch (match_ : MatchWithOdds) : MatchIntelligence :=
  let data := svenskaSpelData match_ in
  let valueScore := calculateValueScore (odds match_) (probabilities match_) in
  let publicSentiment :=
    calculatePublicSentiment
      (match data with Some d => svenskaFolket d | None => None end) in
  let expertConsensus :=
    calculateExpertConsensus
      (match data with Some d => expertTips d | None => None end) in
  let homeAdvantage :=
    calculateHomeAdvantage (home_team match_) (away_team match_)
      (match data with Some d => league d | None => None end) in
  let uncertaintyScore := calculateUncertainty (probabilities match_) in
  let contrarian := calculateContrarianScore (odds match_) data in
  let scores :=
    {| valueScore := valueScore;
       publicSentiment := publicSentiment;
       expertConsensus := expertConsensus;
       homeAdvantage := homeAdvantage;
       uncertaintyScore := uncertaintyScore;
       contrarian := contrarian |} in
  let recommendations := generateRecommendations match_ scores in
  {| match_ := match_; scores := scores; recommendations := recommendations |}.

(** ** System generation ([src/lib/utils/systemGenerator.ts]) *)

(** [type SystemOutcome = '1' | 'X' | '2' | '1X' | '12' | 'X2' | '1X2'] *)
Inductive SystemOutcome : Type := S1 | SX | S2 | S1X | S12 | SX2 | S1X2.

(** An [Outcome] used where a [SystemOutcome] is expected. *)
Definition single (o : Outcome) : SystemOutcome :=
  match o with
  | O1 => S1
  | OX => SX
  | O2 => S2
  end.

(** [SystemMatch]: the object [{ ...match, systemOutcome }]. *)
Record SystemMatch : Type := {
  sm_match : MatchWithOdds;
  systemOutcome : SystemOutcome
}.

Record Distribution : Type := { halves : Z; fulls : Z; singles : Z }.

Record SystemConfiguration : Type := {
  totalRows : Z;
  cost : Q;
  costPerRow : Q;
  distribution : Distribution;
  description : string
}.

(** [GeneratedSystem] without [id] and [createdAt]; [matches] is the array
    built by [selectSystemOutcomes], holes included. *)
Record GeneratedSystem : Type := {
  sys_matches : list (option SystemMatch);
  configuration : SystemConfiguration;
  allRows : list GeneratedRow;
  sys_expectedCorrect : Q;
  sys_expectedPayout : Q;
  sys_riskProfile : RiskProfile
}.

(** An element of [strategicMatches]: [{ ...analysis, index, strategicValue }]. *)
Record StrategicMatch : Type := {
  analysis : MatchIntelligence;
  index : nat;
  strategicValue : Q
}.

Definition with_strategicValue (m : StrategicMatch) (v : Q) : StrategicMatch :=
  {| analysis := analysis m; index := index m; strategicValue := v |}.

(** [strategicMatches.sort((a, b) => b.strategicValue - a.strategicValue)]:
    the stable sort by descending strategic value, as an insertion sort in
    which an element stays in front of the later elements of equal value. *)
Fixpoint insert_desc (x : StrategicMatch) (l : list StrategicMatch)
    : list StrategicMatch :=
  match l with
  | [] => [x]
  | y :: l' =>
      if Qltb (strategicValue x) (strategicValue y)
      then y :: insert_desc x l'
      else x :: y :: l'
  end.

Definition sort_desc (l : list StrategicMatch) : list StrategicMatch :=
  fold_right insert_desc [] l.

(** The [forEach] that adds noise to every strategic value. *)
Fixpoint add_noise (l : list StrategicMatch) : M (list StrategicMatch) :=
  match l with
  | [] => ret []
  | m :: rest =>
      r <- random ;;
      let noise := (r - 0.5) * 0.8 in
      rest' <- add_noise rest ;;
      ret (with_strategicValue m (strategicValue m + noise) :: rest')
  end.

(** One exchange of two randomly chosen positions of [l]. *)
Definition random_swap {A : Type} (l : list A) : M (list A) :=
  idx1 <- random_index (List.length l) ;;
  idx2 <- random_index (List.length l) ;;
  match swap idx1 idx2 l with
  | Some l' => ret l'
  | None => throw TypeError
  end.

Fixpoint random_swaps {A : Type} (count : nat) (l : list A) : M (list A) :=
  match count with
  | O => ret l
  | S count' => l' <- random_swap l ;; random_swaps count' l'
  end.

(** The profile-dependent reordering of the sorted [strategicMatches]
    (lines 87 to 132 of [selectSystemOutcomes]). *)
Definition randomize_order (riskProfile : RiskProfile)
    (strategicMatches : list StrategicMatch) : M (list StrategicMatch) :=
  if String.eqb riskProfile "risky" then
    noisy <- add_noise strategicMatches ;;
    let sorted := sort_desc noisy in
    r <- random ;;
    let numSwaps :=
      Z.to_nat (Qfloor (Q_of_nat (List.length sorted) * (0.5 + r * 0.5))) in
    swapped <- random_swaps numSwaps sorted ;;
    r' <- random ;;
    if Qltb r' 0.3 then ret (rev swapped) else ret swapped
  else if String.eqb riskProfile "balanced" then
    r <- random ;;
    if Qltb r 0.7 then
      let stable := firstn 4 strategicMatches in
      let middle := firstn 5 (skipn 4 strategicMatches) in
      let bottom := skipn 9 strategicMatches in
      middle' <- random_swaps 3 middle ;;
      ret (stable ++ middle' ++ bottom)
    else ret strategicMatches
  else ret strategicMatches.

(** The three lines
    [if (pick === '1') return draw > away ? '1X' : '12';
     if (pick === 'X') return home > away ? '1X' : 'X2';
     return home > draw ? '12' : 'X2';]
    which [selectIntelligentHalf] repeats for each base pick. *)
Definition half_around (pick : Outcome) (p : Triple) : SystemOutcome :=
  match pick with
  | O1 => if Qgtb (draw p) (away p) then S1X else S12
  | OX => if Qgtb (home p) (away p) then S1X else SX2
  | O2 => if Qgtb (home p) (draw p) then S12 else SX2
  end.

Definition selectIntelligentHalf (analysis : MatchIntelligence)
    (riskProfile : RiskProfile) : M SystemOutcome :=
  let scores := scores analysis in
  let recommendations := recommendations analysis in
  let p := probabilities (match_ analysis) in
  if String.eqb riskProfile "safe" then
    let safePick := safePick recommendations in
    ret (half_around safePick p)
  else if String.eqb riskProfile "risky" then
    r <- random ;;
    let useContrarian := Qltb r (contrarian scores * 0.8 + 0.2) in
    if useContrarian then
      let contrarianPick := contrarianPick recommendations in
      randomFactor <- random ;;
      match contrarianPick with
      | O1 =>
          ret (if Qltb randomFactor 0.33 then S1X
               else if Qltb randomFactor 0.66 then S12
               else if Qgtb (draw p) (away p) then S1X else S12)
      | OX =>
          ret (if Qltb randomFactor 0.33 then S1X
               else if Qltb randomFactor 0.66 then SX2
               else if Qgtb (home p) (away p) then S1X else SX2)
      | O2 =>
          ret (if Qltb randomFactor 0.33 then S12
               else if Qltb randomFactor 0.66 then SX2
               else if Qgtb (home p) (draw p) then S12 else SX2)
      end
    else
      let valuePick := valuePick recommendations in
      randomChoice <- random ;;
      match valuePick with
      | O1 =>
          ret (if Qltb randomChoice 0.6
               then (if Qgtb (draw p) (away p) then S1X else S12)
               else if Qltb randomChoice 0.8 then S1X else S12)
      | OX =>
          ret (if Qltb randomChoice 0.6
               then (if Qgtb (home p) (away p) then S1X else SX2)
               else if Qltb randomChoice 0.8 then S1X else SX2)
      | O2 =>
          ret (if Qltb randomChoice 0.6
               then (if Qgtb (home p) (draw p) then S12 else SX2)
               else if Qltb randomChoice 0.8 then S12 else SX2)
      end
  else
    let useSafe := Qgtb (confidence recommendations) 0.7 in
    let basePick :=
      if useSafe then safePick recommendations else valuePick recommendations in
    ret (half_around basePick p).

(** [[...new Set(picks)]]: the distinct picks in order of first occurrence. *)
Definition unique (picks : list Outcome) : list Outcome :=
  fold_left
    (fun acc o => if existsb (Outcome_eqb o) acc then acc else acc ++ [o])
    picks [].

(** One strategy of the risky single pick: [{ pick, weight }]. *)
Record Strategy : Type := { pick : Outcome; weight : Q }.

(** [for (let i = strategies.length - 1; i > 0; i--)] of the shuffle, with
    [i] counting down from its argument. *)
Fixpoint shuffle_from (i : nat) (strategies : list Strategy) : M (list Strategy) :=
  match i with
  | O => ret strategies
  | S i' =>
      j <- random_index (S i) ;;
      match swap i j strategies with
      | Some strategies' => shuffle_from i' strategies'
      | None => throw TypeError
      end
  end.

(** [for (const strategy of strategies)] of the weighted choice. *)
Fixpoint choose_strategy (strategies : list Strategy) (random_ cumulativeWeight : Q)
    : option Outcome :=
  match strategies with
  | [] => None
  | strategy :: rest =>
      let cumulativeWeight := cumulativeWeight + weight strategy in
      if Qle_bool random_ cumulativeWeight then Some (pick strategy)
      else choose_strategy rest random_ cumulativeWeight
  end.

(** The last part of the risky branch of [selectIntelligentSingle]: the
    weighted choice among the three strategies. *)
Definition weighted_strategy_pick (recommendations : Recommendations)
    (scores : Scores) : M Outcome :=
  r <- random ;;
  let chaosMultiplier := 0.5 + r in
  let strategies :=
    [ {| pick := valuePick recommendations; weight := 0.4 * chaosMultiplier |};
      {| pick := contrarianPick recommendations; weight := 0.35 * chaosMultiplier |};
      {| pick := safePick recommendations; weight := 0.25 * chaosMultiplier |} ] in
  strategies <-
    (if Qgtb (contrarian scores) 0.6 then
       r <- random ;;
       ret (match nth_error strategies 1 with
            | Some s1 =>
                update strategies 1
                  {| pick := pick s1; weight := weight s1 * (1 + r * 0.5) |}
            | None => strategies
            end)
     else ret strategies) ;;
  r <- random ;;
  strategies <-
    (if Qltb r 0.3 then shuffle_from (List.length strategies - 1) strategies
     else ret strategies) ;;
  let totalWeight := fold_left (fun sum s => sum + weight s) strategies 0 in
  r <- random ;;
  let random_ := r * totalWeight in
  match choose_strategy strategies random_ 0 with
  | Some o => ret o
  | None => ret (valuePick recommendations)
  end.

(** The array reads [outcomes[Math.floor(Math.random() * outcomes.length)]]
    below are in range whenever the draw is in [[0, 1)]; the default of [nth]
    is never returned then. *)
Definition selectIntelligentSingle (analysis : MatchIntelligence)
    (riskProfile : RiskProfile) : M Outcome :=
  let recommendations := recommendations analysis in
  let scores := scores analysis in
  if String.eqb riskProfile "safe" then
    ret (safePick recommendations)
  else if String.eqb riskProfile "risky" then
    randomFactor <- random ;;
    if Qltb randomFactor 0.25 then
      let outcomes := [O1; OX; O2] in
      i <- random_index (List.length outcomes) ;;
      ret (nth i outcomes O1)
    else
      let avoid_own_picks (otherwise : M Outcome) : M Outcome :=
        if Qltb randomFactor 0.5 then
          let allPicks :=
            [safePick recommendations; valuePick recommendations;
             contrarianPick recommendations] in
          let uniquePicks := unique allPicks in
          let allOutcomes := [O1; OX; O2] in
          let otherOutcomes :=
            filter (fun o => negb (existsb (Outcome_eqb o) uniquePicks)) allOutcomes in
          if (0 <? List.length otherOutcomes)%nat then
            i <- random_index (List.length otherOutcomes) ;;
            ret (nth i otherOutcomes O1)
          else otherwise
        else otherwise in
      avoid_own_picks (weighted_strategy_pick recommendations scores)
  else
    ret (if Qgtb (confidence recommendations) 0.65
         then safePick recommendations else valuePick recommendations).

(** The assignment loop of [selectSystemOutcomes] (lines 139 to 172), run
    over the strategic matches that are still to be assigned. *)
Fixpoint assign_outcomes (config : SystemConfiguration) (riskProfile : RiskProfile)
    (strategicMatches : list StrategicMatch)
    (systemMatches : list (option SystemMatch))
    (halvesAssigned fullsAssigned : nat) : M (list (option SystemMatch)) :=
  match strategicMatches with
  | [] => ret systemMatches
  | a :: rest =>
      let match_ := match_ (analysis a) in
      if (Z.of_nat halvesAssigned <? halves (distribution config))%Z then
        systemOutcome <- selectIntelligentHalf (analysis a) riskProfile ;;
        assign_outcomes config riskProfile rest
          (array_set systemMatches (index a)
             {| sm_match := match_; systemOutcome := systemOutcome |})
          (S halvesAssigned) fullsAssigned
      else if (Z.of_nat fullsAssigned <? fulls (distribution config))%Z then
        let systemOutcome := S1X2 in
        assign_outcomes config riskProfile rest
          (array_set systemMatches (index a)
             {| sm_match := match_; systemOutcome := systemOutcome |})
          halvesAssigned (S fullsAssigned)
      else
        o <- selectIntelligentSingle (analysis a) riskProfile ;;
        let systemOutcome := single o in
        assign_outcomes config riskProfile rest
          (array_set systemMatches (index a)
             {| sm_match := match_; systemOutcome := systemOutcome |})
          halvesAssigned fullsAssigned
  end.

(** [matchAnalyses.map((analysis, index) => ({ ...analysis, index,
    strategicValue }))] *)
Definition strategic_matches (matchAnalyses : list MatchIntelligence)
    : list StrategicMatch :=
  mapi
    (fun analysis index =>
       {| analysis := analysis;
          index := index;
          strategicValue :=
            uncertaintyScore (scores analysis) * 0.6 +
            valueScore (scores analysis) * 0.4 |})
    matchAnalyses.

Definition selectSystemOutcomes (matches : list MatchWithOdds)
    (config : SystemConfiguration) (riskProfile : RiskProfile)
    : M (list (option SystemMatch)) :=
  let matchAnalyses := map analyzeMatch matches in
  let strategicMatches := strategic_matches matchAnalyses in
  let strategicMatches := sort_desc strategicMatches in
  strategicMatches <- randomize_order riskProfile strategicMatches ;;
  let systemMatches := repeat None 13 in
  assign_outcomes config riskProfile strategicMatches systemMatches 0 0.

(** The [default] branch of the source's [switch] needs a value outside
    the type [SystemOutcome]; no such value is constructed by the
    generator. *)
Definition expandSystemOutcome (systemOutcome : SystemOutcome) : list Outcome :=
  match systemOutcome with
  | S1 => [O1]
  | SX => [OX]
  | S2 => [O2]
  | S1X => [O1; OX]
  | S12 => [O1; O2]
  | SX2 => [OX; O2]
  | S1X2 => [O1; OX; O2]
  end.

(** One round of the outer loop of [generateOutcomeCombinations]: the new
    content of [combinations] after [match]. *)
Definition extend_combinations (combinations : list (list Outcome))
    (match_ : SystemMatch) : list (list Outcome) :=
  let possibleOutcomes := expandSystemOutcome (systemOutcome match_) in
  flat_map
    (fun combination => map (fun outcome => combination ++ [outcome]) possibleOutcomes)
    combinations.

Definition generateOutcomeCombinations (systemMatches : list SystemMatch)
    : list (list Outcome) :=
  fold_left extend_combinations systemMatches [[]].

Definition calculateRowExpectedCorrect (outcomes : list Outcome)
    (systemMatches : list SystemMatch) : Res Q :=
  reduce_indexed
    (fun total outcome index =>
       match nth_error systemMatches index with
       | None => Throw TypeError
       | Some match_ =>
           match outcome with
           | O1 => Ok (total + home (probabilities (sm_match match_)))
           | OX => Ok (total + draw (probabilities (sm_match match_)))
           | O2 => Ok (total + away (probabilities (sm_match match_)))
           end
       end)
    outcomes 0%nat 0.

Definition estimateRowPayout (outcomes : list Outcome)
    (systemMatches : list SystemMatch) : Res Q :=
  totalOdds <~
    reduce_indexed
      (fun product outcome index =>
         match nth_error systemMatches index with
         | None => Throw TypeError
         | Some match_ =>
             let odds_ :=
               match outcome with
               | O1 => home (odds (sm_match match_))
               | OX => draw (odds (sm_match match_))
               | O2 => away (odds (sm_match match_))
               end in
             Ok (product * odds_)
         end)
      outcomes 0%nat 1 ;;
  Ok (Qmin (totalOdds * 0.65) 100000).

(** The array handed over may have holes; the loop of
    [generateOutcomeCombinations] reads [match.systemOutcome] of every
    element and throws on the first hole. *)
Definition generateAllSystemRows (systemMatches : list (option SystemMatch))
    (riskProfile : RiskProfile) : Res (list GeneratedRow) :=
  plan <~ dense systemMatches ;;
  let allCombinations := generateOutcomeCombinations plan in
  mapi_res_from
    (fun outcomes index =>
       expectedCorrect <~ calculateRowExpectedCorrect outcomes plan ;;
       expectedPayout <~ estimateRowPayout outcomes plan ;;
       Ok {| row_index := index;
             outcomes := outcomes;
             expectedCorrect := expectedCorrect;
             expectedPayout := expectedPayout;
             row_riskProfile := riskProfile |})
    allCombinations 0%nat.

Definition calculateSystemExpectedCorrect (allRows : list GeneratedRow) : Q :=
  fold_left (fun sum row => sum + expectedCorrect row) allRows 0
  / Q_of_nat (List.length allRows).

Definition calculateSystemExpectedPayout (allRows : list GeneratedRow) : Q :=
  fold_left (fun sum row => sum + expectedPayout row) allRows 0
  / Q_of_nat (List.length allRows).

(** [generateSystemId()] draws one random number for the identifier. *)
Definition generateSystem (matches : list MatchWithOdds)
    (systemConfig : SystemConfiguration) (riskProfile : RiskProfile)
    : M GeneratedSystem :=
  let config := systemConfig in
  systemMatches <- selectSystemOutcomes matches config riskProfile ;;
  allRows <- lift (generateAllSystemRows systemMatches riskProfile) ;;
  let expectedCorrect := calculateSystemExpectedCorrect allRows in
  let expectedPayout := calculateSystemExpectedPayout allRows in
  _ <- random ;;
  ret {| sys_matches := systemMatches;
         configuration := config;
         allRows := allRows;
         sys_expectedCorrect := expectedCorrect;
         sys_expectedPayout := expectedPayout;
         sys_riskProfile := riskProfile |}.

Definition calculateSystemBounds (config : SystemConfiguration) : Z * Z :=
  let halves := halves (distribution config) in
  let fulls := fulls (distribution config) in
  let singles := singles (distribution config) in
  let min := (2 ^ halves * 1 ^ fulls * 1 ^ singles)%Z in
  let max := (2 ^ halves * 3 ^ fulls * 1 ^ singles)%Z in
  (min, max).

End Engine.

(** [SYSTEM_PRESETS] of [src/lib/types/system.ts]. *)
Definition SYSTEM_PRESETS : list (string * SystemConfiguration) :=
  [ ("system-96"%string,
     {| totalRows := 96; cost := 96; costPerRow := 1;
        distribution := {| halves := 5; fulls := 1; singles := 7 |};
        description := "5 halves + 1 full + 7 singles = 96 rows" |});
    ("system-64"%string,
     {| totalRows := 64; cost := 64; costPerRow := 1;
        distribution := {| halves := 6; fulls := 0; singles := 7 |};
        description := "6 halves + 7 singles = 64 rows" |});
    ("system-48"%string,
     {| totalRows := 48; cost := 48; costPerRow := 1;
        distribution := {| halves := 4; fulls := 1; singles := 8 |};
        description := "4 halves + 1 full + 8 singles = 48 rows" |});
    ("system-32"%string,
     {| totalRows := 32; cost := 32; costPerRow := 1;
        distribution := {| halves := 5; fulls := 0; singles := 8 |};
        description := "5 halves + 8 singles = 32 rows" |}) ].

(** ** Vocabulary of the specification *)

(** The outcomes a coverage class covers: those whose symbol occurs in the
    label of the class (['1X'] covers ['1'] and ['X']). *)
Definition outcome_symbol (o : Outcome) : string :=
  match o with
  | O1 => "1"
  | OX => "X"
  | O2 => "2"
  end.

Definition label (s : SystemOutcome) : string :=
  match s with
  | S1 => "1"
  | SX => "X"
  | S2 => "2"
  | S1X => "1X"
  | S12 => "12"
  | SX2 => "X2"
  | S1X2 => "1X2"
  end.

Definition covers (s : SystemOutcome) (o : Outcome) : bool :=
  includes (label s) (outcome_symbol o).

(** The number of rows a plan stands for: the product of the sizes of the
    outcome sets of its matches. *)
Definition rows_product (plan : list SystemMatch) : nat :=
  fold_right
    (fun m acc => (List.length (expandSystemOutcome (systemOutcome m)) * acc)%nat)
    1%nat plan.

(** [CoverageClass]: how many outcomes a system outcome covers. *)
Inductive CoverageClass : Type := Single | Half | Full.

Definition coverage_class (s : SystemOutcome) : CoverageClass :=
  match s with
  | S1 | SX | S2 => Single
  | S1X | S12 | SX2 => Half
  | S1X2 => Full
  end.

Definition CoverageClass_eq_dec (a b : CoverageClass) : {a = b} + {a <> b}.
Proof. decide equality. Defined.

(** The number of matches of a plan with the given coverage class. *)
Definition class_count (c : CoverageClass) (plan : list SystemMatch) : nat :=
  count_occ CoverageClass_eq_dec (map (fun m => coverage_class (systemOutcome m)) plan) c.

(** The numbers of Half and Full coverages that the assignment loop hands
    out when it walks [n] matches: it compares its counters with the
    configured counts and never looks at [singles]. *)
Definition halves_assigned (config : SystemConfiguration) (n : nat) : nat :=
  Nat.min (Z.to_nat (halves (distribution config))) n.

Definition fulls_assigned (config : SystemConfiguration) (n : nat) : nat :=
  Nat.min (Z.to_nat (fulls (distribution config))) (n - halves_assigned config n).

(** A computation returns, whatever the number of draws made before, a
    value that satisfies [P]. *)
Definition returns {A : Type} (m : M A) (P : A -> Prop) : Prop :=
  forall n, exists a n', m n = Ok (a, n') /\ P a.

(** What identifies a strategic match, whatever its current score. *)
Definition order_key (x : StrategicMatch) : nat * MatchIntelligence :=
  (index x, analysis x).

(** One write [a[i] = v], and its effect on the content of the positions. *)
Definition write {V : Type} (a : list (option V)) (w : nat * V) : list (option V) :=
  array_set a (fst w) (snd w).

Definition write_fun {V : Type} (g : nat -> option V) (w : nat * V) : nat -> option V :=
  fun i => if (i =? fst w)%nat then Some (snd w) else g i.

(** The expert tip counts of a match, when present, are counts: none is
    negative. *)
Definition tips_nonnegative (m : MatchWithOdds) : Prop :=
  match svenskaSpelData m with
  | Some d =>
      match expertTips d with
      | Some t => 0 <= home t /\ 0 <= draw t /\ 0 <= away t
      | None => True
      end
  | None => True
  end.

(** The probability a triple gives to an outcome. *)
Definition prob_of (p : Triple) (o : Outcome) : Q :=
  match o with
  | O1 => home p
  | OX => draw p
  | O2 => away p
  end.

(** The contract of [Math.random()]. *)
Definition random_contract (rand : nat -> Q) : Prop :=
  forall n, 0 <= rand n /\ rand n < 1.

(** The correct counts of the successive trials of a simulation of
    [iterations] trials that starts after [n] random draws. *)
Fixpoint trial_counts (rand : nat -> Q) (predictions : list Outcome)
    (matches : list MatchWithOdds) (iterations n : nat) : list nat :=
  match iterations with
  | O => []
  | S iterations' =>
      match simulateMatchday rand predictions matches n with
      | Ok (correctCount, n') =>
          correctCount :: trial_counts rand predictions matches iterations' n'
      | Throw _ => []
      end
  end.

(** The share of the trials with exactly [k] correct predictions. *)
Definition frequency (k : nat) (counts : list nat) : Q :=
  Q_of_nat (count_occ Nat.eq_dec counts k) / Q_of_nat (List.length counts).

(** The payout of a correct count, read from the table [payouts]. *)
Definition payout (k : nat) : Q :=
  match k with
  | 10%nat => payouts_exactly10
  | 11%nat => payouts_exactly11
  | 12%nat => payouts_exactly12
  | 13%nat => payouts_exactly13
  | _ => 0
  end.

(** ** Sample data *)

(** A match without analysis data, with the given probabilities. *)
Definition example_match (h d a : Q) : MatchWithOdds :=
  {| matchId := ""; home_team := ""; away_team := ""; kickoff := "";
     odds := {| home := 2; draw := 3; away := 4 |};
     probabilities := {| home := h; draw := d; away := a |};
     svenskaSpelData := None |}.

(** A random source that cycles through [0, 0.1, ..., 0.9]. *)
Definition example_rand (n : nat) : Q := Q_of_nat (n mod 10) / 10.

Definition example_row : GeneratedRow :=
  {| row_index := 0; outcomes := [O1; OX]; expectedCorrect := 1;
     expectedPayout := 0; row_riskProfile := "safe"%string |}.

(** A stand-in for [Math.log2]: the chord of the logarithm through
    [(1/2, -1)] and [(1, 0)], with [log2 3] rounded to [1.585]. *)
Definition example_log2 (x : Q) : Q :=
  if Qeq_bool x 3 then 1.585 else 2 * x - 2.

(** A slate of 13 matches. *)
Definition example_slate : list MatchWithOdds :=
  [ example_match 0.5 0.3 0.2; example_match 0.2 0.3 0.5;
    example_match 0.4 0.35 0.25; example_match 0.6 0.25 0.15;
    example_match 0.3 0.3 0.4; example_match 0.45 0.3 0.25;
    example_match 0.7 0.2 0.1; example_match 0.25 0.35 0.4;
    example_match 0.55 0.25 0.2; example_match 0.35 0.4 0.25;
    example_match 0.15 0.25 0.6; example_match 0.5 0.2 0.3;
    example_match 0.38 0.32 0.3 ].

Definition system_96 : SystemConfiguration :=
  {| totalRows := 96; cost := 96; costPerRow := 1;
     distribution := {| halves := 5; fulls := 1; singles := 7 |};
     description := "5 halves + 1 full + 7 singles = 96 rows" |}.

(** Two configurations that do not describe a 13-match slate: one whose
    counts sum to 6, one with a negative count. *)
Definition short_config : SystemConfiguration :=
  {| totalRows := 12; cost := 12; costPerRow := 1;
     distribution := {| halves := 2; fulls := 1; singles := 3 |};
     description := "" |}.

Definition negative_config : SystemConfiguration :=
  {| totalRows := 3; cost := 3; costPerRow := 1;
     distribution := {| halves := -1; fulls := 1; singles := 13 |};
     description := "" |}.

(** A match with expert tips and betting percentages. *)
Definition example_tipped_match : MatchWithOdds :=
  {| matchId := "m1"; home_team := "Brighton"; away_team := "Arsenal";
     kickoff := "";
     odds := {| home := 3.1; draw := 3.4; away := 2.3 |};
     probabilities := {| home := 0.31; draw := 0.28; away := 0.41 |};
     svenskaSpelData :=
       Some {| svenskaFolket := Some {| home := 30; draw := 25; away := 45 |};
               expertTips := Some {| home := 2; draw := 1; away := 7 |};
               league := Some "Premier League"%string |} |}.


(** ** Further vocabulary *)

(** Whenever the computation returns, the value satisfies [P]. *)
Definition ensures {A : Type} (m : M A) (P : A -> Prop) : Prop :=
  forall n a n', m n = Ok (a, n') -> P a.

(** A match on which the public backs the outsider heavily. *)
Definition example_contrarian_match : MatchWithOdds :=
  {| matchId := "m2"; home_team := "Malmo"; away_team := "Hacken";
     kickoff := "";
     odds := {| home := 1.5; draw := 4.2; away := 6.5 |};
     probabilities := {| home := 0.62; draw := 0.23; away := 0.15 |};
     svenskaSpelData :=
       Some {| svenskaFolket := Some {| home := 30; draw := 20; away := 50 |};
               expertTips := None;
               league := Some "Allsvenskan"%string |} |}.

(** The probabilities and the odds of the outcomes a row picks, match by
    match of the plan. *)
Definition picked_probabilities (row : list Outcome) (plan : list SystemMatch) : list Q :=
  map (fun om => prob_of (probabilities (sm_match (snd om))) (fst om)) (combine row plan).

Definition picked_odds (row : list Outcome) (plan : list SystemMatch) : list Q :=
  map (fun om => prob_of (odds (sm_match (snd om))) (fst om)) (combine row plan).

Definition Qproduct (l : list Q) : Q := fold_left Qmult l 1.

(** The mean probability of the outcomes that a system match covers. *)
Definition covered_mean (m : SystemMatch) : Q :=
  Qsum (map (prob_of (probabilities (sm_match m))) (expandSystemOutcome (systemOutcome m)))
  / Q_of_nat (List.length (expandSystemOutcome (systemOutcome m))).

(** ** The rest of [odds.ts] *)

(** [Math.round]: the nearest integer, a half rounded up. *)
Definition Math_round (x : Q) : Z := Qfloor (x + 0.5).

(** [array.sort((a, b) => key(b) - key(a))] and
    [array.sort((a, b) => key(a) - key(b))]: the stable sorts by descending
    and by ascending key, as insertion sorts in which an element stays in
    front of the later elements of equal key. *)
Fixpoint insert_desc_by {A : Type} (key : A -> Q) (x : A) (l : list A) : list A :=
  match l with
  | [] => [x]
  | y :: l' =>
      if Qltb (key x) (key y) then y :: insert_desc_by key x l' else x :: y :: l'
  end.

Definition sort_desc_by {A : Type} (key : A -> Q) (l : list A) : list A :=
  fold_right (insert_desc_by key) [] l.

Fixpoint insert_asc_by {A : Type} (key : A -> Q) (x : A) (l : list A) : list A :=
  match l with
  | [] => [x]
  | y :: l' =>
      if Qltb (key y) (key x) then y :: insert_asc_by key x l' else x :: y :: l'
  end.

Definition sort_asc_by {A : Type} (key : A -> Q) (l : list A) : list A :=
  fold_right (insert_asc_by key) [] l.

(** [array[i]] for a computed index: [undefined] outside the array. *)
Definition array_get {A : Type} (l : list A) (i : Z) : option A :=
  if (i <? 0)%Z then None else nth_error l (Z.to_nat i).

(** The property names ['home'], ['draw'] and ['away'] used as keys. *)
Inductive OutcomeKey : Type := key_home | key_draw | key_away.

(** [adjusted[key]++] *)
Definition increment_key (t : Triple) (k : OutcomeKey) : Triple :=
  match k with
  | key_home => {| home := home t + 1; draw := draw t; away := away t |}
  | key_draw => {| home := home t; draw := draw t + 1; away := away t |}
  | key_away => {| home := home t; draw := draw t; away := away t + 1 |}
  end.

(** The default of the parameter [randomnessFactor]. *)
Definition default_randomnessFactor : Q := 0.1.

Section Sampling.

Variable rand : nat -> Q.

Definition selectEVBasedOutcome (odds probabilities : Triple) (randomnessFactor : Q)
    : M Outcome :=
  let evs := calculateExpectedValues odds probabilities in
  r <- random rand ;;
  if Qltb r randomnessFactor then selectWeightedRandomOutcome rand probabilities
  else if Qgeb (home evs) (draw evs) && Qgeb (home evs) (away evs) then ret O1
  else if Qgeb (draw evs) (away evs) then ret OX
  else ret O2.

Definition generateMockOdds : M Triple :=
  r <- random rand ;;
  let homeOdds := 1.5 + r * 3 in
  r <- random rand ;;
  let drawOdds := 2.8 + r * 1.5 in
  r <- random rand ;;
  let awayOdds := 1.8 + r * 4 in
  ret {| home := inject_Z (Math_round (homeOdds * 100)) / 100;
         draw := inject_Z (Math_round (drawOdds * 100)) / 100;
         away := inject_Z (Math_round (awayOdds * 100)) / 100 |}.

(** ** The rest of the simulation module *)

Record CoverageRecommendation : Type := {
  matchIndex : nat;
  suggestedDistribution : Triple
}.

Record OptimalCoverage : Type := {
  coverage_recommendations : list CoverageRecommendation;
  expectedHitRate : Q
}.

(** [for (const outcome of outcomes) if (remaining > 0) { adjusted[outcome.key]++;
    remaining--; }] *)
Fixpoint distribute_remaining (keys : list OutcomeKey) (adjusted : Triple)
    (remaining : Q) : Triple :=
  match keys with
  | [] => adjusted
  | k :: keys' =>
      if Qgtb remaining 0
      then distribute_remaining keys' (increment_key adjusted k) (remaining - 1)
      else distribute_remaining keys' adjusted remaining
  end.

(** The body of the loop of [calculateOptimalCoverage] for one match: the
    suggested distribution of [numRows] rows over the three outcomes. *)
Definition suggest_distribution (probs : Triple) (numRows : Q) : Triple :=
  let totalRows := numRows in
  let homeRows := Qmax 1 (inject_Z (Math_round (home probs * totalRows))) in
  let drawRows := Qmax 1 (inject_Z (Math_round (draw probs * totalRows))) in
  let awayRows := Qmax 1 (inject_Z (Math_round (away probs * totalRows))) in
  let sum := homeRows + drawRows + awayRows in
  let adjusted := {| home := homeRows; draw := drawRows; away := awayRows |} in
  if Qgtb sum numRows then
    let scale := numRows / sum in
    let adjusted :=
      {| home := inject_Z (Qfloor (homeRows * scale));
         draw := inject_Z (Qfloor (drawRows * scale));
         away := inject_Z (Qfloor (awayRows * scale)) |} in
    let remaining := numRows - (home adjusted + draw adjusted + away adjusted) in
    let outcomes :=
      sort_desc_by snd
        [ (key_home, home probs); (key_draw, draw probs); (key_away, away probs) ] in
    distribute_remaining (map fst outcomes) adjusted remaining
  else adjusted.

(** [for (let i = 0; i < matches.length; i++)], entered at index [i] with
    the matches from [i] on. *)
Fixpoint coverage_loop (matches : list MatchWithOdds) (numRows : Q) (i : nat)
    (recommendations : list CoverageRecommendation) (totalExpectedHits : Q)
    : list CoverageRecommendation * Q :=
  match matches with
  | [] => (recommendations, totalExpectedHits)
  | match_ :: rest =>
      let probs := probabilities match_ in
      let adjusted := suggest_distribution probs numRows in
      let maxProb := Qmax3 (home probs) (draw probs) (away probs) in
      coverage_loop rest numRows (S i)
        (recommendations ++ [ {| matchIndex := i; suggestedDistribution := adjusted |} ])
        (totalExpectedHits + maxProb)
  end.

(** [targetCorrect], default 11, is not read. *)
Definition calculateOptimalCoverage (matches : list MatchWithOdds) (numRows : Q)
    (targetCorrect : Q) : OptimalCoverage :=
  let '(recommendations, totalExpectedHits) := coverage_loop matches numRows 0 [] 0 in
  {| coverage_recommendations := recommendations;
     expectedHitRate := totalExpectedHits / Q_of_nat (List.length matches) |}.

Definition bootstrapSamples : nat := 1000.

(** The inner loop of the bootstrap, with [remaining] trials still to run. *)
Fixpoint bootstrap_sample (row : GeneratedRow) (matches : list MatchWithOdds)
    (remaining : nat) (sampleCorrect : nat) (samplePayout : Q) : M (nat * Q) :=
  match remaining with
  | O => ret (sampleCorrect, samplePayout)
  | S remaining' =>
      correctCount <- simulateMatchday rand (outcomes row) matches ;;
      let sampleCorrect := (sampleCorrect + correctCount)%nat in
      let samplePayout :=
        if (13 <=? correctCount)%nat then samplePayout + 50000
        else if (12 <=? correctCount)%nat then samplePayout + 5000
        else if (11 <=? correctCount)%nat then samplePayout + 500
        else if (10 <=? correctCount)%nat then samplePayout + 50
        else samplePayout in
      bootstrap_sample row matches remaining' sampleCorrect samplePayout
  end.

(** The outer loop of the bootstrap, with [remaining] samples still to
    take. *)
Fixpoint bootstrap_loop (row : GeneratedRow) (matches : list MatchWithOdds)
    (remaining : nat) (bootstrapResults bootstrapPayouts : list Q)
    : M (list Q * list Q) :=
  match remaining with
  | O => ret (bootstrapResults, bootstrapPayouts)
  | S remaining' =>
      sample <- bootstrap_sample row matches 1000 0 0 ;;
      bootstrap_loop row matches remaining'
        (bootstrapResults ++ [Q_of_nat (fst sample) / 1000])
        (bootstrapPayouts ++ [snd sample / 1000])
  end.

(** An interval whose bounds are read from an array and may be
    [undefined]. *)
Record Interval : Type := { lower : option Q; upper : option Q }.

Record ConfidenceIntervals : Type := {
  ci_averageCorrect : Interval;
  ci_expectedPayout : Interval
}.

(** The result is the object [{ ...baseResult, confidenceIntervals }]. *)
Definition simulateWithConfidenceIntervals (row : GeneratedRow)
    (matches : list MatchWithOdds) (iterations : nat) (confidenceLevel : Q)
    : M (SimulationResult * ConfidenceIntervals) :=
  baseResult <- simulateRow rand row matches iterations ;;
  samples <- bootstrap_loop row matches bootstrapSamples [] [] ;;
  let bootstrapResults := sort_asc_by (fun x => x) (fst samples) in
  let bootstrapPayouts := sort_asc_by (fun x => x) (snd samples) in
  let alpha := 1 - confidenceLevel in
  let lowerIndex := Qfloor (alpha / 2 * Q_of_nat bootstrapSamples) in
  let upperIndex := Qfloor ((1 - alpha / 2) * Q_of_nat bootstrapSamples) in
  ret (baseResult,
       {| ci_averageCorrect :=
            {| lower := array_get bootstrapResults lowerIndex;
               upper := array_get bootstrapResults upperIndex |};
          ci_expectedPayout :=
            {| lower := array_get bootstrapPayouts lowerIndex;
               upper := array_get bootstrapPayouts upperIndex |} |}).

End Sampling.

(** ** Value bets (the other methods of the class [KellyCriterion]) *)

Definition calculateTrueProbabilities (match_ : MatchWithOdds) : Triple :=
  let impliedHome := 1 / home (odds match_) in
  let impliedDraw := 1 / draw (odds match_) in
  let impliedAway := 1 / away (odds match_) in
  let total := impliedHome + impliedDraw + impliedAway in
  let normalizedHome := impliedHome / total in
  let normalizedDraw := impliedDraw / total in
  let normalizedAway := impliedAway / total in
  let '(normalizedHome, normalizedDraw, normalizedAway) :=
    match (match svenskaSpelData match_ with
           | Some d => svenskaFolket d
           | None => None
           end) with
    | Some svenskaFolket =>
        let publicHome := home svenskaFolket / 100 in
        let publicDraw := draw svenskaFolket / 100 in
        let publicAway := away svenskaFolket / 100 in
        (normalizedHome * 0.7 + publicHome * 0.3,
         normalizedDraw * 0.7 + publicDraw * 0.3,
         normalizedAway * 0.7 + publicAway * 0.3)
    | None => (normalizedHome, normalizedDraw, normalizedAway)
    end in
  let homeAdvantage := 0.05 in
  let normalizedHome := normalizedHome + homeAdvantage in
  let normalizedAway := normalizedAway - homeAdvantage / 2 in
  let normalizedDraw := normalizedDraw - homeAdvantage / 2 in
  let finalTotal := normalizedHome + normalizedDraw + normalizedAway in
  {| home := normalizedHome / finalTotal;
     draw := normalizedDraw / finalTotal;
     away := normalizedAway / finalTotal |}.

(** The parameter [match] is not read. *)
Definition calculateConfidence (probability odds : Q) (match_ : MatchWithOdds) : Q :=
  let confidence := 0.5 in
  let confidence :=
    if Qgtb probability 0.6 || Qltb probability 0.2
    then confidence + 0.2 else confidence in
  let impliedProb := 1 / odds in
  let discrepancy := Qabs (probability - impliedProb) in
  let confidence := confidence + Qmin (discrepancy * 2) 0.3 in
  Qmin confidence 1.0.

(** [ValueBet]; its fields [matchId], [outcome] and [confidence] carry the
    prefix [vb_] here. *)
Record ValueBet : Type := {
  vb_matchId : string;
  vb_outcome : Outcome;
  value : Q;
  kellyFraction : Q;
  vb_confidence : Q;
  recommendedStake : Q
}.

(** [KellyResult]; the object [recommendedOutcomes] is the list of its
    entries, read by key only. *)
Record KellyResult : Type := {
  valueBets : list ValueBet;
  totalValue : Q;
  recommendedOutcomes : list (string * Outcome)
}.

(** [object[key] = v]: an existing entry is overwritten in place, a new one
    is added at the end. *)
Fixpoint object_set {V : Type} (obj : list (string * V)) (key : string) (v : V)
    : list (string * V) :=
  match obj with
  | [] => [(key, v)]
  | (k, w) :: obj' =>
      if String.eqb k key then (k, v) :: obj' else (k, w) :: object_set obj' key v
  end.

(** [object[key]] *)
Fixpoint object_get {V : Type} (obj : list (string * V)) (key : string) : option V :=
  match obj with
  | [] => None
  | (k, w) :: obj' => if String.eqb k key then Some w else object_get obj' key
  end.

(** The state of the inner [forEach] of [findValueBets]: the bets pushed so
    far, [bestValue] and [bestOutcome]. *)
Record OutcomeScan : Type := {
  scan_valueBets : list ValueBet;
  bestValue : Q;
  bestOutcome : Outcome
}.

(** The callback of the inner [forEach], applied to [{ outcome, prob, odds }]. *)
Definition scan_outcome (match_ : MatchWithOdds) (bankroll : Q) (st : OutcomeScan)
    (entry : Outcome * Q * Q) : OutcomeScan :=
  let '(outcome, prob, odds_) := entry in
  let value := KellyCriterion.calculateValue prob odds_ in
  let kellyFraction :=
    if Qgtb value 0
    then KellyCriterion.calculateOptimalStake prob odds_ bankroll / bankroll
    else 0 in
  let valueBets :=
    if Qgtb value 0 then
      scan_valueBets st ++
      [ {| vb_matchId := matchId match_;
           vb_outcome := outcome;
           value := value;
           kellyFraction := kellyFraction;
           vb_confidence := calculateConfidence prob odds_ match_;
           recommendedStake :=
             KellyCriterion.calculateOptimalStake prob odds_ bankroll |} ]
    else scan_valueBets st in
  if Qgtb value (bestValue st)
  then {| scan_valueBets := valueBets; bestValue := value; bestOutcome := outcome |}
  else {| scan_valueBets := valueBets; bestValue := bestValue st;
          bestOutcome := bestOutcome st |}.

(** The callback of the outer [forEach], applied to one match. *)
Definition scan_match (bankroll : Q)
    (st : list ValueBet * list (string * Outcome)) (match_ : MatchWithOdds)
    : list ValueBet * list (string * Outcome) :=
  let '(valueBets, recommendedOutcomes) := st in
  let trueProbabilities := calculateTrueProbabilities match_ in
  let outcomes :=
    [ (O1, home trueProbabilities, home (odds match_));
      (OX, draw trueProbabilities, draw (odds match_));
      (O2, away trueProbabilities, away (odds match_)) ] in
  let scan :=
    fold_left (scan_outcome match_ bankroll) outcomes
      {| scan_valueBets := valueBets; bestValue := -1; bestOutcome := O1 |} in
  let recommendedOutcomes :=
    if Qgtb (bestValue scan) (-0.05)
    then object_set recommendedOutcomes (matchId match_) (bestOutcome scan)
    else recommendedOutcomes in
  (scan_valueBets scan, recommendedOutcomes).

Definition findValueBets (matches : list MatchWithOdds) (bankroll : Q) : KellyResult :=
  let '(valueBets, recommendedOutcomes) := fold_left (scan_match bankroll) matches ([], []) in
  let valueBets := sort_desc_by value valueBets in
  {| valueBets := valueBets;
     totalValue := fold_left (fun sum bet => sum + value bet) valueBets 0;
     recommendedOutcomes := recommendedOutcomes |}.


(** The match carries no percentages of the public. *)
Definition no_public_data (m : MatchWithOdds) : Prop :=
  match svenskaSpelData m with
  | Some d => svenskaFolket d = None
  | None => True
  end.

(** The value that [findValueBets] computes for outcome [o] of match [m]. *)
Definition bet_value (m : MatchWithOdds) (o : Outcome) : Q :=
  KellyCriterion.calculateValue (prob_of (calculateTrueProbabilities m) o)
    (prob_of (odds m) o).

(** The entry that [findValueBets] pushes for outcome [o] of match [m]. *)
Definition value_bet (m : MatchWithOdds) (bankroll : Q) (o : Outcome) : ValueBet :=
  let prob := prob_of (calculateTrueProbabilities m) o in
  let odds_ := prob_of (odds m) o in
  {| vb_matchId := matchId m;
     vb_outcome := o;
     value := KellyCriterion.calculateValue prob odds_;
     kellyFraction := KellyCriterion.calculateOptimalStake prob odds_ bankroll / bankroll;
     vb_confidence := calculateConfidence prob odds_ m;
     recommendedStake := KellyCriterion.calculateOptimalStake prob odds_ bankroll |}.

(** ** System sizes ([src/lib/utils/svenskaSpelApi.ts]) *)

(** [arr.findIndex(p)], searched from index [i] on; [None] stands for -1. *)
Fixpoint findIndex_from {A : Type} (p : A -> bool) (l : list A) (i : nat) : option nat :=
  match l with
  | [] => None
  | x :: l' => if p x then Some i else findIndex_from p l' (S i)
  end.

Definition findIndex {A : Type} (p : A -> bool) (l : list A) : option nat :=
  findIndex_from p l 0.

(** [arr.filter((x, index) => f x index)], entered at index [i]. *)
Fixpoint filter_indexed_from {A : Type} (f : A -> nat -> bool) (l : list A) (i : nat)
    : list A :=
  match l with
  | [] => []
  | x :: l' =>
      if f x i then x :: filter_indexed_from f l' (S i)
      else filter_indexed_from f l' (S i)
  end.

Definition filter_indexed {A : Type} (f : A -> nat -> bool) (l : list A) : list A :=
  filter_indexed_from f l 0.

(** The interface [SystemResult] has the fields of [SystemConfiguration],
    and the pages pass one for the other: the type is [SystemConfiguration]
    here. *)
Module StryktipsetSystemCalculator.

Definition COST_PER_ROW : Q := 1.

(** The default value of the [maxRows] parameter. *)
Definition default_maxRows : Q := 1000.

(** A loop counter inside a template literal. *)
Definition number_to_string (n : nat) : string :=
  NilZero.string_of_uint (Nat.to_uint n).

(** [calculateRows] on the counters of the loops, which are natural
    numbers. *)
Definition calculateRows (halves_ fulls_ singles_ : nat) : Z :=
  (2 ^ Z.of_nat halves_ * 3 ^ Z.of_nat fulls_ * 1 ^ Z.of_nat singles_)%Z.

(** The parameter [rows] is not read. *)
Definition getDescription (halves_ fulls_ singles_ : nat) (rows : Z) : string :=
  let parts : list string := [] in
  let parts :=
    if (0 <? halves_)%nat
    then parts ++ [ (number_to_string halves_ ++ " halvgardering"
                     ++ (if (1 <? halves_)%nat then "ar" else ""))%string ]
    else parts in
  let parts :=
    if (0 <? fulls_)%nat
    then parts ++ [ (number_to_string fulls_ ++ " helgardering"
                     ++ (if (1 <? fulls_)%nat then "ar" else ""))%string ]
    else parts in
  let parts :=
    if (0 <? singles_)%nat
    then parts ++ [ (number_to_string singles_ ++ " enkeltecken")%string ]
    else parts in
  if (List.length parts =? 0)%nat then "Basissystem"%string
  else String.concat ", " parts.

(** The body of the innermost loop of [generateAllValidSystems]: the system
    pushed for the three counters, if any. *)
Definition candidate (maxRows : Q) (halves_ fulls_ singles_ : nat) : list SystemConfiguration :=
  let totalMatches := (halves_ + fulls_ + singles_)%nat in
  if (totalMatches =? 0)%nat then []
  else if (13 <? totalMatches)%nat then []
  else
    let rows := calculateRows halves_ fulls_ singles_ in
    if (rows =? 0)%Z || Qgtb (inject_Z rows) maxRows then []
    else if (halves_ =? 0)%nat && (fulls_ =? 0)%nat && (1 <? singles_)%nat then []
    else
      [ {| totalRows := rows;
           cost := inject_Z rows * COST_PER_ROW;
           costPerRow := COST_PER_ROW;
           distribution :=
             {| halves := Z.of_nat halves_; fulls := Z.of_nat fulls_;
                singles := Z.of_nat singles_ |};
           description := getDescription halves_ fulls_ singles_ rows |} ].

Definition generateAllValidSystems (maxRows : Q) : list SystemConfiguration :=
  let systems :=
    flat_map (fun halves_ =>
      flat_map (fun fulls_ =>
        flat_map (fun singles_ => candidate maxRows halves_ fulls_ singles_)
                 (seq 0 14))
               (seq 0 7))
             (seq 0 11) in
  let uniqueSystems :=
    filter_indexed
      (fun system index =>
         match findIndex (fun s => (totalRows s =? totalRows system)%Z) systems with
         | Some i => (i =? index)%nat
         | None => false
         end)
      systems in
  sort_asc_by (fun s => inject_Z (totalRows s)) uniqueSystems.

(** [allSystems[0].totalRows] throws when there is no system. *)
Definition findClosestSystem (targetRows : Q) : Res SystemConfiguration :=
  let allSystems := generateAllValidSystems default_maxRows in
  match find (fun s => Qeq_bool (inject_Z (totalRows s)) targetRows) allSystems with
  | Some exactMatch => Ok exactMatch
  | None =>
      match allSystems with
      | [] => Throw TypeError
      | first :: _ =>
          let closest := first in
          let minDiff := Qabs (inject_Z (totalRows first) - targetRows) in
          Ok (fst (fold_left
                     (fun (st : SystemConfiguration * Q) system =>
                        let diff := Qabs (inject_Z (totalRows system) - targetRows) in
                        if Qltb diff (snd st) then (system, diff) else st)
                     allSystems (closest, minDiff)))
      end
  end.

Definition getAvailableSystemSizes (maxRows : Q) : list Z :=
  map totalRows (generateAllValidSystems maxRows).

End StryktipsetSystemCalculator.

(** The systems of an array that come first among those with their number
    of rows, [seen] being the systems in front of the array. *)
Fixpoint first_of_each_size (seen l : list SystemConfiguration) : list SystemConfiguration :=
  match l with
  | [] => []
  | x :: l' =>
      if forallb (fun s => negb (totalRows s =? totalRows x)%Z) seen
      then x :: first_of_each_size (seen ++ [x]) l'
      else first_of_each_size (seen ++ [x]) l'
  end.

(** The largest number of rows within the bounds of the loops of
    [generateAllValidSystems]: [2^10 * 3^6]. *)
Definition largest_system : Q := 746496.

(** The 96-row system as [generateAllValidSystems] describes it. *)
Definition offered_96 : SystemConfiguration :=
  {| totalRows := 96; cost := 96 * 1; costPerRow := 1;
     distribution := {| halves := 5; fulls := 1; singles := 0 |};
     description := "5 halvgarderingar, 1 helgardering" |}.

(** ** Single rows (the row generator) *)

Module RowGenerator.

Record PersonalBias : Type := { bias_matchId : string; bias_outcome : Outcome }.

(** [RowFilters]: every field is optional. *)
Record RowFilters : Type := {
  minDraws : option Q;
  maxDraws : option Q;
  maxAwayWins : option Q;
  minAwayWins : option Q;
  maxFavorites : option Q;
  personalBiases : option (list PersonalBias);
  maxOddsBelow : option Q
}.

Record GeneratorConfig : Type := {
  riskProfile : RiskProfile;
  filters : RowFilters;
  numRows : Q;
  strategy : string
}.

(** The id of a row: the [rowId] passed in, or the id made by
    [generateRowId], of which only the random number it renders is kept, not
    the time stamp. *)
Inductive RowId : Type :=
| given_id (rowId : string)
| generated_id (r : Q).

(** [GeneratedRow] without [createdAt]. *)
Record GeneratedRow : Type := {
  id : RowId;
  outcomes : list Outcome;
  expectedCorrect : Q;
  expectedPayout : Q;
  row_riskProfile : RiskProfile;
  row_filters : RowFilters
}.

(** [JSON.stringify(a) === JSON.stringify(b)] on two arrays of outcomes. *)
Fixpoint same_outcomes (a b : list Outcome) : bool :=
  match a, b with
  | [], [] => true
  | x :: a', y :: b' => Outcome_eqb x y && same_outcomes a' b'
  | _, _ => false
  end.

(** [outcomes.filter(o => o === outcome).length] *)
Definition count_outcome (outcome : Outcome) (outcomes : list Outcome) : nat :=
  List.length (filter (fun o => Outcome_eqb o outcome) outcomes).

(** The loop that counts the favourites, entered at index [i] with the
    outcomes from [i] on; [matches[i].odds] throws past the end of
    [matches]. *)
Fixpoint count_favorites_from (outcomes : list Outcome) (matches : list MatchWithOdds)
    (i : nat) (maxOddsBelow : Q) (favoritesCount : nat) : Res nat :=
  match outcomes with
  | [] => Ok favoritesCount
  | outcome :: rest =>
      match nth_error matches i with
      | None => Throw TypeError
      | Some match_ =>
          let odds_ :=
            match outcome with
            | O1 => home (odds match_)
            | OX => draw (odds match_)
            | O2 => away (odds match_)
            end in
          count_favorites_from rest matches (S i) maxOddsBelow
            (if Qltb odds_ maxOddsBelow then S favoritesCount else favoritesCount)
      end
  end.

Definition validateRowAgainstFilters (outcomes : list Outcome)
    (matches : list MatchWithOdds) (filters : RowFilters) : Res bool :=
  let draws := count_outcome OX outcomes in
  let awayWins := count_outcome O2 outcomes in
  let homeWins := count_outcome O1 outcomes in
  if match minDraws filters with
     | Some m => Qltb (Q_of_nat draws) m
     | None => false
     end then Ok false
  else if match maxDraws filters with
          | Some m => Qgtb (Q_of_nat draws) m
          | None => false
          end then Ok false
  else if match minAwayWins filters with
          | Some m => Qltb (Q_of_nat awayWins) m
          | None => false
          end then Ok false
  else if match maxAwayWins filters with
          | Some m => Qgtb (Q_of_nat awayWins) m
          | None => false
          end then Ok false
  else
    match maxOddsBelow filters, maxFavorites filters with
    | Some maxOddsBelow_, Some maxFavorites_ =>
        favoritesCount <~ count_favorites_from outcomes matches 0 maxOddsBelow_ 0 ;;
        if Qgtb (Q_of_nat favoritesCount) maxFavorites_ then Ok false else Ok true
    | _, _ => Ok true
    end.

(** The loop of [calculateExpectedCorrect], entered at index [i];
    [matches[i].probabilities] throws past the end of [matches]. *)
Fixpoint expected_from (outcomes : list Outcome) (matches : list MatchWithOdds)
    (i : nat) (expected : Q) : Res Q :=
  match outcomes with
  | [] => Ok expected
  | outcome :: rest =>
      match nth_error matches i with
      | None => Throw TypeError
      | Some match_ =>
          expected_from rest matches (S i)
            (match outcome with
             | O1 => expected + home (probabilities match_)
             | OX => expected + draw (probabilities match_)
             | O2 => expected + away (probabilities match_)
             end)
      end
  end.

Definition calculateExpectedCorrect (outcomes : list Outcome)
    (matches : list MatchWithOdds) : Res Q :=
  expected_from outcomes matches 0 0.

Definition calculateExpectedPayout (expectedCorrect : Q) : Q :=
  if Qgeb expectedCorrect 13 then 50000
  else if Qgeb expectedCorrect 12 then 5000
  else if Qgeb expectedCorrect 11 then 500
  else if Qgeb expectedCorrect 10 then 50
  else 0.

(** [rows[j].outcomes[index]] compared with each outcome of [rows[i]], from
    index [index] on: the number of positions at which the second row has
    another outcome, or none. *)
Fixpoint differences_from (outcomes other : list Outcome) (index : nat) (diff : nat)
    : nat :=
  match outcomes with
  | [] => diff
  | outcome :: rest =>
      differences_from rest other (S index)
        (diff + match nth_error other index with
                | Some o => if Outcome_eqb outcome o then 0 else 1
                | None => 1
                end)
  end.

(** The two nested loops of [calculateDiversityScore] over the pairs
    [i < j], the rows from [i] on being left. *)
Fixpoint compare_pairs (rows : list GeneratedRow) (totalDifferences comparisons : nat)
    : nat * nat :=
  match rows with
  | [] => (totalDifferences, comparisons)
  | row_i :: rest =>
      let '(totalDifferences, comparisons) :=
        fold_left
          (fun (st : nat * nat) row_j =>
             (fst st + differences_from (outcomes row_i) (outcomes row_j) 0 0,
              S (snd st)))%nat
          rest (totalDifferences, comparisons) in
      compare_pairs rest totalDifferences comparisons
  end.

Definition calculateDiversityScore (rows : list GeneratedRow) : Q :=
  if (List.length rows <? 2)%nat then 1
  else
    let '(totalDifferences, comparisons) := compare_pairs rows 0 0 in
    Q_of_nat totalDifferences / (Q_of_nat comparisons * 13).

Section Generation.

Variable rand : nat -> Q.

(** [generateRowId]: one random number goes into the id. *)
Definition generateRowId : M RowId :=
  r <- random rand ;;
  ret (generated_id r).

(** [matches.map(...)]: each match with its [forcedOutcome], if a personal
    bias names the match. *)
Definition biasedMatches (matches : list MatchWithOdds) (config : GeneratorConfig)
    : list (MatchWithOdds * option Outcome) :=
  map (fun match_ =>
         match match personalBiases (filters config) with
               | Some biases =>
                   find (fun b => String.eqb (bias_matchId b) (matchId match_)) biases
               | None => None
               end with
         | Some bias => (match_, Some (bias_outcome bias))
         | None => (match_, None)
         end)
      matches.

(** The loop of [generateRow] over the biased matches. *)
Fixpoint pick_outcomes (biased : list (MatchWithOdds * option Outcome))
    (config : GeneratorConfig) (outcomes : list Outcome) : M (list Outcome) :=
  match biased with
  | [] => ret outcomes
  | (match_, forcedOutcome) :: rest =>
      outcome <-
        match forcedOutcome with
        | Some forced => ret forced
        | None =>
            let adjustedProbs :=
              adjustMatchProbabilities (probabilities match_) (riskProfile config) in
            if String.eqb (strategy config) "weighted-random"
            then selectWeightedRandomOutcome rand adjustedProbs
            else if String.eqb (strategy config) "ev-based"
            then selectEVBasedOutcome rand (odds match_) adjustedProbs 0.15
            else if String.eqb (strategy config) "multi-row-coverage"
            then selectWeightedRandomOutcome rand adjustedProbs
            else selectWeightedRandomOutcome rand adjustedProbs
        end ;;
      pick_outcomes rest config (outcomes ++ [outcome])
  end.

(** [null] is [None]; an empty [rowId] counts as none. *)
Definition generateRow (matches : list MatchWithOdds) (config : GeneratorConfig)
    (rowId : option string) : M (option GeneratedRow) :=
  picked <- pick_outcomes (biasedMatches matches config) config [] ;;
  valid <- lift (validateRowAgainstFilters picked matches (filters config)) ;;
  if negb valid then ret None
  else
    expectedCorrect_ <- lift (calculateExpectedCorrect picked matches) ;;
    let expectedPayout_ := calculateExpectedPayout expectedCorrect_ in
    id_ <-
      match rowId with
      | Some s => if (String.length s =? 0)%nat then generateRowId else ret (given_id s)
      | None => generateRowId
      end ;;
    ret (Some {| id := id_;
                 outcomes := picked;
                 expectedCorrect := expectedCorrect_;
                 expectedPayout := expectedPayout_;
                 row_riskProfile := riskProfile config;
                 row_filters := filters config |}).

(** The [while] loop of [generateMultipleRows]. Each turn adds 1 to
    [attempts], so the loop makes at most [maxAttempts] turns, rounded up:
    [fuel] bounds the turns left. *)
Fixpoint generate_loop (fuel : nat) (matches : list MatchWithOdds)
    (config : GeneratorConfig) (rows : list GeneratedRow) (attempts : nat)
    : M (list GeneratedRow) :=
  match fuel with
  | O => ret rows
  | S fuel' =>
      let maxAttempts := numRows config * 10 in
      if Qltb (Q_of_nat (List.length rows)) (numRows config)
         && Qltb (Q_of_nat attempts) maxAttempts
      then
        let attempts := S attempts in
        row <- generateRow matches config None ;;
        match row with
        | Some row =>
            let isDuplicate :=
              existsb (fun existingRow =>
                         same_outcomes (outcomes existingRow) (outcomes row)) rows in
            if negb isDuplicate
            then generate_loop fuel' matches config (rows ++ [row]) attempts
            else generate_loop fuel' matches config rows attempts
        | None => generate_loop fuel' matches config rows attempts
        end
      else ret rows
  end.

Definition generateMultipleRows (matches : list MatchWithOdds) (config : GeneratorConfig)
    : M (list GeneratedRow) :=
  generate_loop (Z.to_nat (Qceiling (numRows config * 10))) matches config [] 0.

End Generation.

End RowGenerator.

(** A configuration for three rows with a forced home win in match [m2] and
    at most five draws. *)
Definition example_generator_config : RowGenerator.GeneratorConfig :=
  {| RowGenerator.riskProfile := "balanced"%string;
     RowGenerator.filters :=
       {| RowGenerator.minDraws := None;
          RowGenerator.maxDraws := Some 5;
          RowGenerator.maxAwayWins := None;
          RowGenerator.minAwayWins := None;
          RowGenerator.maxFavorites := Some 2;
          RowGenerator.personalBiases :=
            Some [ {| RowGenerator.bias_matchId := "m2";
                      RowGenerator.bias_outcome := O1 |} ];
          RowGenerator.maxOddsBelow := Some 1.4 |};
     RowGenerator.numRows := 3;
     RowGenerator.strategy := "ev-based" |}.

(** What a generated row owes to its slate and configuration: one outcome
    per match, the filters passed, the outcome of the first personal bias
    that names a match, the expected correct count and payout step of its
    outcomes, and the profile and filters of the configuration. *)
Definition row_meets_configuration (matches : list MatchWithOdds)
    (config : RowGenerator.GeneratorConfig) (row : RowGenerator.GeneratedRow) : Prop :=
  List.length (RowGenerator.outcomes row) = List.length matches /\
  RowGenerator.validateRowAgainstFilters (RowGenerator.outcomes row) matches
    (RowGenerator.filters config) = Ok true /\
  RowGenerator.calculateExpectedCorrect (RowGenerator.outcomes row) matches
    = Ok (RowGenerator.expectedCorrect row) /\
  RowGenerator.expectedPayout row
    = RowGenerator.calculateExpectedPayout (RowGenerator.expectedCorrect row) /\
  (forall i m biases b,
     nth_error matches i = Some m ->
     RowGenerator.personalBiases (RowGenerator.filters config) = Some biases ->
     find (fun b => String.eqb (RowGenerator.bias_matchId b) (matchId m)) biases
       = Some b ->
     nth_error (RowGenerator.outcomes row) i = Some (RowGenerator.bias_outcome b)) /\
  RowGenerator.row_riskProfile row = RowGenerator.riskProfile config /\
  RowGenerator.row_filters row = RowGenerator.filters config.

(** Two rows of three outcomes that differ in one position. *)
Definition example_generated_rows : list RowGenerator.GeneratedRow :=
  [ {| RowGenerator.id := RowGenerator.given_id "a";
       RowGenerator.outcomes := [O1; OX; O2];
       RowGenerator.expectedCorrect := 1.2;
       RowGenerator.expectedPayout := 0;
       RowGenerator.row_riskProfile := "safe"%string;
       RowGenerator.row_filters := RowGenerator.filters example_generator_config |};
    {| RowGenerator.id := RowGenerator.given_id "b";
       RowGenerator.outcomes := [O1; O1; O2];
       RowGenerator.expectedCorrect := 1.4;
       RowGenerator.expectedPayout := 0;
       RowGenerator.row_riskProfile := "safe"%string;
       RowGenerator.row_filters := RowGenerator.filters example_generator_config |} ].

(** * Properties *)

(** ** Small facts about comparisons *)

Lemma Qltb_true (a b : Q) : Qltb a b = true <-> a < b.
Proof.
  unfold Qltb. rewrite negb_true_iff.
  split; intro H.
  - apply Qnot_le_lt. intro Hle. apply Qle_bool_iff in Hle. congruence.
  - destruct (Qle_bool b a) eqn:E; [|reflexivity].
    apply Qle_bool_iff in E. exfalso. apply (Qlt_not_le _ _ H E).
Qed.

Lemma Qltb_false (a b : Q) : Qltb a b = false <-> b <= a.
Proof.
  unfold Qltb. rewrite negb_false_iff. apply Qle_bool_iff.
Qed.

Lemma Qgtb_true (a b : Q) : Qgtb a b = true <-> b < a.
Proof. apply Qltb_true. Qed.

Lemma Qgtb_false (a b : Q) : Qgtb a b = false <-> a <= b.
Proof. apply Qltb_false. Qed.

Lemma Qgeb_true (a b : Q) : Qgeb a b = true <-> b <= a.
Proof. apply Qle_bool_iff. Qed.

Lemma Qgeb_false (a b : Q) : Qgeb a b = false <-> a < b.
Proof.
  unfold Qgeb. split; intro H.
  - apply Qnot_le_lt. intro Hle. apply Qle_bool_iff in Hle. congruence.
  - destruct (Qle_bool b a) eqn:E; [|reflexivity].
    apply Qle_bool_iff in E. exfalso. apply (Qlt_not_le _ _ H E).
Qed.

(** ** Odds normalisation *)

Lemma implied_total_pos (a b c : Q) :
  1 < a -> 1 < b -> 1 < c -> 0 < 1 / a + 1 / b + 1 / c.
Proof.
  intros Ha Hb Hc.
  assert (0 < 1 / a) by (apply Qlt_shift_div_l; lra).
  assert (0 < 1 / b) by (apply Qlt_shift_div_l; lra).
  assert (0 < 1 / c) by (apply Qlt_shift_div_l; lra).
  lra.
Qed.

(** C2: for odds all above 1, [oddsToNormalizedProbabilities] returns the
    implied probabilities [1/odds] divided by their sum, the three results
    sum to 1 (so the sum is within [1e-9] of 1), and the odds
    [{home: 2, draw: 3, away: 4}] map to [{0.4615, 0.3077, 0.2308}] up to
    rounding in the fourth decimal. *)
Theorem oddsToNormalizedProbabilities_normalizes (o : Triple) :
  1 < home o -> 1 < draw o -> 1 < away o ->
  let total := 1 / home o + 1 / draw o + 1 / away o in
  let p := oddsToNormalizedProbabilities o in
  (home p == (1 / home o) / total /\
   draw p == (1 / draw o) / total /\
   away p == (1 / away o) / total) /\
  home p + draw p + away p == 1 /\
  Qabs (home p + draw p + away p - 1) <= 1e-9 /\
  let e := oddsToNormalizedProbabilities {| home := 2; draw := 3; away := 4 |} in
  Qabs (home e - 0.4615) <= 0.00005 /\
  Qabs (draw e - 0.3077) <= 0.00005 /\
  Qabs (away e - 0.2308) <= 0.00005.
Proof.
  intros Hh Hd Ha total p.
  assert (Htot : 0 < total) by (apply implied_total_pos; assumption).
  assert (Hsum : home p + draw p + away p == 1).
  { unfold p, oddsToNormalizedProbabilities; cbn [home draw away].
    set (a := 1 / home o) in *. set (b := 1 / draw o) in *. set (c := 1 / away o) in *.
    assert (H : a / (a + b + c) + b / (a + b + c) + c / (a + b + c)
                == (a + b + c) / (a + b + c)) by (unfold Qdiv; ring).
    rewrite H. apply Qmult_inv_r. unfold total in Htot. lra. }
  split; [|split; [exact Hsum|split]].
  - unfold p, oddsToNormalizedProbabilities; cbn [home draw away].
    repeat split; reflexivity.
  - rewrite Hsum. vm_compute. discriminate.
  - vm_compute. repeat split; discriminate.
Qed.

Lemma oddsToNormalizedProbabilities_normalizes_witness :
  let o := {| home := 1.85; draw := 3.4; away := 4.5 |} in
  home (oddsToNormalizedProbabilities o) + draw (oddsToNormalizedProbabilities o)
    + away (oddsToNormalizedProbabilities o) == 1.
Proof.
  intro o.
  apply (oddsToNormalizedProbabilities_normalizes o); vm_compute; reflexivity.
Defined.

(** ** Kelly stake *)

(** C3: for a probability in [[0,1]], odds above 1 and a non-negative
    bankroll, [calculateOptimalStake] returns 0 when the edge
    [p * odds - 1] is not positive, returns
    [min (edge / (odds - 1) * bankroll) (0.25 * bankroll)] when it is, and in
    both cases returns at most a quarter of the bankroll. *)
Theorem calculateOptimalStake_capped (p o bankroll : Q) :
  0 <= p /\ p <= 1 -> 1 < o -> 0 <= bankroll ->
  let edge := p * o - 1 in
  let stake := KellyCriterion.calculateOptimalStake p o bankroll in
  (edge <= 0 -> stake == 0) /\
  (0 < edge -> stake == Qmin (edge / (o - 1) * bankroll) (0.25 * bankroll)) /\
  0 <= stake /\
  stake <= 0.25 * bankroll.
Proof.
  intros [Hp0 Hp1] Ho Hb edge stake.
  unfold stake, KellyCriterion.calculateOptimalStake. fold edge.
  destruct (Qle_bool edge 0) eqn:E.
  - apply Qle_bool_iff in E.
    repeat split; try reflexivity; lra.
  - assert (Hpos : 0 < edge).
    { apply Qnot_le_lt. intro Hle. apply Qle_bool_iff in Hle. congruence. }
    split; [|split; [|split]].
    + intro Hle. exfalso. apply (Qlt_not_le _ _ Hpos Hle).
    + intros _. reflexivity.
    + assert (0 <= edge / (o - 1)).
      { apply Qle_shift_div_l; lra. }
      apply Q.min_glb.
      * apply Qmult_le_0_compat; assumption.
      * lra.
    + apply Q.le_min_r.
Qed.

Lemma calculateOptimalStake_capped_witness :
  KellyCriterion.calculateOptimalStake 0.6 2.5 1000 <= 0.25 * 1000.
Proof.
  apply (calculateOptimalStake_capped 0.6 2.5 1000);
    [split| |]; vm_compute; solve [discriminate | reflexivity].
Defined.

(** ** Risk profiles *)

Lemma adjustProbabilityForRisk_zero (x : Q) :
  0 <= x -> x <= 1 -> adjustProbabilityForRisk x 0 == x.
Proof.
  intros H0 H1. unfold adjustProbabilityForRisk.
  assert (E : x * (1 + 0 * (0.5 - x)) == x) by ring.
  rewrite E.
  rewrite Q.min_r by assumption.
  apply Q.max_r. assumption.
Qed.

(** C7: on a triple with components in [[0,1]] and positive sum, the
    balanced adjustment returns the triple divided by its sum; the result
    sums to 1, and a triple that already sums to 1 is returned unchanged. *)
Theorem adjustMatchProbabilities_balanced_renormalizes (p : Triple) :
  0 <= home p /\ home p <= 1 ->
  0 <= draw p /\ draw p <= 1 ->
  0 <= away p /\ away p <= 1 ->
  0 < home p + draw p + away p ->
  let total := home p + draw p + away p in
  let q := adjustMatchProbabilities p "balanced"%string in
  (home q == home p / total /\
   draw q == draw p / total /\
   away q == away p / total) /\
  home q + draw q + away q == 1 /\
  (total == 1 -> home q == home p /\ draw q == draw p /\ away q == away p).
Proof.
  intros [Hh0 Hh1] [Hd0 Hd1] [Ha0 Ha1] Hpos total q.
  assert (Eh := adjustProbabilityForRisk_zero (home p) Hh0 Hh1).
  assert (Ed := adjustProbabilityForRisk_zero (draw p) Hd0 Hd1).
  assert (Ea := adjustProbabilityForRisk_zero (away p) Ha0 Ha1).
  assert (Hq : home q == home p / total /\
               draw q == draw p / total /\
               away q == away p / total).
  { unfold q, adjustMatchProbabilities; cbn [home draw away getRiskFactor String.eqb].
    change (getRiskFactor "balanced"%string) with 0.
    rewrite Eh, Ed, Ea. repeat split; reflexivity. }
  destruct Hq as (Qh & Qd & Qa).
  split; [repeat split; assumption|].
  split.
  - rewrite Qh, Qd, Qa.
    assert (H : home p / total + draw p / total + away p / total == total / total)
      by (unfold total, Qdiv; ring).
    rewrite H. apply Qmult_inv_r. unfold total. lra.
  - intro E1. rewrite Qh, Qd, Qa, E1.
    repeat split; unfold Qdiv; change (/ 1) with 1; ring.
Qed.

Lemma adjustMatchProbabilities_balanced_renormalizes_witness :
  let p := {| home := 0.5; draw := 0.3; away := 0.2 |} in
  home (adjustMatchProbabilities p "balanced"%string) == home p.
Proof.
  intro p.
  apply (adjustMatchProbabilities_balanced_renormalizes p);
    try split; vm_compute; solve [discriminate | reflexivity].
Defined.

(** C10: a profile other than ['safe'] and ['risky'] has risk factor 0, the
    factor of ['balanced']; no error is raised, and the probabilities are
    adjusted exactly as for ['balanced']. *)
Theorem getRiskFactor_unrecognized_is_balanced (profile : RiskProfile) :
  profile <> "safe"%string -> profile <> "risky"%string ->
  getRiskFactor profile = 0 /\
  getRiskFactor profile = getRiskFactor "balanced"%string /\
  forall p, adjustMatchProbabilities p profile = adjustMatchProbabilities p "balanced"%string.
Proof.
  intros Hsafe Hrisky.
  assert (E : getRiskFactor profile = 0).
  { unfold getRiskFactor.
    destruct (String.eqb_spec profile "safe"%string); [contradiction|].
    destruct (String.eqb_spec profile "balanced"%string); [reflexivity|].
    destruct (String.eqb_spec profile "risky"%string); [contradiction|reflexivity]. }
  split; [exact E|]. split; [exact E|].
  intro p. unfold adjustMatchProbabilities. rewrite E. reflexivity.
Qed.

Lemma getRiskFactor_unrecognized_is_balanced_witness :
  getRiskFactor "aggressive"%string = 0.
Proof.
  apply (getRiskFactor_unrecognized_is_balanced "aggressive"%string); discriminate.
Defined.

(** ** Monte Carlo simulation *)

Section Simulation.

Variable rand : nat -> Q.

Lemma selectWeightedRandomOutcome_ok (p : Triple) (n : nat) :
  exists o, selectWeightedRandomOutcome rand p n = Ok (o, S n).
Proof.
  unfold selectWeightedRandomOutcome, bind, random, ret.
  destruct (Qltb (rand n) (home p)); [eauto|].
  destruct (Qltb (rand n) (home p + draw p)); eauto.
Qed.

Lemma simulateMatchday_from_ok (predictions : list Outcome)
    (matches : list MatchWithOdds) :
  forall i c n, exists c' n',
    simulateMatchday_from rand predictions matches i c n = Ok (c', n').
Proof.
  induction matches as [|m rest IH]; intros i c n; cbn [simulateMatchday_from].
  - unfold ret. eauto.
  - unfold bind at 1.
    destruct (selectWeightedRandomOutcome_ok (probabilities m) n) as [o ->].
    apply IH.
Qed.

Lemma trial_counts_length (predictions : list Outcome) (matches : list MatchWithOdds) :
  forall trials n,
    List.length (trial_counts rand predictions matches trials n) = trials.
Proof.
  induction trials as [|k IH]; intro n; cbn [trial_counts]; [reflexivity|].
  unfold simulateMatchday.
  destruct (simulateMatchday_from_ok predictions matches 0 0 n) as (c & n' & ->).
  cbn [List.length]. rewrite IH. reflexivity.
Qed.

(** The loop leaves the tallies that recording the trials one by one gives. *)
Lemma simulateRow_loop_tallies (row : GeneratedRow) (matches : list MatchWithOdds) :
  forall trials t n, exists n',
    simulateRow_loop rand row matches trials t n =
    Ok (fold_left (fun t c => record_trial c t)
          (trial_counts rand (outcomes row) matches trials n) t, n').
Proof.
  induction trials as [|k IH]; intros t n;
    cbn [simulateRow_loop trial_counts].
  - unfold ret. eauto.
  - unfold bind at 1. unfold simulateMatchday.
    destruct (simulateMatchday_from_ok (outcomes row) matches 0 0 n) as (c & n' & ->).
    cbn [fold_left]. apply IH.
Qed.

Lemma incr_if_eqb (c k m : nat) :
  incr_if (c =? k)%nat m = ((if Nat.eq_dec c k then 1 else 0) + m)%nat.
Proof.
  unfold incr_if. destruct (Nat.eqb_spec c k), (Nat.eq_dec c k); try reflexivity; contradiction.
Qed.

Lemma recorded_exact_counts (counts : list nat) :
  forall t,
    let r := results (fold_left (fun t c => record_trial c t) counts t) in
    exactly10 r = (exactly10 (results t) + count_occ Nat.eq_dec counts 10)%nat /\
    exactly11 r = (exactly11 (results t) + count_occ Nat.eq_dec counts 11)%nat /\
    exactly12 r = (exactly12 (results t) + count_occ Nat.eq_dec counts 12)%nat /\
    exactly13 r = (exactly13 (results t) + count_occ Nat.eq_dec counts 13)%nat.
Proof.
  induction counts as [|c counts IH]; intro t; cbn [fold_left count_occ].
  - cbv zeta. repeat split; lia.
  - specialize (IH (record_trial c t)). cbv zeta in IH |- *.
    destruct IH as (E10 & E11 & E12 & E13).
    rewrite E10, E11, E12, E13.
    unfold record_trial; cbn [results exactly10 exactly11 exactly12 exactly13].
    rewrite !incr_if_eqb.
    repeat split;
      match goal with
      | |- context [Nat.eq_dec c ?k] => destruct (Nat.eq_dec c k)
      end; lia.
Qed.

End Simulation.

(** C8: a simulation of at least one trial returns a result whose
    [expectedPayout] is the sum over [k] in [{10, 11, 12, 13}] of the share
    of trials with exactly [k] correct predictions times [payout k]; the
    payouts are positive and strictly increasing from 10 to 13. *)
Theorem simulateRow_expectedPayout_is_weighted_sum
    (rand : nat -> Q) (row : GeneratedRow) (matches : list MatchWithOdds)
    (iterations n : nat) :
  (0 < iterations)%nat ->
  exists result n',
    simulateRow rand row matches iterations n = Ok (result, n') /\
    let counts := trial_counts rand (outcomes row) matches iterations n in
    List.length counts = iterations /\
    (exactly10 (correctResults result) == frequency 10 counts /\
     exactly11 (correctResults result) == frequency 11 counts /\
     exactly12 (correctResults result) == frequency 12 counts /\
     exactly13 (correctResults result) == frequency 13 counts) /\
    sim_expectedPayout result ==
      Qsum (map (fun k => frequency k counts * payout k) [10; 11; 12; 13]%nat) /\
    0 < payout 10 /\ payout 10 < payout 11 /\ payout 11 < payout 12 /\
    payout 12 < payout 13.
Proof.
  intro Hpos.
  destruct (simulateRow_loop_tallies rand row matches iterations initial_tally n)
    as (n' & Hloop).
  unfold simulateRow, bind. rewrite Hloop. unfold ret.
  eexists. exists n'. split; [reflexivity|].
  cbv zeta.
  pose proof (trial_counts_length rand (outcomes row) matches iterations n) as Hlen.
  split; [exact Hlen|].
  destruct (recorded_exact_counts
              (trial_counts rand (outcomes row) matches iterations n) initial_tally)
    as (E10 & E11 & E12 & E13).
  cbv zeta in E10, E11, E12, E13.
  split; [|split].
  - cbn [correctResults exactly10 exactly11 exactly12 exactly13].
    rewrite E10, E11, E12, E13.
    cbn [initial_tally results exactly10 exactly11 exactly12 exactly13 Nat.add].
    unfold frequency. rewrite Hlen. repeat split; reflexivity.
  - cbn [sim_expectedPayout]. unfold calculateExpectedPayout.
    cbn [exactly10 exactly11 exactly12 exactly13].
    rewrite E10, E11, E12, E13.
    cbn [initial_tally results exactly10 exactly11 exactly12 exactly13 Nat.add].
    unfold Qsum, frequency. cbn [map fold_left payout]. rewrite Hlen.
    ring.
  - vm_compute. repeat split; reflexivity.
Qed.

Lemma simulateRow_expectedPayout_is_weighted_sum_witness :
  exists result n',
    simulateRow example_rand example_row
      [example_match 0.5 0.3 0.2; example_match 0.2 0.3 0.5] 3%nat 0%nat
    = Ok (result, n').
Proof.
  destruct (simulateRow_expectedPayout_is_weighted_sum example_rand example_row
              [example_match 0.5 0.3 0.2; example_match 0.2 0.3 0.5] 3%nat 0%nat)
    as (result & n' & H & _).
  - lia.
  - exists result, n'. exact H.
Defined.

(** ** Expansion of a coverage plan *)

Lemma expandSystemOutcome_NoDup (s : SystemOutcome) : NoDup (expandSystemOutcome s).
Proof.
  destruct s; cbn; repeat constructor; cbn; intuition discriminate.
Qed.

Lemma expandSystemOutcome_covers (s : SystemOutcome) (o : Outcome) :
  In o (expandSystemOutcome s) <-> covers s o = true.
Proof.
  destruct s, o; cbn; split; intro H;
    solve [reflexivity | discriminate | intuition discriminate | intuition auto].
Qed.

(** The number of rows a plan expands to: the product of the sizes of the
    outcome sets of its matches. *)
Lemma extend_combinations_length (combinations : list (list Outcome)) (m : SystemMatch) :
  List.length (extend_combinations combinations m) =
  (List.length combinations * List.length (expandSystemOutcome (systemOutcome m)))%nat.
Proof.
  unfold extend_combinations.
  induction combinations as [|c cs IH]; cbn [flat_map List.length]; [reflexivity|].
  rewrite length_app, length_map, IH. lia.
Qed.

Lemma extend_combinations_In (combinations : list (list Outcome)) (m : SystemMatch)
    (row : list Outcome) :
  In row (extend_combinations combinations m) <->
  exists c o, In c combinations /\ In o (expandSystemOutcome (systemOutcome m)) /\
              row = c ++ [o].
Proof.
  unfold extend_combinations. rewrite in_flat_map. split.
  - intros (c & Hc & Hrow). apply in_map_iff in Hrow as (o & <- & Ho). eauto.
  - intros (c & o & Hc & Ho & ->). exists c. split; [assumption|].
    apply in_map_iff. eauto.
Qed.

Lemma extend_combinations_NoDup (combinations : list (list Outcome)) (m : SystemMatch) :
  NoDup combinations -> NoDup (extend_combinations combinations m).
Proof.
  intro Hnd. induction Hnd as [|c cs Hnotin Hnd IH].
  - constructor.
  - change (extend_combinations (c :: cs) m)
      with (map (fun o => c ++ [o]) (expandSystemOutcome (systemOutcome m))
            ++ extend_combinations cs m).
    apply NoDup_app.
    + apply Injective_map_NoDup.
      * intros o o' E. apply app_inj_tail in E. apply E.
      * apply expandSystemOutcome_NoDup.
    + exact IH.
    + intros row Hin1 Hin2.
      apply in_map_iff in Hin1 as (o & <- & _).
      apply extend_combinations_In in Hin2 as (c' & o' & Hc' & _ & E).
      apply app_inj_tail in E as [-> _]. contradiction.
Qed.

Lemma extend_combinations_fold_length (plan : list SystemMatch) :
  forall combinations,
    List.length (fold_left extend_combinations plan combinations) =
    (List.length combinations * rows_product plan)%nat.
Proof.
  induction plan as [|m plan IH]; intro combinations; cbn [fold_left rows_product fold_right].
  - lia.
  - rewrite IH, extend_combinations_length. fold (rows_product plan). ring.
Qed.

Lemma generateOutcomeCombinations_length (plan : list SystemMatch) :
  List.length (generateOutcomeCombinations plan) = rows_product plan.
Proof.
  unfold generateOutcomeCombinations.
  rewrite extend_combinations_fold_length. cbn [List.length]. lia.
Qed.

Lemma rows_product_Permutation (plan plan' : list SystemMatch) :
  Permutation plan plan' -> rows_product plan = rows_product plan'.
Proof.
  induction 1; cbn [rows_product fold_right] in *; try lia.
  fold (rows_product l) in *. fold (rows_product l') in *. lia.
Qed.

Lemma extend_combinations_fold_NoDup (plan : list SystemMatch) :
  forall combinations,
    NoDup combinations -> NoDup (fold_left extend_combinations plan combinations).
Proof.
  induction plan as [|m plan IH]; intros combinations Hnd; cbn [fold_left].
  - assumption.
  - apply IH, extend_combinations_NoDup, Hnd.
Qed.

(** Every row of an expansion follows the plan position by position. *)
Lemma extend_combinations_fold_covers (rest : list SystemMatch) :
  forall done combinations,
    (forall row, In row combinations ->
       Forall2 (fun m o => covers (systemOutcome m) o = true) done row) ->
    forall row, In row (fold_left extend_combinations rest combinations) ->
      Forall2 (fun m o => covers (systemOutcome m) o = true) (done ++ rest) row.
Proof.
  induction rest as [|m rest IH]; intros done combinations Hinv row Hin; cbn [fold_left] in Hin.
  - rewrite app_nil_r. auto.
  - replace (done ++ m :: rest) with ((done ++ [m]) ++ rest)
      by (rewrite <- app_assoc; reflexivity).
    apply (IH (done ++ [m]) (extend_combinations combinations m)); [|assumption].
    intros row' Hrow'.
    apply extend_combinations_In in Hrow' as (c & o & Hc & Ho & ->).
    apply Forall2_app; [auto|].
    constructor; [|constructor].
    apply expandSystemOutcome_covers, Ho.
Qed.

Lemma generateOutcomeCombinations_covers (plan : list SystemMatch) (row : list Outcome) :
  In row (generateOutcomeCombinations plan) ->
  Forall2 (fun m o => covers (systemOutcome m) o = true) plan row.
Proof.
  intro Hin.
  apply (extend_combinations_fold_covers plan [] [[]]); [|exact Hin].
  intros row' [<-|[]]. constructor.
Qed.

(** C5: the rows that one expansion of a coverage plan produces are
    pairwise distinct. *)
Theorem generateOutcomeCombinations_rows_distinct (plan : list SystemMatch) :
  NoDup (generateOutcomeCombinations plan).
Proof.
  unfold generateOutcomeCombinations.
  apply extend_combinations_fold_NoDup.
  repeat constructor. intros [].
Qed.

(** ** Arrays: writes by index *)

Section Arrays.

Context {V : Type}.

Lemma array_set_map_seq (g : nat -> option V) (v : V) :
  forall len s idx,
    (idx < len)%nat ->
    array_set (map g (seq s len)) idx v =
    map (write_fun g ((s + idx)%nat, v)) (seq s len).
Proof.
  induction len as [|len IH]; intros s idx Hlt; [lia|].
  cbn [seq map]. destruct idx as [|idx]; cbn [array_set].
  - unfold write_fun at 1. cbn [fst snd].
    replace (s =? s + 0)%nat with true by (symmetry; apply Nat.eqb_eq; lia).
    f_equal. apply map_ext_in. intros i Hi. apply in_seq in Hi.
    unfold write_fun. cbn [fst snd].
    replace (i =? s + 0)%nat with false by (symmetry; apply Nat.eqb_neq; lia).
    reflexivity.
  - unfold write_fun at 1. cbn [fst snd].
    replace (s =? s + S idx)%nat with false by (symmetry; apply Nat.eqb_neq; lia).
    f_equal. rewrite IH by lia.
    replace (S s + idx)%nat with (s + S idx)%nat by lia. reflexivity.
Qed.

Lemma writes_map_seq (len : nat) (ws : list (nat * V)) :
  forall g,
    Forall (fun w => (fst w < len)%nat) ws ->
    fold_left write ws (map g (seq 0 len)) =
    map (fold_left write_fun ws g) (seq 0 len).
Proof.
  induction ws as [|[i v] ws IH]; intros g Hall; cbn [fold_left]; [reflexivity|].
  inversion Hall as [|w ws' Hi Hall']; subst. cbn [fst] in Hi.
  unfold write at 2. cbn [fst snd].
  rewrite array_set_map_seq by assumption. cbn [Nat.add].
  apply IH. assumption.
Qed.

Lemma writes_fun_other (ws : list (nat * V)) :
  forall g i, ~ In i (map fst ws) -> fold_left write_fun ws g i = g i.
Proof.
  induction ws as [|[j v] ws IH]; intros g i Hnotin; cbn [fold_left]; [reflexivity|].
  cbn [map fst In] in Hnotin.
  rewrite IH by tauto.
  unfold write_fun. cbn [fst snd].
  destruct (Nat.eqb_spec i j); [subst; tauto|reflexivity].
Qed.

Lemma writes_fun_written (ws : list (nat * V)) :
  forall g, NoDup (map fst ws) ->
    forall w, In w ws -> fold_left write_fun ws g (fst w) = Some (snd w).
Proof.
  induction ws as [|[j v] ws IH]; intros g Hnd w Hin; [contradiction|].
  cbn [map fst] in Hnd. inversion Hnd as [|? ? Hnotin Hnd']; subst.
  cbn [fold_left]. destruct Hin as [<-|Hin].
  - cbn [fst snd]. rewrite writes_fun_other by assumption.
    unfold write_fun. cbn [fst snd]. rewrite Nat.eqb_refl. reflexivity.
  - apply IH; assumption.
Qed.

Lemma repeat_None_map_seq (len : nat) :
  repeat (@None V) len = map (fun _ => None) (seq 0 len).
Proof.
  generalize 0%nat. induction len as [|len IH]; intro s; cbn [repeat seq map];
    [reflexivity|].
  f_equal. apply IH.
Qed.

Lemma dense_map_Some (plan : list V) : dense (map Some plan) = Ok plan.
Proof.
  induction plan as [|x plan IH]; cbn [map dense]; [reflexivity|].
  rewrite IH. reflexivity.
Qed.

(** Writing once at every index of a fresh array of that length leaves a
    dense array that holds the written values, each at its index. *)
Lemma writes_fill (len : nat) (ws : list (nat * V)) :
  Permutation (map fst ws) (seq 0 len) ->
  exists plan,
    fold_left write ws (repeat None len) = map Some plan /\
    Permutation (map snd ws) plan /\
    forall w, In w ws -> nth_error plan (fst w) = Some (snd w).
Proof.
  intro Hperm.
  assert (Hnd : NoDup (map fst ws)).
  { apply (Permutation_NoDup (Permutation_sym Hperm)), seq_NoDup. }
  assert (Hall : Forall (fun w => (fst w < len)%nat) ws).
  { apply Forall_forall. intros w Hw.
    assert (Hin : In (fst w) (seq 0 len)).
    { apply (Permutation_in _ Hperm), in_map, Hw. }
    apply in_seq in Hin. lia. }
  rewrite repeat_None_map_seq, writes_map_seq by assumption.
  set (content := fold_left write_fun ws (fun _ => None)).
  assert (Hws : map content (map fst ws) = map Some (map snd ws)).
  { rewrite !map_map. apply map_ext_in. intros w Hw.
    apply writes_fun_written; assumption. }
  assert (Hp : Permutation (map content (seq 0 len)) (map Some (map snd ws))).
  { rewrite <- Hws. apply Permutation_map, Permutation_sym, Hperm. }
  apply Permutation_map_inv in Hp as (plan & Hplan & Hpp).
  exists plan. split; [exact Hplan|]. split; [exact Hpp|].
  intros w Hw.
  assert (Hlt : (fst w < len)%nat) by (eapply Forall_forall in Hall; eauto).
  assert (Hc : nth_error (map content (seq 0 len)) (fst w) = Some (Some (snd w))).
  { rewrite nth_error_map, nth_error_seq.
    apply Nat.ltb_lt in Hlt. rewrite Hlt. cbn [option_map Nat.add].
    f_equal. apply writes_fun_written; assumption. }
  rewrite Hplan, nth_error_map in Hc.
  destruct (nth_error plan (fst w)); cbn in Hc; congruence.
Qed.

End Arrays.

(** ** Computations that return *)

Lemma returns_ret {A : Type} (a : A) (P : A -> Prop) : P a -> returns (ret a) P.
Proof. intros H n. exists a, n. split; [reflexivity|assumption]. Qed.

Lemma returns_bind {A B : Type} (m : M A) (k : A -> M B)
    (P : A -> Prop) (Q : B -> Prop) :
  returns m P -> (forall a, P a -> returns (k a) Q) -> returns (bind m k) Q.
Proof.
  intros Hm Hk n. destruct (Hm n) as (a & n1 & E & Ha).
  destruct (Hk a Ha n1) as (b & n2 & E' & Hb).
  exists b, n2. unfold bind. rewrite E. split; assumption.
Qed.

Lemma returns_weaken {A : Type} (m : M A) (P Q : A -> Prop) :
  returns m P -> (forall a, P a -> Q a) -> returns m Q.
Proof.
  intros Hm HPQ n. destruct (Hm n) as (a & n' & E & Ha). eauto.
Qed.

Lemma returns_lift {A : Type} (r : Res A) (a : A) (P : A -> Prop) :
  r = Ok a -> P a -> returns (lift r) P.
Proof.
  intros -> Ha n. exists a, n. split; [reflexivity|assumption].
Qed.

(** ** Exchanges and sorting keep the elements *)

Lemma update_length {A : Type} (l : list A) :
  forall i v, List.length (update l i v) = List.length l.
Proof.
  induction l as [|x l IH]; intros [|i] v; cbn [update List.length]; auto.
Qed.

Lemma update_Permutation {A : Type} (l : list A) :
  forall j b x, nth_error l j = Some b -> Permutation (b :: update l j x) (x :: l).
Proof.
  induction l as [|y l IH]; intros [|j] b x Hj; cbn [nth_error update] in *;
    try discriminate.
  - injection Hj as ->. apply perm_swap.
  - eapply Permutation_trans; [apply perm_swap|].
    eapply Permutation_trans; [apply perm_skip, IH, Hj|].
    apply perm_swap.
Qed.

Lemma nth_error_update_same {A : Type} (l : list A) :
  forall i v, nth_error l i = Some v -> update l i v = l.
Proof.
  induction l as [|x l IH]; intros [|i] v Hi; cbn [nth_error update] in *;
    try discriminate.
  - congruence.
  - f_equal. apply IH, Hi.
Qed.

Lemma swap_Permutation {A : Type} (l : list A) :
  forall i j l', swap i j l = Some l' -> Permutation l' l.
Proof.
  unfold swap. induction l as [|x l IH]; intros i j l' H.
  - destruct i; discriminate.
  - destruct i as [|i], j as [|j]; cbn [nth_error update] in H.
    + injection H as <-. reflexivity.
    + destruct (nth_error l j) as [b|] eqn:Ej; [|discriminate].
      injection H as <-. apply update_Permutation, Ej.
    + destruct (nth_error l i) as [a|] eqn:Ei; [|discriminate].
      injection H as <-. apply update_Permutation, Ei.
    + destruct (nth_error l i) as [a|] eqn:Ei; [|discriminate].
      destruct (nth_error l j) as [b|] eqn:Ej; [|discriminate].
      injection H as <-. apply perm_skip.
      apply (IH i j). rewrite Ei, Ej. reflexivity.
Qed.

Lemma swap_in_range {A : Type} (l : list A) (i j : nat) :
  (i < List.length l)%nat -> (j < List.length l)%nat -> exists l', swap i j l = Some l'.
Proof.
  intros Hi Hj. unfold swap.
  destruct (nth_error l i) eqn:Ei; [|apply nth_error_None in Ei; lia].
  destruct (nth_error l j) eqn:Ej; [|apply nth_error_None in Ej; lia].
  eauto.
Qed.

Lemma insert_desc_Permutation (x : StrategicMatch) (l : list StrategicMatch) :
  Permutation (insert_desc x l) (x :: l).
Proof.
  induction l as [|y l IH]; cbn [insert_desc]; [reflexivity|].
  destruct (Qltb (strategicValue x) (strategicValue y)); [|reflexivity].
  rewrite IH. apply perm_swap.
Qed.

Lemma sort_desc_Permutation (l : list StrategicMatch) : Permutation (sort_desc l) l.
Proof.
  unfold sort_desc. induction l as [|x l IH]; cbn [fold_right]; [reflexivity|].
  rewrite insert_desc_Permutation. apply perm_skip, IH.
Qed.

(** ** The random source under its contract *)

Section RandomSource.

Variable rand : nat -> Q.
Hypothesis contract : random_contract rand.

Lemma returns_random : returns (random rand) (fun r => 0 <= r /\ r < 1).
Proof.
  intro n. exists (rand n), (S n). split; [reflexivity|apply contract].
Qed.

Lemma returns_random_any (P : Q -> Prop) : (forall r, P r) -> returns (random rand) P.
Proof.
  intros H n. exists (rand n), (S n). split; [reflexivity|apply H].
Qed.

Lemma floor_index_in_range (r : Q) (len : nat) :
  0 <= r -> r < 1 -> (0 < len)%nat ->
  (Z.to_nat (Qfloor (r * Q_of_nat len)) < len)%nat.
Proof.
  intros H0 H1 Hlen.
  assert (Hl : 0 < Q_of_nat len).
  { unfold Q_of_nat. change 0 with (inject_Z 0). rewrite <- Zlt_Qlt. lia. }
  assert (Hlo : (0 <= Qfloor (r * Q_of_nat len))%Z).
  { change 0%Z with (Qfloor 0). apply Qfloor_resp_le.
    apply Qmult_le_0_compat; [assumption|apply Qlt_le_weak, Hl]. }
  assert (Hhi : (Qfloor (r * Q_of_nat len) < Z.of_nat len)%Z).
  { rewrite Zlt_Qlt. eapply Qle_lt_trans; [apply Qfloor_le|].
    fold (Q_of_nat len).
    assert (E : r * Q_of_nat len < 1 * Q_of_nat len)
      by (apply Qmult_lt_compat_r; assumption).
    rewrite Qmult_1_l in E. exact E. }
  lia.
Qed.

Lemma returns_random_index (len : nat) :
  (0 < len)%nat -> returns (random_index rand len) (fun i => (i < len)%nat).
Proof.
  intro Hlen. unfold random_index.
  eapply returns_bind; [apply returns_random|].
  intros r [H0 H1]. apply returns_ret.
  apply floor_index_in_range; assumption.
Qed.

Lemma returns_random_swap {A : Type} (l : list A) :
  l <> [] -> returns (random_swap rand l) (fun l' => Permutation l' l).
Proof.
  intro Hne. unfold random_swap.
  assert (Hlen : (0 < List.length l)%nat) by (destruct l; [congruence|cbn; lia]).
  eapply returns_bind; [apply returns_random_index, Hlen|]. intros i Hi.
  eapply returns_bind; [apply returns_random_index, Hlen|]. intros j Hj.
  destruct (swap_in_range l i j Hi Hj) as (l' & E). rewrite E.
  apply returns_ret. eapply swap_Permutation, E.
Qed.

Lemma returns_random_swaps {A : Type} (count : nat) :
  forall l : list A,
    l <> [] \/ count = 0%nat ->
    returns (random_swaps rand count l) (fun l' => Permutation l' l).
Proof.
  induction count as [|count IH]; intros l Hl; cbn [random_swaps].
  - apply returns_ret. reflexivity.
  - destruct Hl as [Hne|]; [|discriminate].
    eapply returns_bind; [apply returns_random_swap, Hne|].
    intros l' Hperm.
    eapply returns_weaken.
    + apply IH. left. intros ->. apply Permutation_nil in Hperm. contradiction.
    + intros l'' Hperm'. cbv beta in Hperm'. rewrite Hperm'. exact Hperm.
Qed.

Lemma returns_add_noise (l : list StrategicMatch) :
  returns (add_noise rand l) (fun l' => map order_key l' = map order_key l).
Proof.
  induction l as [|x l IH]; cbn [add_noise].
  - apply returns_ret. reflexivity.
  - eapply returns_bind; [apply returns_random|]. intros r _.
    eapply returns_bind; [apply IH|]. intros l' E.
    apply returns_ret. cbn [map]. rewrite E. reflexivity.
Qed.

(** The reordering keeps the strategic matches, up to their scores, when
    the middle window of the balanced profile is not empty. *)
Lemma returns_randomize_order (riskProfile : RiskProfile) (l : list StrategicMatch) :
  (4 < List.length l)%nat ->
  returns (randomize_order rand riskProfile l)
    (fun l' => Permutation (map order_key l') (map order_key l)).
Proof.
  intro Hlen. unfold randomize_order.
  destruct (String.eqb riskProfile "risky").
  - eapply returns_bind; [apply returns_add_noise|]. intros noisy Enoisy.
    eapply returns_bind; [apply returns_random|]. intros r _.
    eapply returns_bind.
    + apply returns_random_swaps. left.
      intro E. apply (f_equal (@List.length _)) in E.
      rewrite (Permutation_length (sort_desc_Permutation noisy)) in E.
      apply (f_equal (@List.length _)) in Enoisy. rewrite !length_map in Enoisy.
      cbn in E. lia.
    + intros swapped Hswapped.
      assert (Hkeys : Permutation (map order_key swapped) (map order_key l)).
      { rewrite <- Enoisy. apply Permutation_map.
        rewrite Hswapped. apply sort_desc_Permutation. }
      eapply returns_bind; [apply returns_random|]. intros r' _.
      destruct (Qltb r' 0.3); apply returns_ret; [|exact Hkeys].
      rewrite <- Hkeys. apply Permutation_map, Permutation_sym, Permutation_rev.
  - destruct (String.eqb riskProfile "balanced").
    + eapply returns_bind; [apply returns_random|]. intros r _.
      destruct (Qltb r 0.7); [|apply returns_ret; reflexivity].
      eapply returns_bind.
      * apply returns_random_swaps. left.
        intro E. apply (f_equal (@List.length _)) in E.
        rewrite length_firstn, length_skipn in E. cbn [List.length] in E. lia.
      * intros middle' Hmiddle. apply returns_ret. apply Permutation_map.
        rewrite Hmiddle.
        rewrite <- (firstn_skipn 4 l) at 4.
        apply Permutation_app_head.
        rewrite <- (firstn_skipn 5 (skipn 4 l)) at 2.
        rewrite skipn_skipn. reflexivity.
    + apply returns_ret. reflexivity.
Qed.

End RandomSource.

(** ** The picks of the allocator *)

Section Picks.

Variable rand : nat -> Q.
Hypothesis contract : random_contract rand.

Lemma half_around_is_half (o : Outcome) (p : Triple) :
  coverage_class (half_around o p) = Half.
Proof.
  destruct o; cbn [half_around];
    match goal with |- context [if ?b then _ else _] => destruct b end; reflexivity.
Qed.

Ltac draw :=
  eapply returns_bind;
  [apply (returns_random_any rand (fun _ => True)); intros; exact I | intros ? _].

Lemma returns_selectIntelligentHalf (a : MatchIntelligence) (riskProfile : RiskProfile) :
  returns (selectIntelligentHalf rand a riskProfile)
    (fun s => coverage_class s = Half).
Proof.
  unfold selectIntelligentHalf.
  destruct (String.eqb riskProfile "safe");
    [apply returns_ret, half_around_is_half|].
  destruct (String.eqb riskProfile "risky");
    [|apply returns_ret, half_around_is_half].
  draw.
  match goal with |- context [if ?b then _ else _] => destruct b end; draw;
    match goal with |- returns (match ?o with _ => _ end) _ => destruct o end;
    apply returns_ret;
    repeat match goal with |- context [if ?b then _ else _] => destruct b end;
    reflexivity.
Qed.

Lemma returns_shuffle_from :
  forall i (strategies : list Strategy),
    (i < List.length strategies)%nat ->
    returns (shuffle_from rand i strategies) (fun _ => True).
Proof.
  induction i as [|i IH]; intros strategies Hi; cbn [shuffle_from].
  - apply returns_ret. exact I.
  - eapply returns_bind; [apply (returns_random_index rand contract (S (S i))); lia|].
    intros j Hj. cbv beta in Hj.
    destruct (swap_in_range strategies (S i) j) as (s' & E); [lia|lia|].
    rewrite E. apply IH.
    rewrite (Permutation_length (swap_Permutation _ _ _ _ E)). lia.
Qed.

Lemma returns_weighted_strategy_pick (r : Recommendations) (s : Scores) :
  returns (weighted_strategy_pick rand r s) (fun _ => True).
Proof.
  unfold weighted_strategy_pick.
  draw.
  eapply returns_bind with (P := fun l => List.length l = 3%nat).
  - destruct (Qgtb (contrarian s) 0.6).
    + draw. apply returns_ret. reflexivity.
    + apply returns_ret. reflexivity.
  - intros strategies Hlen. draw.
    eapply returns_bind with (P := fun _ => True).
    + destruct (Qltb _ 0.3).
      * apply returns_shuffle_from. lia.
      * apply returns_ret. exact I.
    + intros strategies' _. draw.
      destruct (choose_strategy _ _ _); apply returns_ret; exact I.
Qed.

Lemma returns_random_index_any (len : nat) :
  returns (random_index rand len) (fun _ => True).
Proof.
  unfold random_index. draw. apply returns_ret. exact I.
Qed.

Lemma returns_selectIntelligentSingle (a : MatchIntelligence) (riskProfile : RiskProfile) :
  returns (selectIntelligentSingle rand a riskProfile) (fun _ => True).
Proof.
  unfold selectIntelligentSingle.
  destruct (String.eqb riskProfile "safe"); [apply returns_ret; exact I|].
  destruct (String.eqb riskProfile "risky"); [|apply returns_ret; exact I].
  draw.
  destruct (Qltb _ 0.25).
  - eapply returns_bind; [apply returns_random_index_any|]. intros i _.
    apply returns_ret. exact I.
  - destruct (Qltb _ 0.5); [|apply returns_weighted_strategy_pick].
    destruct (0 <? _)%nat; [|apply returns_weighted_strategy_pick].
    eapply returns_bind; [apply returns_random_index_any|]. intros i _.
    apply returns_ret. exact I.
Qed.

Lemma single_is_single (o : Outcome) : coverage_class (single o) = Single.
Proof. destruct o; reflexivity. Qed.

(** The assignment loop returns; it writes one system match per strategic
    match, at the match's own index, and hands out the coverage classes
    in the order Half, Full, Single. *)
Lemma returns_assign_outcomes (config : SystemConfiguration) (riskProfile : RiskProfile) :
  forall (order : list StrategicMatch) (systemMatches : list (option SystemMatch))
         (halvesAssigned fullsAssigned : nat),
    returns
      (assign_outcomes rand config riskProfile order systemMatches
         halvesAssigned fullsAssigned)
      (fun systemMatches' =>
         exists assigned,
           systemMatches' =
             fold_left write (combine (map index order) assigned) systemMatches /\
           map sm_match assigned = map (fun x => match_ (analysis x)) order /\
           let len := List.length order in
           let hk := Nat.min (Z.to_nat (halves (distribution config)
                                        - Z.of_nat halvesAssigned)) len in
           let fk := Nat.min (Z.to_nat (fulls (distribution config)
                                        - Z.of_nat fullsAssigned)) (len - hk) in
           map (fun m => coverage_class (systemOutcome m)) assigned =
             repeat Half hk ++ repeat Full fk ++ repeat Single (len - hk - fk)).
Proof.
  induction order as [|x order IH]; intros systemMatches ha fa;
    cbn [assign_outcomes].
  - apply returns_ret. exists []. split; [reflexivity|]. split; [reflexivity|].
    cbv zeta. cbn [List.length map].
    rewrite Nat.min_0_r. cbn [Nat.sub]. rewrite Nat.min_0_r. reflexivity.
  - destruct (Z.ltb_spec (Z.of_nat ha) (halves (distribution config))) as [Hh|Hh].
    + eapply returns_bind; [apply returns_selectIntelligentHalf|].
      intros s Hs.
      eapply returns_weaken; [apply IH|].
      intros arr (assigned & Earr & Ematch & Eclass).
      exists ({| sm_match := match_ (analysis x); systemOutcome := s |} :: assigned).
      split; [exact Earr|]. split; [cbn [map sm_match]; rewrite Ematch; reflexivity|].
      cbv zeta in Eclass |- *. cbn [map systemOutcome List.length].
      rewrite Eclass, Hs.
      set (len := List.length order).
      replace (Nat.min (Z.to_nat (halves (distribution config) - Z.of_nat ha)) (S len))
        with (S (Nat.min (Z.to_nat (halves (distribution config)
                                    - Z.of_nat (S ha))) len)) by lia.
      cbn [repeat app Nat.sub]. reflexivity.
    + destruct (Z.ltb_spec (Z.of_nat fa) (fulls (distribution config))) as [Hf|Hf].
      * eapply returns_weaken; [apply IH|].
        intros arr (assigned & Earr & Ematch & Eclass).
        exists ({| sm_match := match_ (analysis x); systemOutcome := S1X2 |} :: assigned).
        split; [exact Earr|]. split; [cbn [map sm_match]; rewrite Ematch; reflexivity|].
        cbv zeta in Eclass |- *. cbn [map systemOutcome List.length coverage_class].
        rewrite Eclass.
        set (len := List.length order).
        replace (Nat.min (Z.to_nat (halves (distribution config) - Z.of_nat ha)) len)
          with 0%nat by lia.
        replace (Nat.min (Z.to_nat (halves (distribution config) - Z.of_nat ha)) (S len))
          with 0%nat by lia.
        replace (Nat.min (Z.to_nat (fulls (distribution config) - Z.of_nat fa))
                   (S len - 0))
          with (S (Nat.min (Z.to_nat (fulls (distribution config)
                                      - Z.of_nat (S fa))) (len - 0))) by lia.
        cbn [repeat app]. do 2 f_equal. f_equal. lia.
      * eapply returns_bind; [apply returns_selectIntelligentSingle|].
        intros o _.
        eapply returns_weaken; [apply IH|].
        intros arr (assigned & Earr & Ematch & Eclass).
        exists ({| sm_match := match_ (analysis x); systemOutcome := single o |}
                  :: assigned).
        split; [exact Earr|]. split; [cbn [map sm_match]; rewrite Ematch; reflexivity|].
        cbv zeta in Eclass |- *. cbn [map systemOutcome List.length].
        rewrite Eclass, single_is_single.
        set (len := List.length order).
        replace (Nat.min (Z.to_nat (halves (distribution config) - Z.of_nat ha)) len)
          with 0%nat by lia.
        replace (Nat.min (Z.to_nat (halves (distribution config) - Z.of_nat ha)) (S len))
          with 0%nat by lia.
        replace (Nat.min (Z.to_nat (fulls (distribution config) - Z.of_nat fa))
                   (len - 0))
          with 0%nat by lia.
        replace (Nat.min (Z.to_nat (fulls (distribution config) - Z.of_nat fa))
                   (S len - 0))
          with 0%nat by lia.
        cbn [repeat app]. replace (S len - 0 - 0)%nat with (S (len - 0 - 0)) by lia.
        reflexivity.
Qed.

End Picks.

(** ** The coverage plan of a 13-match slate *)

Lemma mapi_from_index {A : Type} (f : A -> nat -> StrategicMatch) (l : list A) :
  (forall a i, index (f a i) = i) ->
  forall s, map index (mapi_from f l s) = seq s (List.length l).
Proof.
  intro Hf. induction l as [|a l IH]; intro s; cbn [mapi_from map List.length seq];
    [reflexivity|].
  rewrite Hf, IH. reflexivity.
Qed.

Lemma strategic_matches_index (matchAnalyses : list MatchIntelligence) :
  map index (strategic_matches matchAnalyses) = seq 0 (List.length matchAnalyses).
Proof.
  unfold strategic_matches, mapi. apply mapi_from_index. reflexivity.
Qed.

Lemma strategic_matches_at (log2 : Q -> Q) (matches : list MatchWithOdds) :
  Forall
    (fun k => nth_error matches (fst k) = Some (match_ (snd k)))
    (map order_key (strategic_matches (map (analyzeMatch log2) matches))).
Proof.
  unfold strategic_matches, mapi.
  assert (H : forall done rest,
             Forall (fun k => nth_error (done ++ rest) (fst k) = Some (match_ (snd k)))
               (map order_key
                  (mapi_from
                     (fun analysis index =>
                        {| analysis := analysis; index := index;
                           strategicValue :=
                             uncertaintyScore (scores analysis) * 0.6 +
                             valueScore (scores analysis) * 0.4 |})
                     (map (analyzeMatch log2) rest) (List.length done)))).
  { intros done rest. revert done.
    induction rest as [|m rest IH]; intro done; cbn [map mapi_from]; constructor.
    - cbn [order_key fst snd index analysis].
      rewrite nth_error_app2, Nat.sub_diag by lia. reflexivity.
    - specialize (IH (done ++ [m])).
      rewrite <- app_assoc, length_app in IH. cbn [app List.length] in IH.
      rewrite Nat.add_1_r in IH. exact IH. }
  apply (H [] matches).
Qed.

Lemma assigned_at_index (matches : list MatchWithOdds) :
  forall (order : list StrategicMatch) (assigned : list SystemMatch),
    map sm_match assigned = map (fun x => match_ (analysis x)) order ->
    Forall (fun k => nth_error matches (fst k) = Some (match_ (snd k)))
      (map order_key order) ->
    map fst (combine (map index order) assigned) = map index order /\
    map snd (combine (map index order) assigned) = assigned /\
    Forall (fun w => nth_error matches (fst w) = Some (sm_match (snd w)))
      (combine (map index order) assigned).
Proof.
  induction order as [|x order IH]; intros [|sm assigned] E Hall; cbn [map] in E;
    try discriminate.
  - repeat split; constructor.
  - injection E as Esm E. inversion Hall as [|k ks Hx Hall']; subst.
    destruct (IH assigned E Hall') as (E1 & E2 & E3).
    cbn [map combine fst snd]. rewrite E1, E2.
    repeat split. constructor; [|exact E3].
    cbn [fst snd order_key] in *. rewrite Esm. exact Hx.
Qed.

Lemma rows_product_classes (plan : list SystemMatch) :
  rows_product plan = (2 ^ class_count Half plan * 3 ^ class_count Full plan)%nat.
Proof.
  unfold class_count.
  induction plan as [|m plan IH]; [reflexivity|].
  cbn [rows_product fold_right map count_occ]. fold (rows_product plan). rewrite IH.
  destruct (systemOutcome m); cbn [expandSystemOutcome List.length coverage_class];
    repeat match goal with
           | |- context [CoverageClass_eq_dec ?a ?b] =>
               destruct (CoverageClass_eq_dec a b); try discriminate; try congruence
           end;
    rewrite ?Nat.pow_succ_r'; lia.
Qed.

Section Plan.

Variable rand : nat -> Q.
Variable log2 : Q -> Q.
Hypothesis contract : random_contract rand.

(** On a slate of 13 matches the allocator returns a dense plan in the
    order of the slate, with the Half and Full counts of the loop. *)
Lemma returns_selectSystemOutcomes (matches : list MatchWithOdds)
    (config : SystemConfiguration) (riskProfile : RiskProfile) :
  List.length matches = 13%nat ->
  returns (selectSystemOutcomes rand log2 matches config riskProfile)
    (fun systemMatches =>
       exists plan,
         systemMatches = map Some plan /\
         map sm_match plan = matches /\
         class_count Half plan = halves_assigned config 13 /\
         class_count Full plan = fulls_assigned config 13).
Proof.
  intro Hlen. unfold selectSystemOutcomes.
  set (initial := strategic_matches (map (analyzeMatch log2) matches)).
  assert (Hinit : List.length initial = 13%nat).
  { rewrite <- (length_map index), (strategic_matches_index _ : map index initial = _).
    rewrite length_seq, length_map. exact Hlen. }
  eapply returns_bind.
  { apply (returns_randomize_order rand contract).
    rewrite (Permutation_length (sort_desc_Permutation initial)). lia. }
  intros order Horder. cbv beta in Horder.
  assert (Hkeys : Permutation (map order_key order) (map order_key initial)).
  { rewrite Horder. apply Permutation_map, sort_desc_Permutation. }
  clear Horder.
  assert (Hidx : Permutation (map index order) (seq 0 13)).
  { replace (map index order) with (map fst (map order_key order))
      by (rewrite map_map; reflexivity).
    rewrite Hkeys, map_map.
    change (map (fun x => fst (order_key x)) initial) with (map index initial).
    unfold initial. rewrite strategic_matches_index, length_map, Hlen. reflexivity. }
  assert (Hat : Forall (fun k => nth_error matches (fst k) = Some (match_ (snd k)))
                  (map order_key order)).
  { eapply Permutation_Forall; [apply Permutation_sym, Hkeys|].
    apply strategic_matches_at. }
  eapply returns_weaken; [apply (returns_assign_outcomes rand contract)|].
  intros systemMatches (assigned & Earr & Ematch & Eclass).
  destruct (assigned_at_index matches order assigned Ematch Hat) as (Efst & Esnd & Hws).
  destruct (writes_fill 13 (combine (map index order) assigned)) as (plan & Eplan & Hperm & Hpos).
  { rewrite Efst. exact Hidx. }
  rewrite Esnd in Hperm.
  assert (Hlen_order : List.length order = 13%nat).
  { rewrite <- (length_map index), (Permutation_length Hidx), length_seq. reflexivity. }
  assert (Hlen_plan : List.length plan = 13%nat).
  { rewrite <- (Permutation_length Hperm), <- (length_map sm_match), Ematch, length_map.
    exact Hlen_order. }
  exists plan. split; [rewrite Earr; exact Eplan|]. split.
  - apply nth_error_ext. intro i.
    destruct (Nat.lt_ge_cases i 13) as [Hi|Hi].
    + assert (Hin : In i (map fst (combine (map index order) assigned))).
      { rewrite Efst. apply (Permutation_in _ (Permutation_sym Hidx)), in_seq. lia. }
      apply in_map_iff in Hin as (w & <- & Hw).
      rewrite nth_error_map, (Hpos w Hw). cbn [option_map].
      symmetry. eapply Forall_forall in Hws; [exact Hws|exact Hw].
    + transitivity (@None MatchWithOdds); [|symmetry];
        apply nth_error_None; rewrite ?length_map; lia.
  - assert (Hcount : forall c,
               class_count c plan =
               count_occ CoverageClass_eq_dec
                 (map (fun m => coverage_class (systemOutcome m)) assigned) c).
    { intro c. unfold class_count. symmetry.
      apply Permutation_count_occ, Permutation_map, Hperm. }
    cbv zeta in Eclass. rewrite Hlen_order in Eclass.
    rewrite !Hcount, Eclass, !count_occ_app.
    rewrite !Z.sub_0_r.
    unfold fulls_assigned, halves_assigned.
    rewrite (count_occ_repeat_eq _ _ (eq_refl Half)).
    rewrite (count_occ_repeat_eq _ _ (eq_refl Full)).
    rewrite !count_occ_repeat_neq by discriminate.
    split; lia.
Qed.

End Plan.

(** ** Rows of a dense plan *)

Lemma reduce_indexed_ok {A B : Type} (f : B -> A -> nat -> Res B) (bound : nat) :
  (forall acc x i, (i < bound)%nat -> exists acc', f acc x i = Ok acc') ->
  forall l index acc,
    (index + List.length l <= bound)%nat ->
    exists r, reduce_indexed f l index acc = Ok r.
Proof.
  intros Hf. induction l as [|x l IH]; intros index acc Hle; cbn [reduce_indexed].
  - eauto.
  - cbn [List.length] in Hle.
    destruct (Hf acc x index) as (acc' & ->); [lia|].
    cbn [Res_bind]. apply IH. lia.
Qed.

Lemma calculateRowExpectedCorrect_ok (plan : list SystemMatch) (row : list Outcome) :
  (List.length row <= List.length plan)%nat ->
  exists q, calculateRowExpectedCorrect row plan = Ok q.
Proof.
  intro Hle. unfold calculateRowExpectedCorrect.
  apply (reduce_indexed_ok _ (List.length plan)); [|cbn; lia].
  intros acc o i Hi.
  destruct (nth_error plan i) eqn:E; [|apply nth_error_None in E; lia].
  destruct o; eauto.
Qed.

Lemma estimateRowPayout_ok (plan : list SystemMatch) (row : list Outcome) :
  (List.length row <= List.length plan)%nat ->
  exists q, estimateRowPayout row plan = Ok q.
Proof.
  intro Hle. unfold estimateRowPayout.
  match goal with
  | |- context [reduce_indexed ?f row 0%nat 1] =>
      destruct (reduce_indexed_ok f (List.length plan)) with (l := row) (index := 0%nat)
        (acc := 1) as (q & ->)
  end.
  - intros acc o i Hi.
    destruct (nth_error plan i) eqn:E; [|apply nth_error_None in E; lia].
    eauto.
  - cbn; lia.
  - cbn [Res_bind]. eauto.
Qed.

Lemma mapi_res_from_ok {A B : Type} (f : A -> nat -> Res B) (g : B -> A) (l : list A) :
  (forall x i, In x l -> exists y, f x i = Ok y /\ g y = x) ->
  forall s, exists ys, mapi_res_from f l s = Ok ys /\ map g ys = l.
Proof.
  induction l as [|x l IH]; intros Hf s; cbn [mapi_res_from].
  - exists []. split; reflexivity.
  - destruct (Hf x s (or_introl eq_refl)) as (y & -> & Ey).
    destruct (IH (fun x' i Hin => Hf x' i (or_intror Hin)) (S s)) as (ys & -> & Eys).
    cbn [Res_bind]. exists (y :: ys). cbn [map]. rewrite Ey, Eys. split; reflexivity.
Qed.

Lemma generateAllSystemRows_dense (plan : list SystemMatch) (riskProfile : RiskProfile) :
  exists rows,
    generateAllSystemRows (map Some plan) riskProfile = Ok rows /\
    map outcomes rows = generateOutcomeCombinations plan.
Proof.
  unfold generateAllSystemRows. rewrite dense_map_Some. cbn [Res_bind].
  apply mapi_res_from_ok.
  intros row i Hin.
  assert (Hlen : (List.length row <= List.length plan)%nat).
  { apply generateOutcomeCombinations_covers, Forall2_length in Hin. lia. }
  destruct (calculateRowExpectedCorrect_ok plan row Hlen) as (ec & ->).
  destruct (estimateRowPayout_ok plan row Hlen) as (ep & ->).
  cbn [Res_bind]. eexists. split; reflexivity.
Qed.

Lemma Forall2_nth_error {A B : Type} (R : A -> B -> Prop) (l : list A) (l' : list B) :
  Forall2 R l l' ->
  forall i a, nth_error l i = Some a -> exists b, nth_error l' i = Some b /\ R a b.
Proof.
  induction 1 as [|x y l l' Hxy _ IH]; intros [|i] a Hi; cbn [nth_error] in *;
    try discriminate.
  - injection Hi as <-. eauto.
  - apply IH, Hi.
Qed.

(** What system generation returns on a slate of 13 matches, whatever the
    configuration and the profile: a dense plan in slate order with the
    classes handed out by the loop, and the rows of its expansion. *)
Lemma returns_generateSystem (rand : nat -> Q) (log2 : Q -> Q)
    (matches : list MatchWithOdds) (config : SystemConfiguration)
    (riskProfile : RiskProfile) :
  random_contract rand ->
  List.length matches = 13%nat ->
  returns (generateSystem rand log2 matches config riskProfile)
    (fun sys =>
       exists plan,
         sys_matches sys = map Some plan /\
         map sm_match plan = matches /\
         class_count Half plan = halves_assigned config 13 /\
         class_count Full plan = fulls_assigned config 13 /\
         map outcomes (allRows sys) = generateOutcomeCombinations plan).
Proof.
  intros contract Hlen. unfold generateSystem.
  eapply returns_bind; [apply (returns_selectSystemOutcomes rand log2 contract), Hlen|].
  intros systemMatches (plan & -> & Hm & Hh & Hf).
  destruct (generateAllSystemRows_dense plan riskProfile) as (rows & Erows & Eout).
  eapply returns_bind; [apply (returns_lift _ rows (fun r => r = rows) Erows eq_refl)|].
  intros ? ->.
  eapply returns_bind; [apply (returns_random_any rand (fun _ => True)); intros; exact I|].
  intros _ _. apply returns_ret.
  exists plan. cbn [sys_matches allRows]. repeat split; assumption.
Qed.

Lemma rows_of_classes (plan : list SystemMatch) :
  Z.of_nat (List.length (generateOutcomeCombinations plan)) =
  (2 ^ Z.of_nat (class_count Half plan) * 3 ^ Z.of_nat (class_count Full plan))%Z.
Proof.
  rewrite generateOutcomeCombinations_length, rows_product_classes.
  rewrite Nat2Z.inj_mul, !Nat2Z.inj_pow. reflexivity.
Qed.

Lemma example_rand_contract : random_contract example_rand.
Proof.
  intro n. unfold example_rand.
  assert (Hm : (n mod 10 < 10)%nat) by (apply Nat.mod_upper_bound; discriminate).
  assert (H0 : 0 <= Q_of_nat (n mod 10)).
  { unfold Q_of_nat. change 0 with (inject_Z 0). rewrite <- Zle_Qle. lia. }
  assert (H1 : Q_of_nat (n mod 10) < 10).
  { unfold Q_of_nat. change 10 with (inject_Z 10). rewrite <- Zlt_Qlt. lia. }
  split.
  - apply Qle_shift_div_l; [reflexivity|]. lra.
  - apply Qlt_shift_div_r; [reflexivity|]. lra.
Qed.

(** The presets describe 13 matches, and the row count each declares is
    the one its distribution stands for. *)
Lemma SYSTEM_PRESETS_consistent :
  Forall
    (fun preset =>
       let d := distribution (snd preset) in
       (0 <= halves d /\ 0 <= fulls d /\ 0 <= singles d /\
        halves d + fulls d + singles d = 13 /\
        totalRows (snd preset) = 2 ^ halves d * 3 ^ fulls d)%Z)
    SYSTEM_PRESETS.
Proof.
  repeat constructor; cbn; lia.
Qed.

Lemma class_count_total (plan : list SystemMatch) :
  (class_count Single plan + class_count Half plan + class_count Full plan)%nat
  = List.length plan.
Proof.
  unfold class_count.
  induction plan as [|m plan IH]; [reflexivity|].
  cbn [map count_occ List.length].
  destruct (coverage_class (systemOutcome m));
    repeat match goal with
           | |- context [CoverageClass_eq_dec ?a ?b] =>
               destruct (CoverageClass_eq_dec a b); try discriminate; try congruence
           end;
    lia.
Qed.

(** C1: on a slate of 13 matches and a configuration of non-negative counts
    with [halves + fulls + singles = 13], system generation returns a system
    whose rows, the expansion of its coverage plan, number exactly
    [2^halves * 3^fulls]. *)
Theorem generateSystem_row_count (rand : nat -> Q) (log2 : Q -> Q)
    (matches : list MatchWithOdds) (config : SystemConfiguration)
    (riskProfile : RiskProfile) (n : nat) :
  random_contract rand ->
  List.length matches = 13%nat ->
  (0 <= halves (distribution config))%Z ->
  (0 <= fulls (distribution config))%Z ->
  (0 <= singles (distribution config))%Z ->
  (halves (distribution config) + fulls (distribution config)
   + singles (distribution config) = 13)%Z ->
  exists sys n' plan,
    generateSystem rand log2 matches config riskProfile n = Ok (sys, n') /\
    sys_matches sys = map Some plan /\
    (Z.of_nat (class_count Half plan) = halves (distribution config) /\
     Z.of_nat (class_count Full plan) = fulls (distribution config) /\
     Z.of_nat (class_count Single plan) = singles (distribution config)) /\
    map outcomes (allRows sys) = generateOutcomeCombinations plan /\
    Z.of_nat (List.length (allRows sys)) =
      (2 ^ halves (distribution config) * 3 ^ fulls (distribution config))%Z.
Proof.
  intros contract Hlen Hh Hf Hs Hsum.
  destruct (returns_generateSystem rand log2 matches config riskProfile contract Hlen n)
    as (sys & n' & E & plan & Eplan & Ematch & Ehalf & Efull & Erows).
  pose proof (class_count_total plan) as Htotal.
  rewrite <- (length_map sm_match), Ematch, Hlen in Htotal.
  unfold fulls_assigned, halves_assigned in Ehalf, Efull.
  exists sys, n', plan.
  split; [exact E|]. split; [exact Eplan|].
  split; [repeat split; lia|]. split; [exact Erows|].
  rewrite <- (length_map outcomes), Erows, rows_of_classes, Ehalf, Efull.
  f_equal; f_equal; lia.
Qed.

Lemma generateSystem_row_count_witness :
  exists sys n',
    generateSystem example_rand example_log2 example_slate system_96 "risky"%string 0%nat
      = Ok (sys, n') /\
    Z.of_nat (List.length (allRows sys)) = 96%Z.
Proof.
  destruct (generateSystem_row_count example_rand example_log2 example_slate system_96
              "risky"%string 0%nat)
    as (sys & n' & plan & E & _ & _ & _ & Hrows).
  - exact example_rand_contract.
  - reflexivity.
  - cbn; lia.
  - cbn; lia.
  - cbn; lia.
  - reflexivity.
  - exists sys, n'. split; [exact E|exact Hrows].
Defined.

(** C4, as the code behaves: system generation does not validate the
    configuration.  On a slate of 13 matches it returns a system for every
    configuration, also when the counts do not sum to 13 or are negative,
    and raises no error: [min (max halves 0) 13] matches get Half coverage,
    [min (max fulls 0)] of the matches that remain get Full coverage, all
    others Single coverage, whatever [singles] says, and the rows number
    2 to the Half count times 3 to the Full count. *)
Theorem generateSystem_accepts_every_configuration (rand : nat -> Q) (log2 : Q -> Q)
    (matches : list MatchWithOdds) (config : SystemConfiguration)
    (riskProfile : RiskProfile) (n : nat) :
  random_contract rand ->
  List.length matches = 13%nat ->
  exists sys n' plan,
    generateSystem rand log2 matches config riskProfile n = Ok (sys, n') /\
    sys_matches sys = map Some plan /\
    class_count Half plan = halves_assigned config 13 /\
    class_count Full plan = fulls_assigned config 13 /\
    class_count Single plan =
      (13 - halves_assigned config 13 - fulls_assigned config 13)%nat /\
    List.length (allRows sys) =
      (2 ^ halves_assigned config 13 * 3 ^ fulls_assigned config 13)%nat.
Proof.
  intros contract Hlen.
  destruct (returns_generateSystem rand log2 matches config riskProfile contract Hlen n)
    as (sys & n' & E & plan & Eplan & Ematch & Ehalf & Efull & Erows).
  exists sys, n', plan. repeat split; try assumption.
  - pose proof (class_count_total plan) as Htotal.
    rewrite <- (length_map sm_match), Ematch, Hlen in Htotal. lia.
  - rewrite <- (length_map outcomes), Erows, generateOutcomeCombinations_length,
      rows_product_classes, Ehalf, Efull. reflexivity.
Qed.

Lemma generateSystem_accepts_every_configuration_witness :
  exists sys n',
    generateSystem example_rand example_log2 example_slate negative_config
      "balanced"%string 0%nat = Ok (sys, n') /\
    List.length (allRows sys) = 3%nat.
Proof.
  destruct (generateSystem_accepts_every_configuration example_rand example_log2
              example_slate negative_config "balanced"%string 0%nat)
    as (sys & n' & plan & E & _ & _ & _ & _ & Hrows).
  - exact example_rand_contract.
  - reflexivity.
  - exists sys, n'. split; [exact E|exact Hrows].
Defined.

(** C4, as stated, fails: a configuration whose counts sum to 6 and one
    with a negative count are both accepted, no error is raised, and rows
    are produced. *)
Lemma generateSystem_does_not_reject :
  (halves (distribution short_config) + fulls (distribution short_config)
   + singles (distribution short_config) <> 13)%Z /\
  (halves (distribution negative_config) < 0)%Z /\
  (forall e,
     generateSystem example_rand example_log2 example_slate short_config
       "safe"%string 0%nat <> Throw e) /\
  (forall e,
     generateSystem example_rand example_log2 example_slate negative_config
       "safe"%string 0%nat <> Throw e) /\
  (exists sys n',
     generateSystem example_rand example_log2 example_slate short_config
       "safe"%string 0%nat = Ok (sys, n') /\
     List.length (allRows sys) = 12%nat) /\
  (exists sys n',
     generateSystem example_rand example_log2 example_slate negative_config
       "safe"%string 0%nat = Ok (sys, n') /\
     List.length (allRows sys) = 3%nat).
Proof.
  assert (H1 : exists sys n',
             generateSystem example_rand example_log2 example_slate short_config
               "safe"%string 0%nat = Ok (sys, n') /\
             List.length (allRows sys) = 12%nat).
  { eexists. eexists. split; [vm_compute; reflexivity|vm_compute; reflexivity]. }
  assert (H2 : exists sys n',
             generateSystem example_rand example_log2 example_slate negative_config
               "safe"%string 0%nat = Ok (sys, n') /\
             List.length (allRows sys) = 3%nat).
  { eexists. eexists. split; [vm_compute; reflexivity|vm_compute; reflexivity]. }
  split; [cbn; lia|]. split; [cbn; lia|].
  split; [|split; [|split; assumption]].
  - intros e He. destruct H1 as (sys & n' & E & _). rewrite E in He. discriminate.
  - intros e He. destruct H2 as (sys & n' & E & _). rewrite E in He. discriminate.
Qed.

(** C6: in the system generated for a slate of 13 matches, position [i] of
    the coverage plan holds match [i] of the slate as it was given, and
    every expanded row has at position [i] an outcome covered by the
    coverage class assigned to that match. *)
Theorem generateSystem_rows_follow_plan (rand : nat -> Q) (log2 : Q -> Q)
    (matches : list MatchWithOdds) (config : SystemConfiguration)
    (riskProfile : RiskProfile) (n : nat) :
  random_contract rand ->
  List.length matches = 13%nat ->
  exists sys n',
    generateSystem rand log2 matches config riskProfile n = Ok (sys, n') /\
    forall i, (i < 13)%nat ->
      exists m sm,
        nth_error matches i = Some m /\
        nth_error (sys_matches sys) i = Some (Some sm) /\
        sm_match sm = m /\
        forall row, In row (allRows sys) ->
          exists o, nth_error (outcomes row) i = Some o /\
                    covers (systemOutcome sm) o = true.
Proof.
  intros contract Hlen.
  destruct (returns_generateSystem rand log2 matches config riskProfile contract Hlen n)
    as (sys & n' & E & plan & Eplan & Ematch & _ & _ & Erows).
  exists sys, n'. split; [exact E|].
  intros i Hi.
  destruct (nth_error plan i) as [sm|] eqn:Esm.
  2:{ apply nth_error_None in Esm.
      rewrite <- (length_map sm_match), Ematch, Hlen in Esm. lia. }
  exists (sm_match sm), sm.
  split; [rewrite <- Ematch, nth_error_map, Esm; reflexivity|].
  split; [rewrite Eplan, nth_error_map, Esm; reflexivity|].
  split; [reflexivity|].
  intros row Hrow.
  assert (Hin : In (outcomes row) (generateOutcomeCombinations plan)).
  { rewrite <- Erows. apply in_map, Hrow. }
  apply generateOutcomeCombinations_covers in Hin.
  apply (Forall2_nth_error _ _ _ Hin i sm Esm).
Qed.

Lemma generateSystem_rows_follow_plan_witness :
  exists sys n',
    generateSystem example_rand example_log2 example_slate system_96 "risky"%string 5%nat
    = Ok (sys, n').
Proof.
  destruct (generateSystem_rows_follow_plan example_rand example_log2 example_slate
              system_96 "risky"%string 5%nat)
    as (sys & n' & E & _).
  - exact example_rand_contract.
  - reflexivity.
  - exists sys, n'. exact E.
Defined.

(** ** The safe Half coverage *)


Lemma calculateExpertConsensus_nonneg (tips : option Triple) :
  match tips with
  | Some t => 0 <= home t /\ 0 <= draw t /\ 0 <= away t
  | None => True
  end ->
  0 <= calculateExpertConsensus tips.
Proof.
  destruct tips as [t|]; cbn [calculateExpertConsensus]; [|intros _; lra].
  intros (Hh & Hd & Ha).
  destruct (Qeq_bool (home t + draw t + away t) 0) eqn:E; [lra|].
  apply Qeq_bool_neq in E.
  apply Qle_shift_div_l.
  - assert (0 <= home t + draw t + away t) by lra.
    apply Qle_lt_or_eq in H as [H|H]; [exact H|]. symmetry in H. contradiction.
  - rewrite Qmult_0_l. unfold Qmax3.
    apply Qle_trans with (home t); [assumption|].
    eapply Qle_trans; [apply Q.le_max_l|apply Q.le_max_l].
Qed.






(** * Further properties of the engine *)

(** ** Risk adjustment for every profile *)

Lemma getRiskFactor_range (profile : RiskProfile) :
  -0.7 <= getRiskFactor profile /\ getRiskFactor profile <= 0.7.
Proof.
  unfold getRiskFactor.
  destruct (String.eqb profile "safe"); [split; lra|].
  destruct (String.eqb profile "balanced"); [split; lra|].
  destruct (String.eqb profile "risky"); split; lra.
Qed.

Lemma adjustProbabilityForRisk_range (x rf : Q) :
  0 <= adjustProbabilityForRisk x rf /\ adjustProbabilityForRisk x rf <= 1.
Proof.
  unfold adjustProbabilityForRisk. split.
  - apply Q.le_max_l.
  - apply Q.max_lub; [lra|apply Q.le_min_l].
Qed.

Lemma clamp_monotone (x y : Q) :
  x <= y -> Qmax 0 (Qmin 1 x) <= Qmax 0 (Qmin 1 y).
Proof.
  intro H. apply Q.max_le_compat_l, Q.min_le_compat_l, H.
Qed.

Lemma clamp_positive (x : Q) : 0 < x -> 0 < Qmax 0 (Qmin 1 x).
Proof.
  intro H. eapply Qlt_le_trans; [|apply Q.le_max_r].
  apply Q.min_glb_lt; lra.
Qed.

Lemma risk_bias_positive (x rf : Q) :
  0 <= x -> x <= 1 -> -0.7 <= rf -> rf <= 0.7 -> 0.65 <= 1 + rf * (0.5 - x).
Proof.
  intros H0 H1 Hl Hu.
  assert (Ha : 0 <= (0.7 - rf) * x) by (apply Qmult_le_0_compat; lra).
  assert (Hb : 0 <= (0.7 + rf) * (1 - x)) by (apply Qmult_le_0_compat; lra).
  assert (E : 1 + rf * (0.5 - x) - 0.65
              == 0.5 * ((0.7 - rf) * x) + 0.5 * ((0.7 + rf) * (1 - x))) by ring.
  lra.
Qed.

Lemma adjustProbabilityForRisk_positive (x rf : Q) :
  0 < x -> x <= 1 -> -0.7 <= rf -> rf <= 0.7 -> 0 < adjustProbabilityForRisk x rf.
Proof.
  intros H0 H1 Hl Hu. unfold adjustProbabilityForRisk.
  apply clamp_positive.
  pose proof (risk_bias_positive x rf (Qlt_le_weak _ _ H0) H1 Hl Hu) as Hb.
  apply Qmult_lt_0_compat; lra.
Qed.

Lemma Qdiv_share (a total : Q) :
  0 <= a -> a <= total -> 0 < total -> 0 <= a / total /\ a / total <= 1.
Proof.
  intros Ha Hle Hpos. split.
  - apply Qle_shift_div_l; lra.
  - apply Qle_shift_div_r; lra.
Qed.

Lemma adjusted_total_positive (p : Triple) (rf : Q) :
  0 <= home p /\ home p <= 1 ->
  0 <= draw p /\ draw p <= 1 ->
  0 <= away p /\ away p <= 1 ->
  0 < home p + draw p + away p ->
  -0.7 <= rf -> rf <= 0.7 ->
  0 < adjustProbabilityForRisk (home p) rf
      + adjustProbabilityForRisk (draw p) rf
      + adjustProbabilityForRisk (away p) rf.
Proof.
  intros [Hh0 Hh1] [Hd0 Hd1] [Ha0 Ha1] Hsum Hl Hu.
  destruct (adjustProbabilityForRisk_range (home p) rf) as [Ha_lo _].
  destruct (adjustProbabilityForRisk_range (draw p) rf) as [Hb_lo _].
  destruct (adjustProbabilityForRisk_range (away p) rf) as [Hc_lo _].
  destruct (Qlt_le_dec 0 (home p)) as [Hp|Hp].
  { pose proof (adjustProbabilityForRisk_positive (home p) rf Hp Hh1 Hl Hu). lra. }
  destruct (Qlt_le_dec 0 (draw p)) as [Hp'|Hp'].
  { pose proof (adjustProbabilityForRisk_positive (draw p) rf Hp' Hd1 Hl Hu). lra. }
  assert (Hp'' : 0 < away p) by lra.
  pose proof (adjustProbabilityForRisk_positive (away p) rf Hp'' Ha1 Hl Hu). lra.
Qed.

(** X1: for every risk profile, known or not, the adjustment of a triple of
    numbers in [[0,1]] with a positive sum is a probability distribution:
    each component lies in [[0,1]] and the three sum to 1. *)
Theorem adjustMatchProbabilities_is_distribution (p : Triple) (profile : RiskProfile) :
  0 <= home p /\ home p <= 1 ->
  0 <= draw p /\ draw p <= 1 ->
  0 <= away p /\ away p <= 1 ->
  0 < home p + draw p + away p ->
  let q := adjustMatchProbabilities p profile in
  (0 <= home q /\ home q <= 1) /\
  (0 <= draw q /\ draw q <= 1) /\
  (0 <= away q /\ away q <= 1) /\
  home q + draw q + away q == 1.
Proof.
  intros Hh Hd Ha Hsum q.
  destruct (getRiskFactor_range profile) as [Hl Hu].
  pose proof (adjusted_total_positive p (getRiskFactor profile) Hh Hd Ha Hsum Hl Hu)
    as Htotal.
  unfold q, adjustMatchProbabilities. cbn [home draw away].
  set (rf := getRiskFactor profile) in *.
  set (a := adjustProbabilityForRisk (home p) rf) in *.
  set (b := adjustProbabilityForRisk (draw p) rf) in *.
  set (c := adjustProbabilityForRisk (away p) rf) in *.
  destruct (adjustProbabilityForRisk_range (home p) rf) as [Ha_lo _].
  destruct (adjustProbabilityForRisk_range (draw p) rf) as [Hb_lo _].
  destruct (adjustProbabilityForRisk_range (away p) rf) as [Hc_lo _].
  fold a in Ha_lo. fold b in Hb_lo. fold c in Hc_lo.
  split; [apply Qdiv_share; lra|].
  split; [apply Qdiv_share; lra|].
  split; [apply Qdiv_share; lra|].
  assert (E : a / (a + b + c) + b / (a + b + c) + c / (a + b + c)
              == (a + b + c) / (a + b + c)) by (unfold Qdiv; ring).
  rewrite E. apply Qmult_inv_r. lra.
Qed.

Lemma adjustMatchProbabilities_is_distribution_witness :
  let q := adjustMatchProbabilities {| home := 0.5; draw := 0.3; away := 0.2 |}
             "risky"%string in
  home q + draw q + away q == 1.
Proof.
  intro q.
  apply (adjustMatchProbabilities_is_distribution
           {| home := 0.5; draw := 0.3; away := 0.2 |} "risky"%string);
    try split; vm_compute; solve [discriminate | reflexivity].
Defined.

(** X2: before renormalisation the safe profile never lowers a probability
    of at least one half and never raises one of at most one half, and the
    risky profile does the reverse.  The change is strict for a probability
    that is at least 1e-9 away from one half and from 0: it is then really
    lowered or raised (for a rise under the safe profile the probability has
    to be below 1, where the result is capped). *)
Theorem adjustProbabilityForRisk_direction (x : Q) :
  0 <= x -> x <= 1 ->
  let safe := adjustProbabilityForRisk x (getRiskFactor "safe"%string) in
  let risky := adjustProbabilityForRisk x (getRiskFactor "risky"%string) in
  ((0.5 <= x -> x <= safe /\ risky <= x) /\
   (x <= 0.5 -> safe <= x /\ x <= risky)) /\
  (0.000000001 <= x -> x <= 0.5 - 0.000000001 -> safe < x /\ x < risky) /\
  (0.5 + 0.000000001 <= x -> (x < 1 -> x < safe) /\ risky < x).
Proof.
  intros H0 H1. cbv zeta.
  change (getRiskFactor "safe"%string) with (-0.7).
  change (getRiskFactor "risky"%string) with 0.7.
  unfold adjustProbabilityForRisk.
  assert (Es : forall rf, x * (1 + rf * (0.5 - x)) - x == rf * (x * (0.5 - x)))
    by (intro; ring).
  pose proof (Es (-0.7)) as Esafe. pose proof (Es 0.7) as Erisky.
  split; [split; intro Hx; split|split; [intros Hlo Hhi; split|intro Hx; split]].
  - assert (0 <= x * (x - 0.5)) by (apply Qmult_le_0_compat; lra).
    assert (x <= x * (1 + -0.7 * (0.5 - x))) by lra.
    eapply Qle_trans; [|apply Q.le_max_r].
    apply Q.min_glb; lra.
  - assert (0 <= x * (x - 0.5)) by (apply Qmult_le_0_compat; lra).
    assert (x * (1 + 0.7 * (0.5 - x)) <= x) by lra.
    apply Q.max_lub; [lra|].
    eapply Qle_trans; [apply Q.le_min_r|]. lra.
  - assert (0 <= x * (0.5 - x)) by (apply Qmult_le_0_compat; lra).
    assert (x * (1 + -0.7 * (0.5 - x)) <= x) by lra.
    apply Q.max_lub; [lra|].
    eapply Qle_trans; [apply Q.le_min_r|]. lra.
  - assert (0 <= x * (0.5 - x)) by (apply Qmult_le_0_compat; lra).
    assert (x <= x * (1 + 0.7 * (0.5 - x))) by lra.
    eapply Qle_trans; [|apply Q.le_max_r].
    apply Q.min_glb; lra.
  - assert (0 < x * (0.5 - x)) by (apply Qmult_lt_0_compat; lra).
    assert (x * (1 + -0.7 * (0.5 - x)) < x) by lra.
    apply Q.max_lub_lt; [lra|].
    eapply Qle_lt_trans; [apply Q.le_min_r|]. lra.
  - assert (0 < x * (0.5 - x)) by (apply Qmult_lt_0_compat; lra).
    assert (x < x * (1 + 0.7 * (0.5 - x))) by lra.
    eapply Qlt_le_trans; [|apply Q.le_max_r].
    apply Q.min_glb_lt; lra.
  - intro Hlt.
    assert (0 < x * (x - 0.5)) by (apply Qmult_lt_0_compat; lra).
    assert (x < x * (1 + -0.7 * (0.5 - x))) by lra.
    eapply Qlt_le_trans; [|apply Q.le_max_r].
    apply Q.min_glb_lt; lra.
  - assert (0 < x * (x - 0.5)) by (apply Qmult_lt_0_compat; lra).
    assert (x * (1 + 0.7 * (0.5 - x)) < x) by lra.
    apply Q.max_lub_lt; [lra|].
    eapply Qle_lt_trans; [apply Q.le_min_r|]. lra.
Qed.

Lemma adjustProbabilityForRisk_direction_witness :
  0.6 < adjustProbabilityForRisk 0.6 (getRiskFactor "safe"%string) /\
  adjustProbabilityForRisk 0.6 (getRiskFactor "risky"%string) < 0.6.
Proof.
  destruct (adjustProbabilityForRisk_direction 0.6) as (_ & _ & Hhigh).
  - vm_compute; discriminate.
  - vm_compute; discriminate.
  - destruct Hhigh as [Hs Hr]; [vm_compute; discriminate|].
    split; [apply Hs; vm_compute; reflexivity|exact Hr].
Defined.

Lemma risk_adjust_strict (a b rf : Q) :
  0 <= a -> a < b -> a + b <= 1 -> -0.7 <= rf -> rf <= 0.7 ->
  adjustProbabilityForRisk a rf < adjustProbabilityForRisk b rf.
Proof.
  intros Ha Hab Hsum Hl Hu. unfold adjustProbabilityForRisk.
  assert (E : b * (1 + rf * (0.5 - b)) - a * (1 + rf * (0.5 - a))
              == (b - a) * (1 + rf * (0.5 - (a + b)))) by ring.
  assert (Hf : 0.65 <= 1 + rf * (0.5 - (a + b))).
  { assert (H1 : 0 <= (0.7 - rf) * (a + b)) by (apply Qmult_le_0_compat; lra).
    assert (H2 : 0 <= (0.7 + rf) * (1 - (a + b))) by (apply Qmult_le_0_compat; lra).
    assert (E' : 1 + rf * (0.5 - (a + b)) - 0.65
                 == 0.5 * ((0.7 - rf) * (a + b)) + 0.5 * ((0.7 + rf) * (1 - (a + b))))
      by ring.
    lra. }
  assert (Hgap : 0 < (b - a) * (1 + rf * (0.5 - (a + b))))
    by (apply Qmult_lt_0_compat; lra).
  assert (Hba : 0.65 <= 1 + rf * (0.5 - a)) by (apply risk_bias_positive; lra).
  assert (Hbb : 0.65 <= 1 + rf * (0.5 - b)) by (apply risk_bias_positive; lra).
  assert (Hua : 0 <= a * (1 + rf * (0.5 - a))) by (apply Qmult_le_0_compat; lra).
  assert (Hub : 0 < b * (1 + rf * (0.5 - b))) by (apply Qmult_lt_0_compat; lra).
  assert (Hcap : a * (1 + rf * (0.5 - a)) < 1).
  { assert (Hb' : 1 + rf * (0.5 - a) <= 1.35).
    { assert (0 <= (0.7 - rf) * (0.5 - a)) by (apply Qmult_le_0_compat; lra).
      assert (0 <= (0.7 + rf) * a) by (apply Qmult_le_0_compat; lra).
      assert (E' : 1.35 - (1 + rf * (0.5 - a))
                   == (0.7 - rf) * (0.5 - a) + 0.7 * a) by ring.
      assert (0 <= 0.7 * a) by (apply Qmult_le_0_compat; lra).
      lra. }
    assert (0 <= a * (1.35 - (1 + rf * (0.5 - a))))
      by (apply Qmult_le_0_compat; lra).
    assert (a * 1.35 <= 0.675) by lra.
    lra. }
  apply Q.max_lub_lt.
  - eapply Qlt_le_trans; [|apply Q.le_max_r]. apply Q.min_glb_lt; lra.
  - eapply Qle_lt_trans; [apply Q.le_min_r|].
    eapply Qlt_le_trans; [|apply Q.le_max_r].
    apply Q.min_glb_lt; lra.
Qed.

(** X3: no risk profile reorders the outcomes of a probability triple: an
    outcome that is less probable than another by at least 1e-9 before the
    adjustment is strictly less probable after it. *)
Theorem adjustMatchProbabilities_keeps_order (p : Triple) (profile : RiskProfile)
    (o o' : Outcome) :
  0 <= home p -> 0 <= draw p -> 0 <= away p ->
  home p + draw p + away p == 1 ->
  prob_of p o + 0.000000001 <= prob_of p o' ->
  prob_of (adjustMatchProbabilities p profile) o
  < prob_of (adjustMatchProbabilities p profile) o'.
Proof.
  intros Hh Hd Ha Hsum Hle.
  destruct (getRiskFactor_range profile) as [Hl Hu].
  assert (Htotal := adjusted_total_positive p (getRiskFactor profile)).
  unfold adjustMatchProbabilities. cbn [home draw away].
  set (rf := getRiskFactor profile) in *.
  set (total := adjustProbabilityForRisk (home p) rf
                + adjustProbabilityForRisk (draw p) rf
                + adjustProbabilityForRisk (away p) rf) in *.
  assert (Hpos : 0 < total) by (apply Htotal; try split; lra).
  clear Htotal. rename Hpos into Htotal.
  assert (Hmono : forall a b, 0 <= a -> a < b -> a + b <= 1 ->
                    adjustProbabilityForRisk a rf / total
                    < adjustProbabilityForRisk b rf / total).
  { intros a b H0 Hab Hs. unfold Qdiv.
    apply Qmult_lt_compat_r.
    - apply Qinv_lt_0_compat, Htotal.
    - apply risk_adjust_strict; assumption. }
  destruct o, o'; cbn [prob_of home draw away] in *;
    try lra; apply Hmono; lra.
Qed.

Lemma adjustMatchProbabilities_keeps_order_witness :
  let p := {| home := 0.5; draw := 0.3; away := 0.2 |} in
  prob_of (adjustMatchProbabilities p "risky"%string) O2
  < prob_of (adjustMatchProbabilities p "risky"%string) O1.
Proof.
  intro p.
  apply (adjustMatchProbabilities_keeps_order p "risky"%string O2 O1);
    vm_compute; solve [discriminate | reflexivity].
Defined.

(** ** Normalised odds *)

Lemma Qinv_antitone (a b : Q) : 0 < a -> a <= b -> 1 / b <= 1 / a.
Proof.
  intros Ha Hab.
  apply Qle_shift_div_l; [lra|].
  assert (E : 1 / b * a == a / b) by (field; lra).
  rewrite E. apply Qle_shift_div_r; lra.
Qed.

(** X4: for odds above 1 every normalised probability is positive and at
    most 1, an outcome with lower odds never gets a lower probability than
    one with higher odds, and it gets a strictly higher one as soon as its
    odds are lower by a factor of at least 1 + 1e-9. *)
Theorem oddsToNormalizedProbabilities_follows_odds (o : Triple) :
  1 < home o -> 1 < draw o -> 1 < away o ->
  let p := oddsToNormalizedProbabilities o in
  (forall x, 0 < prob_of p x /\ prob_of p x <= 1) /\
  (forall x y, prob_of o x <= prob_of o y -> prob_of p y <= prob_of p x) /\
  (forall x y, prob_of o x * 1.000000001 <= prob_of o y ->
               prob_of p y < prob_of p x).
Proof.
  intros Hh Hd Ha p.
  assert (Ih : 0 < 1 / home o) by (apply Qlt_shift_div_l; lra).
  assert (Id : 0 < 1 / draw o) by (apply Qlt_shift_div_l; lra).
  assert (Ia : 0 < 1 / away o) by (apply Qlt_shift_div_l; lra).
  unfold p, oddsToNormalizedProbabilities. cbn [home draw away].
  set (total := 1 / home o + 1 / draw o + 1 / away o).
  assert (Htotal : 0 < total) by (unfold total; lra).
  assert (Hshare : forall i, 0 < i -> i <= total -> 0 < i / total /\ i / total <= 1).
  { intros i Hi Hle. split.
    - apply Qlt_shift_div_l; lra.
    - apply Qle_shift_div_r; lra. }
  split; [|split].
  - intros []; cbn [prob_of home draw away]; apply Hshare; unfold total; lra.
  - assert (Hdiv : forall i j, i <= j -> i / total <= j / total).
    { intros i j Hij. unfold Qdiv. apply Qmult_le_compat_r; [exact Hij|].
      apply Qlt_le_weak, Qinv_lt_0_compat, Htotal. }
    intros x y Hxy.
    destruct x, y; cbn [prob_of home draw away] in *;
      apply Hdiv, Qinv_antitone; lra.
  - assert (Hdiv : forall i j, i < j -> i / total < j / total).
    { intros i j Hij. unfold Qdiv. apply Qmult_lt_compat_r; [|exact Hij].
      apply Qinv_lt_0_compat, Htotal. }
    assert (Hinv : forall a b, 1 < a -> a * 1.000000001 <= b -> 1 / b < 1 / a).
    { intros a b H1 Hab.
      apply Qlt_shift_div_l; [lra|].
      assert (E : 1 / b * a == a / b) by (field; lra).
      rewrite E. apply Qlt_shift_div_r; lra. }
    intros x y Hxy.
    destruct x, y; cbn [prob_of home draw away] in *;
      try lra; apply Hdiv, Hinv; assumption.
Qed.

Lemma oddsToNormalizedProbabilities_follows_odds_witness :
  let p := oddsToNormalizedProbabilities {| home := 1.85; draw := 3.4; away := 4.5 |} in
  prob_of p O2 < prob_of p O1.
Proof.
  intro p.
  destruct (oddsToNormalizedProbabilities_follows_odds
              {| home := 1.85; draw := 3.4; away := 4.5 |}) as (_ & _ & H).
  - vm_compute; reflexivity.
  - vm_compute; reflexivity.
  - vm_compute; reflexivity.
  - apply (H O1 O2). vm_compute; discriminate.
Defined.




(** ** The weighted draw *)

(** X6: when the random source keeps its contract, the weighted draw from a
    probability triple never returns an outcome of probability 0, and it
    uses exactly one random number. *)
Theorem selectWeightedRandomOutcome_in_support (rand : nat -> Q) (p : Triple) (n : nat) :
  random_contract rand ->
  0 <= home p -> 0 <= draw p -> 0 <= away p ->
  home p + draw p + away p == 1 ->
  exists o,
    selectWeightedRandomOutcome rand p n = Ok (o, S n) /\ 0 < prob_of p o.
Proof.
  intros contract Hh Hd Ha Hsum.
  destruct (contract n) as [H0 H1].
  unfold selectWeightedRandomOutcome, bind, random, ret.
  destruct (Qltb (rand n) (home p)) eqn:E1.
  - apply Qltb_true in E1. exists O1. split; [reflexivity|]. cbn. lra.
  - apply Qltb_false in E1.
    destruct (Qltb (rand n) (home p + draw p)) eqn:E2.
    + apply Qltb_true in E2. exists OX. split; [reflexivity|]. cbn. lra.
    + apply Qltb_false in E2. exists O2. split; [reflexivity|]. cbn. lra.
Qed.

Lemma selectWeightedRandomOutcome_in_support_witness :
  exists o,
    selectWeightedRandomOutcome example_rand {| home := 0.5; draw := 0; away := 0.5 |}
      5%nat = Ok (o, 6%nat) /\
    0 < prob_of {| home := 0.5; draw := 0; away := 0.5 |} o.
Proof.
  apply (selectWeightedRandomOutcome_in_support example_rand
           {| home := 0.5; draw := 0; away := 0.5 |} 5%nat).
  - exact example_rand_contract.
  - vm_compute; discriminate.
  - vm_compute; discriminate.
  - vm_compute; discriminate.
  - vm_compute; reflexivity.
Defined.

(** ** Simulated match days *)

Lemma simulateMatchday_from_bounded (rand : nat -> Q) (predictions : list Outcome)
    (matches : list MatchWithOdds) :
  forall i c n, exists c',
    simulateMatchday_from rand predictions matches i c n
      = Ok (c', (n + List.length matches)%nat) /\
    (c <= c')%nat /\
    (c' <= c + Nat.min (List.length matches) (List.length predictions - i))%nat.
Proof.
  induction matches as [|m rest IH]; intros i c n; cbn [simulateMatchday_from List.length].
  - exists c. unfold ret. rewrite Nat.add_0_r. repeat split; lia.
  - unfold bind at 1.
    destruct (selectWeightedRandomOutcome_ok rand (probabilities m) n) as [o ->].
    destruct (nth_error predictions i) as [p|] eqn:Ep.
    + assert (Hi : (i < List.length predictions)%nat)
        by (apply nth_error_Some; congruence).
      destruct (IH (S i) (if Outcome_eqb p o then S c else c) (S n)) as (c' & E & Hlo & Hhi).
      exists c'. rewrite E. split; [f_equal; f_equal; lia|].
      destruct (Outcome_eqb p o); lia.
    + destruct (IH (S i) c (S n)) as (c' & E & Hlo & Hhi).
      exists c'. rewrite E. split; [f_equal; f_equal; lia|].
      apply nth_error_None in Ep. lia.
Qed.

Lemma simulateMatchday_run (rand : nat -> Q) (predictions : list Outcome)
    (matches : list MatchWithOdds) (n : nat) :
  exists correctCount,
    simulateMatchday rand predictions matches n
      = Ok (correctCount, (n + List.length matches)%nat) /\
    (correctCount <= Nat.min (List.length predictions) (List.length matches))%nat.
Proof.
  unfold simulateMatchday.
  destruct (simulateMatchday_from_bounded rand predictions matches 0 0 n)
    as (c & E & _ & Hhi).
  exists c. split; [exact E|lia].
Qed.

(** X7: one simulated match day draws exactly one random number per match
    and counts at most as many correct predictions as there are matches
    and as the row has predictions. *)
Theorem simulateMatchday_bounded (rand : nat -> Q) (predictions : list Outcome)
    (matches : list MatchWithOdds) (n : nat) :
  exists correctCount,
    simulateMatchday rand predictions matches n
      = Ok (correctCount, (n + List.length matches)%nat) /\
    (correctCount <= Nat.min (List.length predictions) (List.length matches))%nat.
Proof.
  apply simulateMatchday_run.
Qed.

Lemma trial_counts_bounded (rand : nat -> Q) (predictions : list Outcome)
    (matches : list MatchWithOdds) :
  forall trials n,
    Forall (fun c => (c <= Nat.min (List.length predictions) (List.length matches))%nat)
      (trial_counts rand predictions matches trials n).
Proof.
  induction trials as [|k IH]; intro n; cbn [trial_counts]; [constructor|].
  destruct (simulateMatchday_run rand predictions matches n) as (c & -> & Hc).
  constructor; [exact Hc|apply IH].
Qed.

Lemma simulateRow_loop_draws (rand : nat -> Q) (row : GeneratedRow)
    (matches : list MatchWithOdds) :
  forall trials t n,
    simulateRow_loop rand row matches trials t n =
    Ok (fold_left (fun t c => record_trial c t)
          (trial_counts rand (outcomes row) matches trials n) t,
        (n + trials * List.length matches)%nat).
Proof.
  induction trials as [|k IH]; intros t n; cbn [simulateRow_loop trial_counts].
  - unfold ret. f_equal. f_equal. lia.
  - unfold bind at 1.
    destruct (simulateMatchday_run rand (outcomes row) matches n) as (c & -> & _).
    cbn [fold_left]. rewrite IH. f_equal. f_equal. lia.
Qed.

Lemma incr_if_cases (b : bool) (m : nat) :
  incr_if b m = (if b then S m else m).
Proof. reflexivity. Qed.

(** The at-least tallies are cumulative sums of the exact tallies as long
    as no trial counts more than 13. *)
Lemma recorded_cumulative (counts : list nat) :
  Forall (fun c => (c <= 13)%nat) counts ->
  forall t,
    (atLeast13 (results t) = exactly13 (results t) /\
     atLeast12 (results t) = exactly12 (results t) + atLeast13 (results t) /\
     atLeast11 (results t) = exactly11 (results t) + atLeast12 (results t) /\
     atLeast10 (results t) = exactly10 (results t) + atLeast11 (results t))%nat ->
    let r := results (fold_left (fun t c => record_trial c t) counts t) in
    (atLeast13 r = exactly13 r /\
     atLeast12 r = exactly12 r + atLeast13 r /\
     atLeast11 r = exactly11 r + atLeast12 r /\
     atLeast10 r = exactly10 r + atLeast11 r)%nat.
Proof.
  induction 1 as [|c counts Hc _ IH]; intros t Ht; cbn [fold_left]; [exact Ht|].
  apply IH.
  unfold record_trial. cbn [results exactly10 exactly11 exactly12 exactly13
                            atLeast10 atLeast11 atLeast12 atLeast13].
  rewrite !incr_if_cases.
  destruct Ht as (H13 & H12 & H11 & H10).
  destruct (Nat.eqb_spec c 10), (Nat.eqb_spec c 11), (Nat.eqb_spec c 12),
    (Nat.eqb_spec c 13), (Nat.leb_spec 10 c), (Nat.leb_spec 11 c),
    (Nat.leb_spec 12 c), (Nat.leb_spec 13 c); lia.
Qed.

Lemma recorded_chain (counts : list nat) :
  forall t,
    (atLeast13 (results t) <= atLeast12 (results t) /\
     atLeast12 (results t) <= atLeast11 (results t) /\
     atLeast11 (results t) <= atLeast10 (results t))%nat ->
    let t' := fold_left (fun t c => record_trial c t) counts t in
    (atLeast13 (results t') <= atLeast12 (results t') /\
     atLeast12 (results t') <= atLeast11 (results t') /\
     atLeast11 (results t') <= atLeast10 (results t') /\
     atLeast10 (results t') <= atLeast10 (results t) + List.length counts)%nat.
Proof.
  induction counts as [|c counts IH]; intros t Ht; cbn [fold_left List.length].
  - cbv zeta. lia.
  - specialize (IH (record_trial c t)). cbv zeta in IH |- *.
    assert (Hstep :
      (atLeast13 (results (record_trial c t)) <= atLeast12 (results (record_trial c t)) /\
       atLeast12 (results (record_trial c t)) <= atLeast11 (results (record_trial c t)) /\
       atLeast11 (results (record_trial c t)) <= atLeast10 (results (record_trial c t)) /\
       atLeast10 (results (record_trial c t)) <= S (atLeast10 (results t)))%nat).
    { unfold record_trial. cbn [results atLeast10 atLeast11 atLeast12 atLeast13].
      rewrite !incr_if_cases.
      destruct (Nat.leb_spec 10 c), (Nat.leb_spec 11 c),
        (Nat.leb_spec 12 c), (Nat.leb_spec 13 c); lia. }
    destruct Hstep as (St1 & St2 & St3 & St4).
    destruct (IH (conj St1 (conj St2 St3))) as (I1 & I2 & I3 & I4).
    lia.
Qed.

Lemma recorded_total (counts : list nat) (bound : nat) :
  Forall (fun c => (c <= bound)%nat) counts ->
  forall t,
    (totalCorrect (fold_left (fun t c => record_trial c t) counts t)
     <= totalCorrect t + List.length counts * bound)%nat.
Proof.
  induction 1 as [|c counts Hc _ IH]; intro t; cbn [fold_left List.length]; [lia|].
  specialize (IH (record_trial c t)).
  change (totalCorrect (record_trial c t)) with (totalCorrect t + c)%nat in IH.
  rewrite Nat.mul_succ_l. lia.
Qed.

Lemma recorded_below_ten (counts : list nat) :
  Forall (fun c => (c < 10)%nat) counts ->
  forall t, results (fold_left (fun t c => record_trial c t) counts t) = results t.
Proof.
  induction 1 as [|c counts Hc _ IH]; intro t; cbn [fold_left]; [reflexivity|].
  rewrite IH. unfold record_trial. cbn [results]. rewrite !incr_if_cases.
  destruct (Nat.eqb_spec c 10), (Nat.eqb_spec c 11), (Nat.eqb_spec c 12),
    (Nat.eqb_spec c 13), (Nat.leb_spec 10 c), (Nat.leb_spec 11 c),
    (Nat.leb_spec 12 c), (Nat.leb_spec 13 c); try lia.
  destruct (results t); reflexivity.
Qed.

Lemma Q_of_nat_plus (a b : nat) : Q_of_nat (a + b) == Q_of_nat a + Q_of_nat b.
Proof.
  unfold Q_of_nat. rewrite Nat2Z.inj_add, inject_Z_plus. reflexivity.
Qed.

Lemma Q_of_nat_le (a b : nat) : (a <= b)%nat -> Q_of_nat a <= Q_of_nat b.
Proof.
  intro H. unfold Q_of_nat. rewrite <- Zle_Qle. lia.
Qed.

Lemma Q_of_nat_pos (a : nat) : (0 < a)%nat -> 0 < Q_of_nat a.
Proof.
  intro H. unfold Q_of_nat. change 0 with (inject_Z 0). rewrite <- Zlt_Qlt. lia.
Qed.

Lemma Q_of_nat_mult (a b : nat) : Q_of_nat (a * b) == Q_of_nat a * Q_of_nat b.
Proof.
  unfold Q_of_nat. rewrite Nat2Z.inj_mul, inject_Z_mult. reflexivity.
Qed.

(** X8: a simulation of at least one trial on a slate of at most 13 matches
    draws one random number per match and trial; its at-least frequencies
    are the cumulative sums of its exact frequencies, they decrease from 10
    to 13 and stay below 1, and the average correct count lies between 0
    and the number of matches. *)
Theorem simulateRow_buckets_consistent (rand : nat -> Q) (row : GeneratedRow)
    (matches : list MatchWithOdds) (trials n : nat) :
  (0 < trials)%nat ->
  (List.length matches <= 13)%nat ->
  exists result,
    simulateRow rand row matches trials n
      = Ok (result, (n + trials * List.length matches)%nat) /\
    let r := correctResults result in
    atLeast13 r == exactly13 r /\
    atLeast12 r == exactly12 r + exactly13 r /\
    atLeast11 r == exactly11 r + exactly12 r + exactly13 r /\
    atLeast10 r == exactly10 r + exactly11 r + exactly12 r + exactly13 r /\
    (atLeast13 r <= atLeast12 r /\ atLeast12 r <= atLeast11 r /\
     atLeast11 r <= atLeast10 r /\ atLeast10 r <= 1) /\
    0 <= averageCorrect result /\
    averageCorrect result <= Q_of_nat (List.length matches).
Proof.
  intros Htrials Hlen.
  unfold simulateRow, bind. rewrite simulateRow_loop_draws. unfold ret.
  eexists. split; [reflexivity|].
  set (counts := trial_counts rand (outcomes row) matches trials n).
  pose proof (trial_counts_length rand (outcomes row) matches trials n) as Hcount.
  fold counts in Hcount.
  pose proof (trial_counts_bounded rand (outcomes row) matches trials n) as Hbound.
  fold counts in Hbound.
  assert (H13 : Forall (fun c => (c <= 13)%nat) counts).
  { eapply Forall_impl; [|exact Hbound]. cbv beta. intros c Hc. lia. }
  assert (Hm : Forall (fun c => (c <= List.length matches)%nat) counts).
  { eapply Forall_impl; [|exact Hbound]. cbv beta. intros c Hc. lia. }
  destruct (recorded_cumulative counts H13 initial_tally) as (C13 & C12 & C11 & C10);
    [cbn; lia|].
  destruct (recorded_chain counts initial_tally) as (M13 & M12 & M11 & M10);
    [cbn; lia|].
  pose proof (recorded_total counts (List.length matches) Hm initial_tally) as Htot.
  cbn [initial_tally totalCorrect results atLeast10 Nat.add] in Htot, M10.
  set (t := fold_left (fun t c => record_trial c t) counts initial_tally) in *.
  cbv zeta. cbn [correctResults averageCorrect exactly10 exactly11 exactly12 exactly13
                 atLeast10 atLeast11 atLeast12 atLeast13].
  assert (Hn : 0 < Q_of_nat trials) by (apply Q_of_nat_pos, Htrials).
  assert (Hdiv : forall a b, (a <= b)%nat ->
                   Q_of_nat a / Q_of_nat trials <= Q_of_nat b / Q_of_nat trials).
  { intros a b Hab. unfold Qdiv. apply Qmult_le_compat_r; [apply Q_of_nat_le, Hab|].
    apply Qlt_le_weak, Qinv_lt_0_compat, Hn. }
  assert (Hadd : forall a b,
             Q_of_nat (a + b) / Q_of_nat trials
             == Q_of_nat a / Q_of_nat trials + Q_of_nat b / Q_of_nat trials).
  { intros a b. rewrite Q_of_nat_plus. unfold Qdiv. ring. }
  rewrite Hcount in *.
  split; [rewrite C13; reflexivity|].
  split; [rewrite C12, C13, Hadd; reflexivity|].
  split; [rewrite C11, C12, C13, !Hadd; ring|].
  split; [rewrite C10, C11, C12, C13, !Hadd; ring|].
  split.
  { repeat split; try (apply Hdiv; assumption).
    apply Qle_shift_div_r; [exact Hn|]. rewrite Qmult_1_l. apply Q_of_nat_le, M10. }
  split.
  - apply Qle_shift_div_l; [exact Hn|]. rewrite Qmult_0_l.
    change 0 with (Q_of_nat 0). apply Q_of_nat_le. lia.
  - apply Qle_shift_div_r; [exact Hn|].
    rewrite <- Q_of_nat_mult. apply Q_of_nat_le. lia.
Qed.

Lemma simulateRow_buckets_consistent_witness :
  exists result,
    simulateRow example_rand example_row (firstn 2 example_slate) 3%nat 0%nat
      = Ok (result, 6%nat) /\
    atLeast10 (correctResults result) <= 1.
Proof.
  destruct (simulateRow_buckets_consistent example_rand example_row
              (firstn 2 example_slate) 3%nat 0%nat)
    as (result & E & _ & _ & _ & _ & (_ & _ & _ & H) & _).
  - lia.
  - cbn. lia.
  - exists result. split; [exact E|exact H].
Defined.

(** X9: when the row has fewer than 10 predictions or the slate fewer than
    10 matches, no trial can reach 10 correct: all eight frequencies and the
    expected payout of the simulation are 0. *)
Theorem simulateRow_short_slate_pays_nothing (rand : nat -> Q) (row : GeneratedRow)
    (matches : list MatchWithOdds) (trials n : nat) :
  (0 < trials)%nat ->
  (Nat.min (List.length (outcomes row)) (List.length matches) < 10)%nat ->
  exists result n',
    simulateRow rand row matches trials n = Ok (result, n') /\
    let r := correctResults result in
    (exactly10 r == 0 /\ exactly11 r == 0 /\ exactly12 r == 0 /\ exactly13 r == 0) /\
    (atLeast10 r == 0 /\ atLeast11 r == 0 /\ atLeast12 r == 0 /\ atLeast13 r == 0) /\
    sim_expectedPayout result == 0.
Proof.
  intros _ Hshort.
  unfold simulateRow, bind. rewrite simulateRow_loop_draws. unfold ret.
  eexists. eexists. split; [reflexivity|].
  rewrite recorded_below_ten.
  2:{ eapply Forall_impl; [|apply trial_counts_bounded]. cbv beta. intros c Hc. lia. }
  cbv zeta.
  cbn [correctResults sim_expectedPayout initial_tally results
       exactly10 exactly11 exactly12 exactly13
       atLeast10 atLeast11 atLeast12 atLeast13].
  unfold calculateExpectedPayout.
  cbn [exactly10 exactly11 exactly12 exactly13].
  assert (Ez : Q_of_nat 0 / Q_of_nat trials == 0) by (unfold Qdiv; apply Qmult_0_l).
  rewrite Ez. repeat split; solve [reflexivity | ring].
Qed.

Lemma simulateRow_short_slate_pays_nothing_witness :
  exists result n',
    simulateRow example_rand example_row example_slate 4%nat 0%nat = Ok (result, n') /\
    sim_expectedPayout result == 0.
Proof.
  destruct (simulateRow_short_slate_pays_nothing example_rand example_row
              example_slate 4%nat 0%nat)
    as (result & n' & E & _ & _ & H).
  - lia.
  - cbn. lia.
  - exists result, n'. split; [exact E|exact H].
Defined.

(** ** Slates that are too short *)

Lemma ensures_ret {A : Type} (a : A) (P : A -> Prop) : P a -> ensures (ret a) P.
Proof. intros H n a' n' E. injection E as <- _. exact H. Qed.

Lemma ensures_bind {A B : Type} (m : M A) (k : A -> M B)
    (P : A -> Prop) (Q : B -> Prop) :
  ensures m P -> (forall a, P a -> ensures (k a) Q) -> ensures (bind m k) Q.
Proof.
  intros Hm Hk n b n' E. unfold bind in E.
  destruct (m n) as [[a n1]|e] eqn:Em; [|discriminate].
  eapply Hk; [eapply Hm; exact Em|exact E].
Qed.

Lemma ensures_any {A : Type} (m : M A) : ensures m (fun _ => True).
Proof. intros n a n' _. exact I. Qed.

Lemma ensures_throw {A : Type} (e : Exn) (P : A -> Prop) : ensures (throw e) P.
Proof. intros n a n' E. discriminate. Qed.

Lemma ensures_weaken {A : Type} (m : M A) (P Q : A -> Prop) :
  ensures m P -> (forall a, P a -> Q a) -> ensures m Q.
Proof. intros Hm HPQ n a n' E. apply HPQ. eapply Hm, E. Qed.

Lemma ensures_random_swap (rand : nat -> Q) {A : Type} (l : list A) :
  ensures (random_swap rand l) (fun l' => Permutation l' l).
Proof.
  unfold random_swap.
  eapply ensures_bind; [apply ensures_any|]. intros i _.
  eapply ensures_bind; [apply ensures_any|]. intros j _.
  destruct (swap i j l) as [l'|] eqn:E.
  - apply ensures_ret. eapply swap_Permutation, E.
  - apply ensures_throw.
Qed.

Lemma ensures_random_swaps (rand : nat -> Q) {A : Type} (count : nat) :
  forall l : list A,
    ensures (random_swaps rand count l) (fun l' => Permutation l' l).
Proof.
  induction count as [|count IH]; intro l; cbn [random_swaps].
  - apply ensures_ret. reflexivity.
  - eapply ensures_bind; [apply ensures_random_swap|].
    intros l' Hl'. eapply ensures_weaken; [apply IH|].
    intros l'' Hl''. cbv beta in *. rewrite Hl''. exact Hl'.
Qed.

Lemma ensures_add_noise (rand : nat -> Q) (l : list StrategicMatch) :
  ensures (add_noise rand l) (fun l' => map order_key l' = map order_key l).
Proof.
  induction l as [|x l IH]; cbn [add_noise].
  - apply ensures_ret. reflexivity.
  - eapply ensures_bind; [apply ensures_any|]. intros r _.
    eapply ensures_bind; [apply IH|]. intros l' E.
    apply ensures_ret. cbn [map]. rewrite E. reflexivity.
Qed.

(** Whatever the random source does, a reordering that returns has kept
    the strategic matches. *)
Lemma ensures_randomize_order (rand : nat -> Q) (riskProfile : RiskProfile)
    (l : list StrategicMatch) :
  ensures (randomize_order rand riskProfile l)
    (fun l' => Permutation (map order_key l') (map order_key l)).
Proof.
  unfold randomize_order.
  destruct (String.eqb riskProfile "risky").
  - eapply ensures_bind; [apply ensures_add_noise|]. intros noisy Enoisy.
    eapply ensures_bind; [apply ensures_any|]. intros r _.
    eapply ensures_bind; [apply ensures_random_swaps|]. intros swapped Hswapped.
    assert (Hkeys : Permutation (map order_key swapped) (map order_key l)).
    { rewrite <- Enoisy. apply Permutation_map.
      cbv beta in Hswapped. rewrite Hswapped. apply sort_desc_Permutation. }
    eapply ensures_bind; [apply ensures_any|]. intros r' _.
    destruct (Qltb r' 0.3); apply ensures_ret; [|exact Hkeys].
    rewrite <- Hkeys. apply Permutation_map, Permutation_sym, Permutation_rev.
  - destruct (String.eqb riskProfile "balanced").
    + eapply ensures_bind; [apply ensures_any|]. intros r _.
      destruct (Qltb r 0.7); [|apply ensures_ret; reflexivity].
      eapply ensures_bind; [apply ensures_random_swaps|].
      intros middle' Hmiddle. apply ensures_ret. apply Permutation_map.
      cbv beta in Hmiddle. rewrite Hmiddle.
      rewrite <- (firstn_skipn 4 l) at 4.
      apply Permutation_app_head.
      rewrite <- (firstn_skipn 5 (skipn 4 l)) at 2.
      rewrite skipn_skipn. reflexivity.
    + apply ensures_ret. reflexivity.
Qed.

Lemma ensures_assign_outcomes (rand : nat -> Q) (config : SystemConfiguration)
    (riskProfile : RiskProfile) :
  forall (order : list StrategicMatch) (systemMatches : list (option SystemMatch))
         (halvesAssigned fullsAssigned : nat),
    ensures
      (assign_outcomes rand config riskProfile order systemMatches
         halvesAssigned fullsAssigned)
      (fun systemMatches' =>
         exists assigned,
           List.length assigned = List.length order /\
           systemMatches' =
             fold_left write (combine (map index order) assigned) systemMatches).
Proof.
  induction order as [|x order IH]; intros systemMatches ha fa; cbn [assign_outcomes].
  - apply ensures_ret. exists []. split; reflexivity.
  - destruct (Z.of_nat ha <? halves (distribution config))%Z.
    + eapply ensures_bind; [apply ensures_any|]. intros s _.
      eapply ensures_weaken; [apply IH|].
      intros arr (assigned & Hlen & ->).
      eexists (_ :: assigned). split; [cbn; rewrite Hlen; reflexivity|reflexivity].
    + destruct (Z.of_nat fa <? fulls (distribution config))%Z.
      * eapply ensures_weaken; [apply IH|].
        intros arr (assigned & Hlen & ->).
        eexists (_ :: assigned). split; [cbn; rewrite Hlen; reflexivity|reflexivity].
      * eapply ensures_bind; [apply ensures_any|]. intros o _.
        eapply ensures_weaken; [apply IH|].
        intros arr (assigned & Hlen & ->).
        eexists (_ :: assigned). split; [cbn; rewrite Hlen; reflexivity|reflexivity].
Qed.

Lemma array_set_other {V : Type} (v : V) :
  forall (a : list (option V)) i k,
    i <> k -> (k < List.length a)%nat ->
    nth_error (array_set a i v) k = nth_error a k.
Proof.
  induction a as [|x a IH]; intros i k Hne Hk; cbn [List.length] in Hk; [lia|].
  destruct i as [|i], k as [|k]; cbn [array_set nth_error]; try reflexivity.
  - congruence.
  - apply IH; [congruence|lia].
Qed.

Lemma array_set_length_le {V : Type} (v : V) :
  forall (a : list (option V)) i,
    (List.length a <= List.length (array_set a i v))%nat.
Proof.
  induction a as [|x a IH]; intros [|i]; cbn [array_set List.length]; try lia.
  specialize (IH i). lia.
Qed.

Lemma writes_keep_hole {V : Type} (k : nat) (ws : list (nat * V)) :
  Forall (fun w => (fst w < k)%nat) ws ->
  forall a, nth_error a k = Some None ->
    nth_error (fold_left write ws a) k = Some None.
Proof.
  induction 1 as [|w ws Hw _ IH]; intros a Ha; cbn [fold_left]; [exact Ha|].
  apply IH. unfold write.
  rewrite array_set_other; [exact Ha|lia|].
  apply nth_error_Some. congruence.
Qed.

Lemma dense_hole {V : Type} :
  forall (a : list (option V)) k,
    nth_error a k = Some None -> dense a = Throw TypeError.
Proof.
  induction a as [|x a IH]; intros [|k] Hk; cbn [nth_error] in Hk; try discriminate.
  - injection Hk as ->. reflexivity.
  - cbn [dense]. destruct x; [|reflexivity].
    rewrite (IH k Hk). reflexivity.
Qed.

Lemma combine_fst_bound (k : nat) {V : Type} :
  forall (idxs : list nat) (vs : list V),
    Forall (fun i => (i < k)%nat) idxs ->
    Forall (fun w => (fst w < k)%nat) (combine idxs vs).
Proof.
  induction idxs as [|i idxs IH]; intros [|v vs] Hall; cbn [combine]; try constructor.
  - inversion Hall; assumption.
  - apply IH. inversion Hall; assumption.
Qed.

(** X10: a slate of fewer than 13 matches never yields a system: for every
    configuration, profile and random source the generation ends in a
    [TypeError], because the plan array of 13 keeps a hole. *)
Theorem generateSystem_short_slate_throws (rand : nat -> Q) (log2 : Q -> Q)
    (matches : list MatchWithOdds) (config : SystemConfiguration)
    (riskProfile : RiskProfile) (n : nat) :
  (List.length matches < 13)%nat ->
  generateSystem rand log2 matches config riskProfile n = Throw TypeError.
Proof.
  intro Hshort.
  assert (Hplan : ensures (selectSystemOutcomes rand log2 matches config riskProfile)
                    (fun a => dense a = Throw TypeError)).
  { unfold selectSystemOutcomes.
    set (initial := strategic_matches (map (analyzeMatch log2) matches)).
    eapply ensures_bind; [apply ensures_randomize_order|].
    intros order Horder. cbv beta in Horder.
    assert (Hidx : Forall (fun i => (i < 12)%nat) (map index order)).
    { assert (Hp : Permutation (map index order) (map index initial)).
      { replace (map index order) with (map fst (map order_key order))
          by (rewrite map_map; reflexivity).
        replace (map index initial) with (map fst (map order_key initial))
          by (rewrite map_map; reflexivity).
        apply Permutation_map. rewrite Horder.
        apply Permutation_map, sort_desc_Permutation. }
      eapply Permutation_Forall; [apply Permutation_sym, Hp|].
      unfold initial. rewrite strategic_matches_index, length_map.
      apply Forall_forall. intros i Hi. apply in_seq in Hi. lia. }
    eapply ensures_weaken; [apply ensures_assign_outcomes|].
    intros a (assigned & _ & ->).
    apply (dense_hole _ 12).
    apply writes_keep_hole; [apply combine_fst_bound, Hidx|reflexivity]. }
  unfold generateSystem, bind.
  destruct (selectSystemOutcomes rand log2 matches config riskProfile n)
    as [[a n1]|[]] eqn:E; [|reflexivity].
  unfold lift, generateAllSystemRows.
  rewrite (Hplan n a n1 E). reflexivity.
Qed.

Lemma generateSystem_short_slate_throws_witness :
  generateSystem example_rand example_log2 (firstn 12 example_slate) system_96
    "risky"%string 0%nat = Throw TypeError.
Proof.
  apply (generateSystem_short_slate_throws example_rand example_log2
           (firstn 12 example_slate) system_96 "risky"%string 0%nat).
  cbn. lia.
Defined.

(** ** Recommendations of the match analysis *)

(** X11: the value pick is an outcome of maximal expected value
    [odds * probability - 1]; no other outcome has a larger one. *)
Theorem getValuePick_maximizes_expected_value (o p : Triple) (x : Outcome) :
  prob_of (calculateExpectedValues o p) x
  <= prob_of (calculateExpectedValues o p) (getValuePick o p).
Proof.
  unfold getValuePick, calculateExpectedValues.
  destruct (Qgeb (home o * home p - 1) (draw o * draw p - 1)) eqn:E1;
    [apply Qgeb_true in E1|apply Qgeb_false in E1];
  destruct (Qgeb (home o * home p - 1) (away o * away p - 1)) eqn:E2;
    [apply Qgeb_true in E2|apply Qgeb_false in E2| |];
  cbn [andb];
  try (destruct (Qgeb (draw o * draw p - 1) (away o * away p - 1)) eqn:E3;
       [apply Qgeb_true in E3|apply Qgeb_false in E3]);
  destruct x; cbn [prob_of home draw away]; lra.
Qed.

Lemma calculateHomeAdvantage_range (homeTeam awayTeam : string) (league : option string) :
  0.5 <= calculateHomeAdvantage homeTeam awayTeam league /\
  calculateHomeAdvantage homeTeam awayTeam league <= 0.68.
Proof.
  unfold calculateHomeAdvantage.
  destruct (league_includes league "Premier League"),
    (league_includes league "La Liga"),
    (league_includes league "Serie A"),
    (league_includes league "Bundesliga"),
    (league_includes league "Allsvenskan"),
    (existsb (fun team => includes awayTeam team) bigTeams);
    vm_compute; split; discriminate.
Qed.

Lemma clamp_unit_range (x : Q) : 0 <= Qmax 0 (Qmin 1 x) /\ Qmax 0 (Qmin 1 x) <= 1.
Proof.
  split; [apply Q.le_max_l|].
  apply Q.max_lub; [lra|apply Q.le_min_l].
Qed.

Lemma calculateContrarianScore_range (o : Triple) (data : option SvenskaSpelData) :
  0 <= calculateContrarianScore o data /\ calculateContrarianScore o data <= 1.
Proof.
  unfold calculateContrarianScore.
  destruct (option_map svenskaFolket data) as [[sf|]|]; try (split; lra).
  destruct (Qeq_bool _ 0); [split; lra|].
  cbn [home draw away]. split; [|apply Q.le_min_l].
  apply Q.min_glb; [lra|].
  apply Qle_shift_div_l; [reflexivity|]. rewrite Qmult_0_l.
  repeat match goal with
         | |- 0 <= _ + _ => apply Qle_trans with (0 + 0); [lra|apply Qplus_le_compat]
         | |- 0 <= Qabs _ => apply Qabs_nonneg
         end.
Qed.

Lemma calculateExpertConsensus_le_one (tips : option Triple) :
  match tips with
  | Some t => 0 <= home t /\ 0 <= draw t /\ 0 <= away t
  | None => True
  end ->
  calculateExpertConsensus tips <= 1.
Proof.
  destruct tips as [t|]; cbn [calculateExpertConsensus]; [|intros _; lra].
  intros (Hh & Hd & Ha).
  destruct (Qeq_bool (home t + draw t + away t) 0) eqn:E; [lra|].
  apply Qeq_bool_neq in E.
  assert (Hpos : 0 < home t + draw t + away t).
  { assert (H : 0 <= home t + draw t + away t) by lra.
    apply Qle_lt_or_eq in H as [H|H]; [exact H|]. symmetry in H. contradiction. }
  apply Qle_shift_div_r; [exact Hpos|].
  unfold Qmax3. apply Q.max_lub; [apply Q.max_lub|]; lra.
Qed.

(** X12: for a match with odds above 1 and probabilities in [[0,1]] the
    scores of the analysis stay in their ranges: value score, contrarian
    score and overall confidence in [[0,1]], home advantage between 0.5 and
    0.68, and, when no tip count is negative, expert consensus in [[0,1]]. *)
Theorem analyzeMatch_scores_in_range (log2 : Q -> Q) (m : MatchWithOdds) :
  (forall o, 1 < prob_of (odds m) o) ->
  (forall o, 0 <= prob_of (probabilities m) o /\ prob_of (probabilities m) o <= 1) ->
  let a := analyzeMatch log2 m in
  (0 <= valueScore (scores a) /\ valueScore (scores a) <= 1) /\
  (0.5 <= homeAdvantage (scores a) /\ homeAdvantage (scores a) <= 0.68) /\
  (0 <= contrarian (scores a) /\ contrarian (scores a) <= 1) /\
  (0 <= confidence (recommendations a) /\ confidence (recommendations a) <= 1) /\
  (tips_nonnegative m ->
   0 <= expertConsensus (scores a) /\ expertConsensus (scores a) <= 1).
Proof.
  intros _ _. cbv zeta. unfold analyzeMatch.
  cbn [scores recommendations valueScore homeAdvantage contrarian expertConsensus].
  split; [apply clamp_unit_range|].
  split; [apply calculateHomeAdvantage_range|].
  split; [apply calculateContrarianScore_range|].
  split; [unfold generateRecommendations; cbn [confidence];
          unfold calculateOverallConfidence; apply clamp_unit_range|].
  intro Htips.
  assert (Hwf : match (match svenskaSpelData m with
                       | Some d => expertTips d
                       | None => None
                       end) with
                | Some t => 0 <= home t /\ 0 <= draw t /\ 0 <= away t
                | None => True
                end).
  { unfold tips_nonnegative in Htips.
    destruct (svenskaSpelData m) as [d|]; [|exact I].
    destruct (expertTips d); [exact Htips|exact I]. }
  split; [apply calculateExpertConsensus_nonneg, Hwf
         |apply calculateExpertConsensus_le_one, Hwf].
Qed.

Lemma analyzeMatch_scores_in_range_witness :
  0 <= expertConsensus (scores (analyzeMatch example_log2 example_tipped_match)) /\
  expertConsensus (scores (analyzeMatch example_log2 example_tipped_match)) <= 1.
Proof.
  apply (analyzeMatch_scores_in_range example_log2 example_tipped_match).
  - intros []; vm_compute; reflexivity.
  - intros []; vm_compute; split; discriminate.
  - vm_compute. repeat split; discriminate.
Defined.

Lemma Qmin3_le (a b c : Q) : Qmin3 a b c <= a /\ Qmin3 a b c <= b /\ Qmin3 a b c <= c.
Proof.
  unfold Qmin3. repeat split.
  - eapply Qle_trans; [apply Q.le_min_l|apply Q.le_min_l].
  - eapply Qle_trans; [apply Q.le_min_l|apply Q.le_min_r].
  - apply Q.le_min_r.
Qed.

Lemma Qmin3_cases (a b c : Q) :
  Qmin3 a b c == a \/ Qmin3 a b c == b \/ Qmin3 a b c == c.
Proof.
  unfold Qmin3.
  destruct (Q.min_spec (Qmin a b) c) as [[_ E]|[_ E]]; [|right; right; exact E].
  destruct (Q.min_spec a b) as [[_ E']|[_ E']]; rewrite E; [left|right; left]; exact E'.
Qed.

(** X13: when the contrarian score of a match reaches 0.3 there are public
    betting percentages, and the contrarian recommendation is an outcome
    with the smallest share of the public's bets. *)
Theorem analyzeMatch_contrarian_is_least_backed (log2 : Q -> Q) (m : MatchWithOdds) :
  0.3 <= contrarian (scores (analyzeMatch log2 m)) ->
  exists d sf,
    svenskaSpelData m = Some d /\ svenskaFolket d = Some sf /\
    let total := home sf + draw sf + away sf in
    ~ total == 0 /\
    forall x,
      prob_of sf (contrarianPick (recommendations (analyzeMatch log2 m))) / total
      <= prob_of sf x / total.
Proof.
  unfold analyzeMatch.
  cbn [scores recommendations contrarian generateRecommendations contrarianPick
       match_].
  intro Hscore.
  destruct (svenskaSpelData m) as [d|] eqn:Ed.
  2:{ exfalso. cbn in Hscore. lra. }
  destruct (svenskaFolket d) as [sf|] eqn:Esf.
  2:{ exfalso. unfold calculateContrarianScore in Hscore.
      cbn [option_map] in Hscore. rewrite Esf in Hscore. lra. }
  exists d, sf. split; [reflexivity|]. split; [exact Esf|].
  set (score := calculateContrarianScore (odds m) (Some d)) in *.
  assert (Htotal : Qeq_bool (home sf + draw sf + away sf) 0 = false).
  { destruct (Qeq_bool (home sf + draw sf + away sf) 0) eqn:E; [|reflexivity].
    exfalso. unfold score, calculateContrarianScore in Hscore.
    cbn [option_map] in Hscore. rewrite Esf, E in Hscore. lra. }
  cbv zeta. split; [apply Qeq_bool_neq, Htotal|].
  unfold getContrarianPick.
  replace (Qeq_bool score 0) with false.
  2:{ symmetry. destruct (Qeq_bool score 0) eqn:E; [|reflexivity].
      apply Qeq_bool_iff in E. lra. }
  replace (Qltb score 0.3) with false by (symmetry; apply Qltb_false, Hscore).
  cbn [orb]. rewrite Htotal. cbn [home draw away].
  set (total := home sf + draw sf + away sf).
  destruct (Qmin3_le (home sf / total) (draw sf / total) (away sf / total))
    as (Lh & Ld & La).
  destruct (Qeq_bool (home sf / total) _) eqn:E1.
  - apply Qeq_bool_iff in E1. intros []; cbn [prob_of]; try apply Qle_refl; rewrite E1; assumption.
  - destruct (Qeq_bool (draw sf / total) _) eqn:E2.
    + apply Qeq_bool_iff in E2. intros []; cbn [prob_of]; try apply Qle_refl; rewrite E2; assumption.
    + apply Qeq_bool_neq in E1, E2.
      destruct (Qmin3_cases (home sf / total) (draw sf / total) (away sf / total))
        as [E|[E|E]].
      * symmetry in E. contradiction.
      * symmetry in E. contradiction.
      * intros []; cbn [prob_of]; try apply Qle_refl; rewrite <- E; assumption.
Qed.

Lemma analyzeMatch_contrarian_is_least_backed_witness :
  exists d sf,
    svenskaSpelData example_contrarian_match = Some d /\ svenskaFolket d = Some sf.
Proof.
  destruct (analyzeMatch_contrarian_is_least_backed example_log2
              example_contrarian_match) as (d & sf & Ed & Esf & _).
  - vm_compute. discriminate.
  - exists d, sf. split; assumption.
Defined.

(** ** Expected values of the rows of a system *)

Lemma fold_left_Qplus_acc (l : list Q) (a : Q) :
  fold_left Qplus l a == a + fold_left Qplus l 0.
Proof.
  revert a. induction l as [|x l IH]; intro a; cbn [fold_left]; [ring|].
  rewrite IH, (IH (0 + x)). ring.
Qed.

Lemma Qsum_cons (x : Q) (l : list Q) : Qsum (x :: l) == x + Qsum l.
Proof.
  unfold Qsum. cbn [fold_left]. rewrite fold_left_Qplus_acc. ring.
Qed.

Lemma Qsum_app (l l' : list Q) : Qsum (l ++ l') == Qsum l + Qsum l'.
Proof.
  induction l as [|x l IH]; cbn [app].
  - unfold Qsum at 2. cbn [fold_left]. ring.
  - rewrite !Qsum_cons, IH. ring.
Qed.

Lemma Qsum_map_ext {A : Type} (f g : A -> Q) (l : list A) :
  (forall x, In x l -> f x == g x) -> Qsum (map f l) == Qsum (map g l).
Proof.
  induction l as [|x l IH]; intro H; cbn [map]; [reflexivity|].
  rewrite !Qsum_cons.
  rewrite IH by (intros y Hy; apply H; now right).
  rewrite (H x) by now left.
  reflexivity.
Qed.

Lemma Qsum_map_plus {A : Type} (f g : A -> Q) (l : list A) :
  Qsum (map (fun x => f x + g x) l) == Qsum (map f l) + Qsum (map g l).
Proof.
  induction l as [|x l IH]; cbn [map].
  - unfold Qsum. cbn. ring.
  - rewrite !Qsum_cons, IH. ring.
Qed.

Lemma Qsum_map_scale {A : Type} (k : Q) (f : A -> Q) (l : list A) :
  Qsum (map (fun x => k * f x) l) == k * Qsum (map f l).
Proof.
  induction l as [|x l IH]; cbn [map].
  - change (Qsum []) with 0. ring.
  - rewrite !Qsum_cons, IH. ring.
Qed.

Lemma Qsum_map_const {A : Type} (c : Q) (l : list A) :
  Qsum (map (fun _ => c) l) == Q_of_nat (List.length l) * c.
Proof.
  induction l as [|x l IH]; cbn [map List.length].
  - unfold Qsum. cbn [fold_left]. change (Q_of_nat 0) with 0. ring.
  - rewrite Qsum_cons, IH.
    change (S (List.length l)) with (1 + List.length l)%nat.
    rewrite Q_of_nat_plus. change (Q_of_nat 1) with 1. ring.
Qed.

Lemma Qsum_flat_map {A : Type} (f : A -> list Q) (l : list A) :
  Qsum (flat_map f l) == Qsum (map (fun x => Qsum (f x)) l).
Proof.
  induction l as [|x l IH]; cbn [flat_map map]; [reflexivity|].
  rewrite Qsum_app, Qsum_cons, IH. reflexivity.
Qed.

Lemma fold_left_sum_map {A : Type} (f : A -> Q) (l : list A) :
  forall a, fold_left (fun sum x => sum + f x) l a == a + Qsum (map f l).
Proof.
  induction l as [|x l IH]; intro a; cbn [fold_left map].
  - unfold Qsum. cbn. ring.
  - rewrite IH, Qsum_cons. ring.
Qed.

(** The reduction of [calculateRowExpectedCorrect] adds up the picked
    probabilities. *)
Lemma calculateRowExpectedCorrect_sum (plan : list SystemMatch) :
  forall (row : list Outcome) (start : nat) (acc q : Q),
    reduce_indexed
      (fun total outcome index =>
         match nth_error plan index with
         | None => Throw TypeError
         | Some match_ =>
             match outcome with
             | O1 => Ok (total + home (probabilities (sm_match match_)))
             | OX => Ok (total + draw (probabilities (sm_match match_)))
             | O2 => Ok (total + away (probabilities (sm_match match_)))
             end
         end)
      row start acc = Ok q ->
    q == acc + Qsum (picked_probabilities row (skipn start plan)).
Proof.
  induction row as [|o row IH]; intros start acc q E; cbn [reduce_indexed] in E.
  - injection E as <-. unfold picked_probabilities, Qsum. cbn. ring.
  - destruct (nth_error plan start) as [m|] eqn:Em; [|discriminate].
    assert (Hskip : skipn start plan = m :: skipn (S start) plan).
    { clear - Em. revert start Em.
      induction plan as [|x plan IHp]; intros [|s] Em; cbn in *; try discriminate.
      - congruence.
      - apply IHp, Em. }
    rewrite Hskip. unfold picked_probabilities. cbn [combine map fst snd].
    rewrite Qsum_cons. fold (picked_probabilities row (skipn (S start) plan)).
    destruct o; cbn [Res_bind] in E; apply IH in E; rewrite E; cbn [prob_of]; ring.
Qed.

Lemma estimateRowPayout_product (plan : list SystemMatch) :
  forall (row : list Outcome) (start : nat) (acc q : Q),
    reduce_indexed
      (fun product outcome index =>
         match nth_error plan index with
         | None => Throw TypeError
         | Some match_ =>
             let odds_ :=
               match outcome with
               | O1 => home (odds (sm_match match_))
               | OX => draw (odds (sm_match match_))
               | O2 => away (odds (sm_match match_))
               end in
             Ok (product * odds_)
         end)
      row start acc = Ok q ->
    q == fold_left Qmult (picked_odds row (skipn start plan)) acc.
Proof.
  induction row as [|o row IH]; intros start acc q E; cbn [reduce_indexed] in E.
  - injection E as <-. reflexivity.
  - destruct (nth_error plan start) as [m|] eqn:Em; [|discriminate].
    assert (Hskip : skipn start plan = m :: skipn (S start) plan).
    { clear - Em. revert start Em.
      induction plan as [|x plan IHp]; intros [|s] Em; cbn in *; try discriminate.
      - congruence.
      - apply IHp, Em. }
    rewrite Hskip. unfold picked_odds. cbn [combine map fst snd fold_left].
    fold (picked_odds row (skipn (S start) plan)).
    cbn [Res_bind] in E. apply IH in E. rewrite E.
    destruct o; reflexivity.
Qed.

(** What [generateAllSystemRows] stores in each row of a dense plan. *)
Lemma generateAllSystemRows_content (plan : list SystemMatch) (riskProfile : RiskProfile)
    (rows : list GeneratedRow) :
  generateAllSystemRows (map Some plan) riskProfile = Ok rows ->
  map outcomes rows = generateOutcomeCombinations plan /\
  map row_index rows = seq 0 (List.length rows) /\
  Forall
    (fun row =>
       expectedCorrect row == Qsum (picked_probabilities (outcomes row) plan) /\
       expectedPayout row
         == Qmin (Qproduct (picked_odds (outcomes row) plan) * 0.65) 100000 /\
       row_riskProfile row = riskProfile)
    rows.
Proof.
  unfold generateAllSystemRows. rewrite dense_map_Some. cbn [Res_bind].
  generalize (generateOutcomeCombinations plan) as combos.
  generalize 0%nat as start.
  intros start combos. revert start rows.
  induction combos as [|c combos IH]; intros start rows E; cbn [mapi_res_from] in E.
  - injection E as <-. repeat split; constructor.
  - destruct (calculateRowExpectedCorrect c plan) as [ec|] eqn:Eec; [|discriminate].
    destruct (estimateRowPayout c plan) as [ep|] eqn:Eep; [|discriminate].
    cbn [Res_bind] in E.
    destruct (mapi_res_from _ combos (S start)) as [rest|] eqn:Erest; [|discriminate].
    cbn [Res_bind] in E. injection E as <-.
    destruct (IH (S start) rest Erest) as (Hout & Hidx & Hall).
    cbn [map outcomes row_index List.length seq].
    split; [rewrite Hout; reflexivity|].
    split; [rewrite Hidx; reflexivity|].
    constructor; [|exact Hall].
    cbn [expectedCorrect expectedPayout outcomes row_riskProfile].
    split; [|split; [|reflexivity]].
    + unfold calculateRowExpectedCorrect in Eec.
      apply calculateRowExpectedCorrect_sum in Eec. cbn [skipn] in Eec.
      rewrite Eec. ring.
    + unfold estimateRowPayout in Eep.
      match type of Eep with
      | Res_bind ?r _ = _ => destruct r as [totalOdds|] eqn:Ered; [|discriminate]
      end.
      cbn [Res_bind] in Eep. injection Eep as <-.
      apply estimateRowPayout_product in Ered. cbn [skipn] in Ered.
      unfold Qproduct. rewrite Ered. reflexivity.
Qed.

Lemma combine_snoc {A B : Type} (a : A) (b : B) :
  forall (l : list A) (l' : list B),
    List.length l = List.length l' ->
    combine (l ++ [a]) (l' ++ [b]) = combine l l' ++ [(a, b)].
Proof.
  induction l as [|x l IH]; intros [|y l'] Hlen; cbn in Hlen; try discriminate.
  - reflexivity.
  - cbn [app combine]. rewrite IH by congruence. reflexivity.
Qed.

Lemma combine_prefix {A B : Type} :
  forall (l : list A) (l' rest : list B),
    List.length l = List.length l' ->
    combine l (l' ++ rest) = combine l l'.
Proof.
  induction l as [|x l IH]; intros [|y l'] rest Hlen; cbn in Hlen; try discriminate.
  - reflexivity.
  - cbn [app combine]. rewrite IH by congruence. reflexivity.
Qed.

Lemma map_flat_map_comm {A B C : Type} (f : B -> C) (g : A -> list B) (l : list A) :
  map f (flat_map g l) = flat_map (fun x => map f (g x)) l.
Proof.
  induction l as [|x l IH]; cbn [flat_map map]; [reflexivity|].
  rewrite map_app, IH. reflexivity.
Qed.

Lemma rows_product_pos (plan : list SystemMatch) : (0 < rows_product plan)%nat.
Proof.
  induction plan as [|m plan IH]; cbn [rows_product fold_right]; [lia|].
  fold (rows_product plan).
  destruct (systemOutcome m); cbn [expandSystemOutcome List.length]; lia.
Qed.

(** The picked probabilities of all rows of an expansion add up to the
    number of rows times the sum of the covered means. *)
Lemma expansion_expected_sum (rest : list SystemMatch) :
  forall (done : list SystemMatch) (combinations : list (list Outcome)),
    (forall c, In c combinations -> List.length c = List.length done) ->
    Qsum (map (fun c => Qsum (picked_probabilities c (done ++ rest)))
            (fold_left extend_combinations rest combinations))
    == Q_of_nat (rows_product rest)
       * Qsum (map (fun c => Qsum (picked_probabilities c done)) combinations)
       + Q_of_nat (List.length combinations * rows_product rest)
         * Qsum (map covered_mean rest).
Proof.
  induction rest as [|m rest IH]; intros done combinations Hlen.
  - cbn [fold_left rows_product fold_right map]. rewrite app_nil_r.
    change (Qsum []) with 0. change (Q_of_nat 1) with 1.
    generalize (Q_of_nat (List.length combinations * 1)); intro q. ring.
  - cbn [fold_left].
    replace (done ++ m :: rest) with ((done ++ [m]) ++ rest)
      by (rewrite <- app_assoc; reflexivity).
    rewrite IH.
    2:{ intros c Hc. apply extend_combinations_In in Hc as (c0 & o & Hc0 & _ & ->).
        rewrite !length_app, (Hlen c0 Hc0). reflexivity. }
    set (E := expandSystemOutcome (systemOutcome m)).
    set (pm := prob_of (probabilities (sm_match m))).
    assert (Hk : 0 < Q_of_nat (List.length E)).
    { apply Q_of_nat_pos. unfold E.
      destruct (systemOutcome m); cbn [expandSystemOutcome List.length]; lia. }
    assert (Hsum :
      Qsum (map (fun c => Qsum (picked_probabilities c (done ++ [m])))
              (extend_combinations combinations m))
      == Q_of_nat (List.length E)
         * Qsum (map (fun c => Qsum (picked_probabilities c done)) combinations)
         + Q_of_nat (List.length combinations) * Qsum (map pm E)).
    { unfold extend_combinations. fold E.
      rewrite map_flat_map_comm, Qsum_flat_map.
      transitivity
        (Qsum (map (fun c => Q_of_nat (List.length E)
                             * Qsum (picked_probabilities c done)
                             + Qsum (map pm E)) combinations)).
      - apply Qsum_map_ext. intros c Hc.
        rewrite map_map.
        transitivity
          (Qsum (map (fun o => Qsum (picked_probabilities c done) + pm o) E)).
        + apply Qsum_map_ext. intros o _.
          unfold picked_probabilities.
          rewrite combine_snoc by (apply Hlen, Hc).
          rewrite map_app, Qsum_app. cbn [map fst snd].
          rewrite Qsum_cons. change (Qsum []) with 0. fold pm. ring.
        + rewrite Qsum_map_plus, Qsum_map_const. reflexivity.
      - rewrite Qsum_map_plus, Qsum_map_const, Qsum_map_scale. reflexivity. }
    rewrite Hsum. clear Hsum.
    rewrite extend_combinations_length. fold E.
    cbn [rows_product fold_right map]. fold (rows_product rest). fold E.
    rewrite Qsum_cons.
    change (covered_mean m) with (Qsum (map pm E) / Q_of_nat (List.length E)).
    rewrite !Q_of_nat_mult.
    generalize dependent (Q_of_nat (List.length E)). intros qk Hk.
    generalize (Q_of_nat (List.length combinations)),
      (Q_of_nat (rows_product rest)), (Qsum (map pm E)),
      (Qsum (map covered_mean rest)),
      (Qsum (map (fun c => Qsum (picked_probabilities c done)) combinations)).
    intros qn qr s ms a. field. lra.
Qed.

Lemma generateSystem_fields (rand : nat -> Q) (log2 : Q -> Q)
    (matches : list MatchWithOdds) (config : SystemConfiguration)
    (riskProfile : RiskProfile) (n n' : nat) (sys : GeneratedSystem) :
  generateSystem rand log2 matches config riskProfile n = Ok (sys, n') ->
  selectSystemOutcomes rand log2 matches config riskProfile n
    = Ok (sys_matches sys, Nat.pred n') /\
  generateAllSystemRows (sys_matches sys) riskProfile = Ok (allRows sys) /\
  sys_expectedCorrect sys = calculateSystemExpectedCorrect (allRows sys) /\
  sys_expectedPayout sys = calculateSystemExpectedPayout (allRows sys) /\
  configuration sys = config /\
  sys_riskProfile sys = riskProfile.
Proof.
  unfold generateSystem, bind. intro E.
  destruct (selectSystemOutcomes rand log2 matches config riskProfile n)
    as [[a n1]|] eqn:Esel; [|discriminate].
  unfold lift in E.
  destruct (generateAllSystemRows a riskProfile) as [rows|] eqn:Erows; [|discriminate].
  unfold random, ret in E. injection E as <- <-.
  cbn [sys_matches allRows sys_expectedCorrect sys_expectedPayout configuration
       sys_riskProfile Nat.pred].
  repeat split; assumption.
Qed.

(** X14: the expected correct count that a generated system reports, the
    average over its rows, equals the sum over the 13 matches of the mean
    probability of the outcomes covered for the match. *)
Theorem generateSystem_expectedCorrect_is_sum_of_covered_means
    (rand : nat -> Q) (log2 : Q -> Q) (matches : list MatchWithOdds)
    (config : SystemConfiguration) (riskProfile : RiskProfile) (n : nat) :
  random_contract rand ->
  List.length matches = 13%nat ->
  exists sys n' plan,
    generateSystem rand log2 matches config riskProfile n = Ok (sys, n') /\
    sys_matches sys = map Some plan /\
    sys_expectedCorrect sys == Qsum (map covered_mean plan).
Proof.
  intros contract Hlen.
  destruct (returns_generateSystem rand log2 matches config riskProfile contract Hlen n)
    as (sys & n' & E & plan & Eplan & _ & _ & _ & Erows).
  exists sys, n', plan. split; [exact E|]. split; [exact Eplan|].
  destruct (generateSystem_fields _ _ _ _ _ _ _ _ E) as (_ & Hrows & -> & _).
  rewrite Eplan in Hrows.
  destruct (generateAllSystemRows_content plan riskProfile (allRows sys) Hrows)
    as (Hout & _ & Hall).
  unfold calculateSystemExpectedCorrect.
  rewrite fold_left_sum_map.
  assert (Hsum : Qsum (map expectedCorrect (allRows sys))
                 == Qsum (map (fun c => Qsum (picked_probabilities c plan))
                            (generateOutcomeCombinations plan))).
  { rewrite <- Hout, map_map. apply Qsum_map_ext.
    intros row Hrow. eapply Forall_forall in Hall; [|exact Hrow]. apply Hall. }
  rewrite Hsum.
  unfold generateOutcomeCombinations.
  rewrite (expansion_expected_sum plan [] [[]]).
  2:{ intros c [<-|[]]. reflexivity. }
  rewrite <- (length_map outcomes), Hout, generateOutcomeCombinations_length.
  cbn [map List.length Nat.mul]. rewrite Nat.add_0_r.
  assert (Hpos : 0 < Q_of_nat (rows_product plan))
    by (apply Q_of_nat_pos, rows_product_pos).
  unfold picked_probabilities at 1. cbn [combine map].
  change (Qsum []) with 0.
  generalize dependent (Q_of_nat (rows_product plan)). intros qr Hpos.
  generalize (Qsum (map covered_mean plan)). intro ms.
  change (Qsum [0]) with (0 + 0).
  field. lra.
Qed.

Lemma generateSystem_expectedCorrect_is_sum_of_covered_means_witness :
  exists sys n' plan,
    generateSystem example_rand example_log2 example_slate system_96
      "balanced"%string 0%nat = Ok (sys, n') /\
    sys_expectedCorrect sys == Qsum (map covered_mean plan).
Proof.
  destruct (generateSystem_expectedCorrect_is_sum_of_covered_means example_rand
              example_log2 example_slate system_96 "balanced"%string 0%nat)
    as (sys & n' & plan & E & _ & H).
  - exact example_rand_contract.
  - reflexivity.
  - exists sys, n', plan. split; [exact E|exact H].
Defined.

Lemma Qsum_bounds (l : list Q) :
  Forall (fun x => 0 <= x /\ x <= 1) l ->
  0 <= Qsum l /\ Qsum l <= Q_of_nat (List.length l).
Proof.
  induction 1 as [|x l [H0 H1] _ [IH0 IH1]].
  - change (Qsum []) with 0. change (Q_of_nat (List.length (@nil Q))) with 0. lra.
  - rewrite Qsum_cons. cbn [List.length].
    change (S (List.length l)) with (1 + List.length l)%nat.
    rewrite Q_of_nat_plus. change (Q_of_nat 1) with 1. lra.
Qed.

Lemma fold_left_Qmult_ge_one (l : list Q) :
  Forall (fun x => 1 <= x) l -> forall acc, 1 <= acc -> 1 <= fold_left Qmult l acc.
Proof.
  induction 1 as [|x l Hx _ IH]; intros acc Hacc; cbn [fold_left]; [exact Hacc|].
  apply IH.
  assert (0 <= (acc - 1) * (x - 1)) by (apply Qmult_le_0_compat; lra).
  assert (E : acc * x == (acc - 1) * (x - 1) + acc + x - 1) by ring.
  lra.
Qed.

Lemma picked_in_plan {A : Type} (f : Outcome -> SystemMatch -> A) (P : A -> Prop)
    (row : list Outcome) (plan : list SystemMatch) :
  (forall o m, In m plan -> P (f o m)) ->
  Forall P (map (fun om => f (fst om) (snd om)) (combine row plan)).
Proof.
  intro H. apply Forall_forall. intros x Hx.
  apply in_map_iff in Hx as ([o m] & <- & Hin).
  apply in_combine_r in Hin. cbn [fst snd]. apply H, Hin.
Qed.

(** X15: in the system generated for a slate of 13 matches with
    probabilities in [[0,1]] and odds of at least 1, the rows are numbered
    from 0 in the order of the expansion, and every row carries the sum of
    the probabilities of its picks as expected correct count, between 0 and
    13, and 0.65 times the product of the odds of its picks, capped at
    100000, as estimated payout, which is therefore at least 0.65. *)
Theorem generateSystem_row_metrics (rand : nat -> Q) (log2 : Q -> Q)
    (matches : list MatchWithOdds) (config : SystemConfiguration)
    (riskProfile : RiskProfile) (n : nat) :
  random_contract rand ->
  List.length matches = 13%nat ->
  Forall (fun m => forall o,
            (0 <= prob_of (probabilities m) o /\ prob_of (probabilities m) o <= 1) /\
            1 <= prob_of (odds m) o) matches ->
  exists sys n' plan,
    generateSystem rand log2 matches config riskProfile n = Ok (sys, n') /\
    sys_matches sys = map Some plan /\
    map row_index (allRows sys) = seq 0 (List.length (allRows sys)) /\
    forall row, In row (allRows sys) ->
      expectedCorrect row == Qsum (picked_probabilities (outcomes row) plan) /\
      (0 <= expectedCorrect row /\ expectedCorrect row <= 13) /\
      expectedPayout row
        == Qmin (Qproduct (picked_odds (outcomes row) plan) * 0.65) 100000 /\
      (0.65 <= expectedPayout row /\ expectedPayout row <= 100000) /\
      row_riskProfile row = riskProfile.
Proof.
  intros contract Hlen Hwf.
  destruct (returns_generateSystem rand log2 matches config riskProfile contract Hlen n)
    as (sys & n' & E & plan & Eplan & Ematch & _ & _ & Erows).
  exists sys, n', plan. split; [exact E|]. split; [exact Eplan|].
  destruct (generateSystem_fields _ _ _ _ _ _ _ _ E) as (_ & Hrows & _).
  rewrite Eplan in Hrows.
  destruct (generateAllSystemRows_content plan riskProfile (allRows sys) Hrows)
    as (Hout & Hidx & Hall).
  split; [exact Hidx|].
  intros row Hrow.
  eapply Forall_forall in Hall; [|exact Hrow].
  destruct Hall as (Hec & Hep & Hrp).
  assert (Hin : In (outcomes row) (generateOutcomeCombinations plan)).
  { rewrite <- Hout. apply in_map, Hrow. }
  assert (Hrowlen : List.length (outcomes row) = 13%nat).
  { apply generateOutcomeCombinations_covers, Forall2_length in Hin.
    rewrite <- Hin, <- (length_map sm_match), Ematch. exact Hlen. }
  assert (Hplan : forall m, In m plan -> In (sm_match m) matches).
  { intros m Hm. rewrite <- Ematch. apply in_map, Hm. }
  assert (Hprobs : Forall (fun x => 0 <= x /\ x <= 1)
                     (picked_probabilities (outcomes row) plan)).
  { unfold picked_probabilities.
    apply (picked_in_plan (fun o m => prob_of (probabilities (sm_match m)) o)).
    intros o m Hm. eapply Forall_forall in Hwf; [|apply Hplan, Hm]. apply Hwf. }
  assert (Hodds : Forall (fun x => 1 <= x) (picked_odds (outcomes row) plan)).
  { unfold picked_odds.
    apply (picked_in_plan (fun o m => prob_of (odds (sm_match m)) o)).
    intros o m Hm. eapply Forall_forall in Hwf; [|apply Hplan, Hm]. apply Hwf. }
  destruct (Qsum_bounds _ Hprobs) as [Hlo Hhi].
  assert (Hpl : List.length (picked_probabilities (outcomes row) plan) = 13%nat).
  { unfold picked_probabilities. rewrite length_map, length_combine, Hrowlen.
    rewrite <- (length_map sm_match), Ematch, Hlen. reflexivity. }
  rewrite Hpl in Hhi. change (Q_of_nat 13) with 13 in Hhi.
  assert (Hprod : 1 <= Qproduct (picked_odds (outcomes row) plan)).
  { apply fold_left_Qmult_ge_one; [exact Hodds|apply Qle_refl]. }
  split; [exact Hec|]. split; [rewrite Hec; split; assumption|].
  split; [exact Hep|]. split; [|exact Hrp].
  rewrite Hep. split; [|apply Q.le_min_r].
  apply Q.min_glb; [lra|vm_compute; discriminate].
Qed.

Lemma generateSystem_row_metrics_witness :
  exists sys n',
    generateSystem example_rand example_log2 example_slate system_96
      "safe"%string 0%nat = Ok (sys, n') /\
    map row_index (allRows sys) = seq 0 (List.length (allRows sys)).
Proof.
  destruct (generateSystem_row_metrics example_rand example_log2 example_slate
              system_96 "safe"%string 0%nat)
    as (sys & n' & plan & E & _ & H & _).
  - exact example_rand_contract.
  - reflexivity.
  - unfold example_slate.
    repeat (apply Forall_cons;
            [intros []; vm_compute; repeat split; discriminate|]).
    apply Forall_nil.
  - exists sys, n'. split; [exact E|exact H].
Defined.

(** ** The rest of [odds.ts] *)

Lemma insert_desc_by_Permutation {A : Type} (key : A -> Q) (x : A) (l : list A) :
  Permutation (insert_desc_by key x l) (x :: l).
Proof.
  induction l as [|y l IH]; cbn [insert_desc_by]; [reflexivity|].
  destruct (Qltb (key x) (key y)); [|reflexivity].
  rewrite IH. apply perm_swap.
Qed.

Lemma sort_desc_by_Permutation {A : Type} (key : A -> Q) (l : list A) :
  Permutation (sort_desc_by key l) l.
Proof.
  unfold sort_desc_by. induction l as [|x l IH]; cbn [fold_right]; [reflexivity|].
  rewrite insert_desc_by_Permutation. apply perm_skip, IH.
Qed.

Lemma insert_asc_by_Permutation {A : Type} (key : A -> Q) (x : A) (l : list A) :
  Permutation (insert_asc_by key x l) (x :: l).
Proof.
  induction l as [|y l IH]; cbn [insert_asc_by]; [reflexivity|].
  destruct (Qltb (key y) (key x)); [|reflexivity].
  rewrite IH. apply perm_swap.
Qed.

Lemma sort_asc_by_Permutation {A : Type} (key : A -> Q) (l : list A) :
  Permutation (sort_asc_by key l) l.
Proof.
  unfold sort_asc_by. induction l as [|x l IH]; cbn [fold_right]; [reflexivity|].
  rewrite insert_asc_by_Permutation. apply perm_skip, IH.
Qed.

Lemma Math_round_bounds (x : Q) (lo hi : Z) :
  inject_Z lo <= x -> x <= inject_Z hi -> (lo <= Math_round x <= hi)%Z.
Proof.
  intros Hlo Hhi. unfold Math_round. split.
  - rewrite <- (Qfloor_Z lo). apply Qfloor_resp_le. lra.
  - assert (H := Qfloor_le (x + 0.5)).
    assert (H' : inject_Z (Qfloor (x + 0.5)) < inject_Z (hi + 1)).
    { rewrite inject_Z_plus. change (inject_Z 1) with 1. lra. }
    rewrite <- Zlt_Qlt in H'. lia.
Qed.

(** X16: [selectEVBasedOutcome] always returns. When its first random
    number is below the randomness factor the result is the weighted draw
    made with the next random number; otherwise it uses no further random
    number and returns an outcome whose expected value no other outcome
    exceeds. *)
Theorem selectEVBasedOutcome_cases (rand : nat -> Q) (odds_ probs : Triple)
    (randomnessFactor : Q) (n : nat) :
  exists o n',
    selectEVBasedOutcome rand odds_ probs randomnessFactor n = Ok (o, n') /\
    (rand n < randomnessFactor ->
       selectWeightedRandomOutcome rand probs (S n) = Ok (o, n')) /\
    (randomnessFactor <= rand n ->
       n' = S n /\
       forall o', prob_of (calculateExpectedValues odds_ probs) o'
                  <= prob_of (calculateExpectedValues odds_ probs) o).
Proof.
  unfold selectEVBasedOutcome, bind, random.
  destruct (Qltb (rand n) randomnessFactor) eqn:E.
  - apply Qltb_true in E.
    destruct (selectWeightedRandomOutcome_ok rand probs (S n)) as [o Ho].
    exists o, (S (S n)). rewrite Ho. split; [reflexivity|]. split; [reflexivity|].
    intro H. lra.
  - apply Qltb_false in E.
    set (evs := calculateExpectedValues odds_ probs).
    destruct (Qgeb (home evs) (draw evs)) eqn:E1;
      [destruct (Qgeb (home evs) (away evs)) eqn:E2|]; cbn [andb].
    + apply Qgeb_true in E1, E2. exists O1, (S n).
      split; [reflexivity|]. split; [intro; lra|]. intros _. split; [reflexivity|].
      intros []; cbn [prob_of]; lra.
    + apply Qgeb_true in E1. apply Qgeb_false in E2.
      destruct (Qgeb (draw evs) (away evs)) eqn:E3.
      * apply Qgeb_true in E3. lra.
      * exists O2, (S n).
        split; [reflexivity|]. split; [intro; lra|]. intros _. split; [reflexivity|].
        intros []; cbn [prob_of]; lra.
    + apply Qgeb_false in E1.
      destruct (Qgeb (draw evs) (away evs)) eqn:E3.
      * apply Qgeb_true in E3. exists OX, (S n).
        split; [reflexivity|]. split; [intro; lra|]. intros _. split; [reflexivity|].
        intros []; cbn [prob_of]; lra.
      * apply Qgeb_false in E3. exists O2, (S n).
        split; [reflexivity|]. split; [intro; lra|]. intros _. split; [reflexivity|].
        intros []; cbn [prob_of]; lra.
Qed.

Lemma mock_odds_component (base span r : Q) (lo hi : Z) :
  0 <= r -> r < 1 -> 0 <= span ->
  inject_Z lo == base * 100 -> inject_Z hi == (base + span) * 100 ->
  base <= inject_Z (Math_round ((base + r * span) * 100)) / 100 /\
  inject_Z (Math_round ((base + r * span) * 100)) / 100 <= base + span.
Proof.
  intros H0 H1 Hs Hlo Hhi.
  assert (Hrs : 0 <= r * span) by (apply Qmult_le_0_compat; assumption).
  assert (Hrs' : r * span <= span) by nra.
  destruct (Math_round_bounds ((base + r * span) * 100) lo hi) as [Hl Hu].
  - rewrite Hlo. lra.
  - rewrite Hhi. lra.
  - rewrite Zle_Qle in Hl, Hu. split.
    + apply Qle_shift_div_l; lra.
    + apply Qle_shift_div_r; lra.
Qed.

(** X17: when the random source keeps its contract, [generateMockOdds]
    uses three random numbers and returns odds in hundredths with the home
    odds between 1.5 and 4.5, the draw odds between 2.8 and 4.3 and the away
    odds between 1.8 and 5.8, so that all three are valid decimal odds above
    1. *)
Theorem generateMockOdds_in_range (rand : nat -> Q) (n : nat) :
  random_contract rand ->
  exists t,
    generateMockOdds rand n = Ok (t, (n + 3)%nat) /\
    (1.5 <= home t /\ home t <= 4.5) /\
    (2.8 <= draw t /\ draw t <= 4.3) /\
    (1.8 <= away t /\ away t <= 5.8) /\
    exists h d a : Z,
      home t == inject_Z h / 100 /\ draw t == inject_Z d / 100 /\
      away t == inject_Z a / 100.
Proof.
  intro contract.
  destruct (contract n) as [A0 A1].
  destruct (contract (S n)) as [B0 B1].
  destruct (contract (S (S n))) as [C0 C1].
  unfold generateMockOdds, bind, random, ret.
  eexists. split.
  { replace (n + 3)%nat with (S (S (S n))) by lia. reflexivity. }
  cbn [home draw away].
  split; [|split; [|split]].
  - destruct (mock_odds_component 1.5 3 (rand n) 150 450) as [H1 H2];
      try assumption; try (vm_compute; first [discriminate | reflexivity]).
    split; [exact H1|]. eapply Qle_trans; [exact H2|]. vm_compute; discriminate.
  - destruct (mock_odds_component 2.8 1.5 (rand (S n)) 280 430) as [H1 H2];
      try assumption; try (vm_compute; first [discriminate | reflexivity]).
    split; [exact H1|]. eapply Qle_trans; [exact H2|]. vm_compute; discriminate.
  - destruct (mock_odds_component 1.8 4 (rand (S (S n))) 180 580) as [H1 H2];
      try assumption; try (vm_compute; first [discriminate | reflexivity]).
    split; [exact H1|]. eapply Qle_trans; [exact H2|]. vm_compute; discriminate.
  - do 3 eexists. repeat split; reflexivity.
Qed.

Lemma generateMockOdds_in_range_witness :
  exists t,
    generateMockOdds example_rand 4%nat = Ok (t, (4 + 3)%nat) /\
    (1.5 <= home t /\ home t <= 4.5) /\
    (2.8 <= draw t /\ draw t <= 4.3) /\
    (1.8 <= away t /\ away t <= 5.8) /\
    exists h d a : Z,
      home t == inject_Z h / 100 /\ draw t == inject_Z d / 100 /\
      away t == inject_Z a / 100.
Proof.
  apply (generateMockOdds_in_range example_rand 4%nat).
  exact example_rand_contract.
Defined.

(** ** Coverage of a slate by a number of rows *)

Lemma increment_key_total (t : Triple) (k : OutcomeKey) :
  home (increment_key t k) + draw (increment_key t k) + away (increment_key t k)
  == home t + draw t + away t + 1.
Proof. destruct k; cbn [increment_key home draw away]; ring. Qed.

Lemma increment_key_ge (t : Triple) (k : OutcomeKey) :
  home t <= home (increment_key t k) /\ draw t <= draw (increment_key t k) /\
  away t <= away (increment_key t k).
Proof. destruct k; cbn [increment_key home draw away]; repeat split; lra. Qed.

Lemma distribute_remaining_total (keys : list OutcomeKey) :
  forall (adjusted : Triple) (remaining : Q) (r : Z),
    remaining == inject_Z r ->
    (0 <= r <= Z.of_nat (List.length keys))%Z ->
    home (distribute_remaining keys adjusted remaining)
    + draw (distribute_remaining keys adjusted remaining)
    + away (distribute_remaining keys adjusted remaining)
    == home adjusted + draw adjusted + away adjusted + remaining.
Proof.
  induction keys as [|k keys IH]; intros adjusted remaining r Hr Hb;
    cbn [distribute_remaining].
  - cbn [List.length] in Hb. assert (r = 0%Z) by lia. subst r.
    rewrite Hr. change (inject_Z 0) with 0. ring.
  - cbn [List.length] in Hb.
    destruct (Qgtb remaining 0) eqn:E.
    + apply Qgtb_true in E.
      assert (Hpos : (0 < r)%Z).
      { rewrite Zlt_Qlt. change (inject_Z 0) with 0. rewrite <- Hr. exact E. }
      rewrite (IH (increment_key adjusted k) (remaining - 1) (r - 1)%Z).
      * rewrite increment_key_total. ring.
      * rewrite Hr. unfold Zminus. rewrite inject_Z_plus.
        change (inject_Z (- (1))) with (- (1)). ring.
      * lia.
    + apply Qgtb_false in E.
      assert (Hz : (r <= 0)%Z).
      { rewrite Zle_Qle. change (inject_Z 0) with 0. rewrite <- Hr. exact E. }
      apply (IH adjusted remaining r Hr). lia.
Qed.

Lemma distribute_remaining_ge (keys : list OutcomeKey) :
  forall (adjusted : Triple) (remaining : Q),
    home adjusted <= home (distribute_remaining keys adjusted remaining) /\
    draw adjusted <= draw (distribute_remaining keys adjusted remaining) /\
    away adjusted <= away (distribute_remaining keys adjusted remaining).
Proof.
  induction keys as [|k keys IH]; intros adjusted remaining;
    cbn [distribute_remaining].
  - repeat split; lra.
  - destruct (Qgtb remaining 0).
    + destruct (IH (increment_key adjusted k) (remaining - 1)) as (H1 & H2 & H3).
      destruct (increment_key_ge adjusted k) as (G1 & G2 & G3).
      repeat split; lra.
    + apply IH.
Qed.

Lemma Qfloor_nonneg (x : Q) : 0 <= x -> 0 <= inject_Z (Qfloor x).
Proof.
  intro H. change 0 with (inject_Z 0). rewrite <- Zle_Qle.
  rewrite <- (Qfloor_Z 0). apply Qfloor_resp_le. exact H.
Qed.

Lemma suggest_distribution_fits (probs : Triple) (numRows : Q) (k : Z) :
  numRows == inject_Z k ->
  let d := suggest_distribution probs numRows in
  home d + draw d + away d <= numRows /\
  (numRows < 3 -> home d + draw d + away d == numRows) /\
  (0 <= numRows -> 0 <= home d /\ 0 <= draw d /\ 0 <= away d).
Proof.
  intros Hk. unfold suggest_distribution.
  set (h := Qmax 1 (inject_Z (Math_round (home probs * numRows)))).
  set (dr := Qmax 1 (inject_Z (Math_round (draw probs * numRows)))).
  set (a := Qmax 1 (inject_Z (Math_round (away probs * numRows)))).
  assert (Hh : 1 <= h) by apply Q.le_max_l.
  assert (Hd : 1 <= dr) by apply Q.le_max_l.
  assert (Ha : 1 <= a) by apply Q.le_max_l.
  destruct (Qgtb (h + dr + a) numRows) eqn:E.
  - apply Qgtb_true in E. cbn zeta. cbn [home draw away].
    set (s := numRows / (h + dr + a)).
    set (fh := Qfloor (h * s)). set (fd := Qfloor (dr * s)). set (fa := Qfloor (a * s)).
    set (keys := map fst (sort_desc_by snd _)).
    assert (Hlen : List.length keys = 3%nat).
    { unfold keys. rewrite length_map.
      rewrite (Permutation_length (sort_desc_by_Permutation _ _)). reflexivity. }
    assert (Hs : h * s + dr * s + a * s == numRows).
    { unfold s. field. lra. }
    assert (Lh := Qfloor_le (h * s)). assert (Uh := Qlt_floor (h * s)).
    assert (Ld := Qfloor_le (dr * s)). assert (Ud := Qlt_floor (dr * s)).
    assert (La := Qfloor_le (a * s)). assert (Ua := Qlt_floor (a * s)).
    fold fh in Lh, Uh. fold fd in Ld, Ud. fold fa in La, Ua.
    rewrite inject_Z_plus in Uh, Ud, Ua. change (inject_Z 1) with 1 in Uh, Ud, Ua.
    assert (Hrem : numRows - (inject_Z fh + inject_Z fd + inject_Z fa)
                   == inject_Z (k - (fh + fd + fa))).
    { unfold Zminus. rewrite inject_Z_plus, inject_Z_opp, !inject_Z_plus, Hk. ring. }
    assert (Hb : (0 <= k - (fh + fd + fa) <= 3)%Z).
    { split.
      - rewrite Zle_Qle. change (inject_Z 0) with 0. rewrite <- Hrem. lra.
      - rewrite Zle_Qle. change (inject_Z 3) with 3. rewrite <- Hrem. lra. }
    assert (Htot := distribute_remaining_total keys
                      {| home := inject_Z fh; draw := inject_Z fd; away := inject_Z fa |}
                      _ _ Hrem).
    cbn [home draw away] in Htot. rewrite Hlen in Htot. specialize (Htot Hb).
    destruct (distribute_remaining_ge keys
                {| home := inject_Z fh; draw := inject_Z fd; away := inject_Z fa |}
                (numRows - (inject_Z fh + inject_Z fd + inject_Z fa)))
      as (G1 & G2 & G3).
    cbn [home draw away] in G1, G2, G3.
    split; [rewrite Htot; lra|]. split; [intros _; rewrite Htot; ring|].
    intro Hn.
    assert (Hs0 : 0 <= s).
    { unfold s. apply Qle_shift_div_l; lra. }
    assert (F1 : 0 <= inject_Z fh).
    { apply Qfloor_nonneg. apply Qmult_le_0_compat; lra. }
    assert (F2 : 0 <= inject_Z fd).
    { apply Qfloor_nonneg. apply Qmult_le_0_compat; lra. }
    assert (F3 : 0 <= inject_Z fa).
    { apply Qfloor_nonneg. apply Qmult_le_0_compat; lra. }
    repeat split; lra.
  - apply Qgtb_false in E. cbn [home draw away].
    split; [exact E|]. split; [intro; lra|]. intros _. repeat split; lra.
Qed.

Lemma coverage_loop_spec (numRows : Q) (P : Triple -> Prop) :
  (forall probs, P (suggest_distribution probs numRows)) ->
  forall (matches : list MatchWithOdds) (i : nat)
         (recommendations : list CoverageRecommendation) (total : Q),
    Forall (fun r => P (suggestedDistribution r)) recommendations ->
    let result := fst (coverage_loop matches numRows i recommendations total) in
    map matchIndex result
      = map matchIndex recommendations ++ seq i (List.length matches) /\
    Forall (fun r => P (suggestedDistribution r)) result.
Proof.
  intros HP. induction matches as [|m rest IH]; intros i recs total Hrecs;
    cbn [coverage_loop].
  - cbn [fst List.length seq]. rewrite app_nil_r. split; [reflexivity|assumption].
  - destruct (IH (S i)
                (recs ++ [ {| matchIndex := i;
                              suggestedDistribution :=
                                suggest_distribution (probabilities m) numRows |} ])
                (total + Qmax3 (home (probabilities m)) (draw (probabilities m))
                           (away (probabilities m)))) as [E F].
    + apply Forall_app. split; [assumption|]. constructor; [apply HP|constructor].
    + cbv zeta in E, F |- *. split; [|exact F].
      rewrite E, map_app, <- app_assoc. reflexivity.
Qed.

(** X18: for a whole number of rows, [calculateOptimalCoverage] gives one
    recommendation per match, numbered in order from 0, and no suggested
    distribution hands out more rows than there are: its three counts add up
    to at most [numRows], to exactly [numRows] when there are fewer than
    three rows, and none of them is negative unless [numRows] is. *)
Theorem calculateOptimalCoverage_fits (matches : list MatchWithOdds)
    (numRows targetCorrect : Q) (k : Z) :
  numRows == inject_Z k ->
  let result := calculateOptimalCoverage matches numRows targetCorrect in
  map matchIndex (coverage_recommendations result) = seq 0 (List.length matches) /\
  Forall (fun r =>
            let d := suggestedDistribution r in
            home d + draw d + away d <= numRows /\
            (numRows < 3 -> home d + draw d + away d == numRows) /\
            (0 <= numRows -> 0 <= home d /\ 0 <= draw d /\ 0 <= away d))
         (coverage_recommendations result).
Proof.
  intros Hk.
  destruct (coverage_loop_spec numRows
              (fun d => home d + draw d + away d <= numRows /\
                        (numRows < 3 -> home d + draw d + away d == numRows) /\
                        (0 <= numRows -> 0 <= home d /\ 0 <= draw d /\ 0 <= away d))
              (fun probs => suggest_distribution_fits probs numRows k Hk)
              matches 0%nat [] 0 (Forall_nil _)) as [E F].
  cbv zeta in E, F |- *. unfold calculateOptimalCoverage.
  destruct (coverage_loop matches numRows 0 [] 0) as [recs total].
  cbn [fst] in E, F. cbn [coverage_recommendations]. split; assumption.
Qed.

Lemma calculateOptimalCoverage_fits_witness :
  let result := calculateOptimalCoverage example_slate 2 11 in
  map matchIndex (coverage_recommendations result)
    = seq 0 (List.length example_slate) /\
  Forall (fun r =>
            let d := suggestedDistribution r in
            home d + draw d + away d <= 2 /\
            (2 < 3 -> home d + draw d + away d == 2) /\
            (0 <= 2 -> 0 <= home d /\ 0 <= draw d /\ 0 <= away d))
         (coverage_recommendations result).
Proof.
  apply (calculateOptimalCoverage_fits example_slate 2 11 2%Z).
  reflexivity.
Defined.

(** ** Confidence intervals by resampling *)

Lemma insert_asc_by_sorted (x : Q) (l : list Q) :
  StronglySorted Qle l -> StronglySorted Qle (insert_asc_by (fun x => x) x l).
Proof.
  induction l as [|y l IH]; intro Hs; cbn [insert_asc_by].
  - constructor; constructor.
  - inversion Hs as [|? ? Hl Hy]; subst.
    destruct (Qltb y x) eqn:E.
    + apply Qltb_true in E. constructor; [apply IH; assumption|].
      apply (Permutation_Forall
               (Permutation_sym (insert_asc_by_Permutation (fun x => x) x l))).
      constructor; [lra|assumption].
    + apply Qltb_false in E. constructor; [assumption|].
      constructor; [assumption|].
      eapply Forall_impl; [|exact Hy]. intros a Ha. cbn beta in Ha. lra.
Qed.

Lemma sort_asc_by_sorted (l : list Q) :
  StronglySorted Qle (sort_asc_by (fun x => x) l).
Proof.
  unfold sort_asc_by. induction l as [|x l IH]; cbn [fold_right].
  - constructor.
  - apply insert_asc_by_sorted, IH.
Qed.

Lemma StronglySorted_nth_error (l : list Q) :
  StronglySorted Qle l ->
  forall i j a b,
    (i <= j)%nat -> nth_error l i = Some a -> nth_error l j = Some b -> a <= b.
Proof.
  induction 1 as [|x l Hs IH Hx]; intros i j a b Hij Hi Hj.
  - destruct i; discriminate.
  - destruct i as [|i]; destruct j as [|j]; cbn [nth_error] in Hi, Hj.
    + injection Hi as <-. injection Hj as <-. lra.
    + injection Hi as <-. apply nth_error_In in Hj.
      rewrite Forall_forall in Hx. apply Hx, Hj.
    + lia.
    + apply (IH i j); [lia|assumption|assumption].
Qed.

Lemma array_get_in_range {A : Type} (l : list A) (i : Z) :
  (0 <= i < Z.of_nat (List.length l))%Z ->
  exists a, array_get l i = Some a /\ nth_error l (Z.to_nat i) = Some a.
Proof.
  intros [H0 H1]. unfold array_get.
  destruct (i <? 0)%Z eqn:E; [apply Z.ltb_lt in E; lia|].
  destruct (nth_error l (Z.to_nat i)) as [a|] eqn:En; [eauto|].
  apply nth_error_None in En. lia.
Qed.

Lemma array_get_at_length {A : Type} (l : list A) (i : Z) :
  i = Z.of_nat (List.length l) -> array_get l i = None.
Proof.
  intros ->. unfold array_get.
  destruct (Z.of_nat (List.length l) <? 0)%Z; [reflexivity|].
  rewrite Nat2Z.id. apply nth_error_None. lia.
Qed.

Lemma bootstrap_sample_run (rand : nat -> Q) (row : GeneratedRow)
    (matches : list MatchWithOdds) :
  forall (remaining sampleCorrect : nat) (samplePayout : Q) (n : nat),
    exists sampleCorrect' samplePayout',
      bootstrap_sample rand row matches remaining sampleCorrect samplePayout n
        = Ok ((sampleCorrect', samplePayout'),
              (n + remaining * List.length matches)%nat) /\
      (sampleCorrect <= sampleCorrect'
         <= sampleCorrect + remaining * List.length matches)%nat /\
      samplePayout <= samplePayout' /\
      samplePayout' <= samplePayout + Q_of_nat remaining * 50000.
Proof.
  induction remaining as [|k IH]; intros sc sp n; cbn [bootstrap_sample].
  - exists sc, sp. unfold ret. split; [f_equal; f_equal; lia|].
    split; [lia|]. change (Q_of_nat 0) with 0. lra.
  - unfold bind at 1.
    destruct (simulateMatchday_run rand (outcomes row) matches n) as (c & -> & Hc).
    match goal with
    | |- context [bootstrap_sample rand row matches k ?a ?b ?m] =>
        destruct (IH a b m) as (sc' & sp' & E & Hsc & Hlo & Hhi);
        set (sp1 := b) in *
    end.
    exists sc', sp'. rewrite E.
    split; [f_equal; f_equal; lia|].
    split; [lia|].
    assert (Hk : Q_of_nat (S k) == Q_of_nat k + 1).
    { replace (S k) with (k + 1)%nat by lia. rewrite Q_of_nat_plus. reflexivity. }
    assert (Hk0 : 0 <= Q_of_nat k).
    { change 0 with (Q_of_nat 0). apply Q_of_nat_le. lia. }
    assert (Hsp : sp <= sp1 /\ sp1 <= sp + 50000).
    { unfold sp1.
      destruct (13 <=? c)%nat; [lra|]. destruct (12 <=? c)%nat; [lra|].
      destruct (11 <=? c)%nat; [lra|]. destruct (10 <=? c)%nat; lra. }
    rewrite Hk. split; lra.
Qed.

Lemma bootstrap_loop_run (rand : nat -> Q) (row : GeneratedRow)
    (matches : list MatchWithOdds) :
  forall (remaining : nat) (results payouts : list Q) (n : nat),
    Forall (fun x => 0 <= x /\ x <= Q_of_nat (List.length matches)) results ->
    Forall (fun x => 0 <= x /\ x <= 50000) payouts ->
    exists results' payouts',
      bootstrap_loop rand row matches remaining results payouts n
        = Ok ((results', payouts'),
              (n + remaining * (1000 * List.length matches))%nat) /\
      List.length results' = (List.length results + remaining)%nat /\
      List.length payouts' = (List.length payouts + remaining)%nat /\
      Forall (fun x => 0 <= x /\ x <= Q_of_nat (List.length matches)) results' /\
      Forall (fun x => 0 <= x /\ x <= 50000) payouts'.
Proof.
  induction remaining as [|k IH]; intros results payouts n Hr Hp;
    cbn [bootstrap_loop].
  - exists results, payouts. unfold ret.
    split; [f_equal; f_equal; lia|]. repeat split; try assumption; lia.
  - unfold bind at 1.
    destruct (bootstrap_sample_run rand row matches 1000 0 0 n)
      as (sc & sp & -> & Hsc & Hlo & Hhi).
    cbn [fst snd].
    assert (H1000 : Q_of_nat 1000 == 1000) by (vm_compute; reflexivity).
    destruct (IH (results ++ [Q_of_nat sc / 1000]) (payouts ++ [sp / 1000])
                 (n + 1000 * List.length matches)%nat)
      as (rs & ps & E & Lr & Lp & Fr & Fp).
    + apply Forall_app. split; [assumption|]. constructor; [|constructor].
      assert (H0 : 0 <= Q_of_nat sc).
      { change 0 with (Q_of_nat 0). apply Q_of_nat_le. lia. }
      assert (H1 : Q_of_nat sc <= 1000 * Q_of_nat (List.length matches)).
      { rewrite <- H1000, <- Q_of_nat_mult. apply Q_of_nat_le. lia. }
      split.
      * apply Qle_shift_div_l; lra.
      * apply Qle_shift_div_r; lra.
    + apply Forall_app. split; [assumption|]. constructor; [|constructor].
      rewrite H1000 in Hhi. split.
      * apply Qle_shift_div_l; lra.
      * apply Qle_shift_div_r; lra.
    + exists rs, ps. rewrite E.
      rewrite !length_app in Lr, Lp. cbn [List.length] in Lr, Lp.
      split; [f_equal; f_equal; lia|].
      repeat split; try assumption; lia.
Qed.

Lemma percentile_pair (l : list Q) (P : Q -> Prop) (i j : Z) :
  Forall P l ->
  (0 <= i)%Z -> (i <= j)%Z -> (j < Z.of_nat (List.length l))%Z ->
  exists lo hi,
    array_get (sort_asc_by (fun x => x) l) i = Some lo /\
    array_get (sort_asc_by (fun x => x) l) j = Some hi /\
    lo <= hi /\ P lo /\ P hi.
Proof.
  intros HP H0 Hij Hj.
  assert (Hperm := sort_asc_by_Permutation (fun x : Q => x) l).
  assert (Hlen := Permutation_length Hperm).
  assert (HP' := Permutation_Forall (Permutation_sym Hperm) HP).
  destruct (array_get_in_range (sort_asc_by (fun x => x) l) i) as (lo & E1 & N1);
    [lia|].
  destruct (array_get_in_range (sort_asc_by (fun x => x) l) j) as (hi & E2 & N2);
    [lia|].
  exists lo, hi. rewrite Forall_forall in HP'.
  repeat split; try assumption.
  - apply (StronglySorted_nth_error _ (sort_asc_by_sorted l)
             (Z.to_nat i) (Z.to_nat j)); [lia|assumption|assumption].
  - apply HP'. eapply nth_error_In; eassumption.
  - apply HP'. eapply nth_error_In; eassumption.
Qed.

(** X19: for a confidence level from 0 to 1, [simulateWithConfidenceIntervals]
    returns the result of [simulateRow] on the same random numbers together
    with the intervals, after 1000 samples of 1000 further simulated
    match days. Up to level 0.999 all four bounds are defined, each lower
    bound is at most its upper bound, the bounds on the average number of
    correct results lie between 0 and the number of matches and those on the
    payout between 0 and 50000. At level 1 exactly, both upper bounds are
    read past the end of the sorted samples and are undefined. *)
Theorem simulateWithConfidenceIntervals_bounds (rand : nat -> Q) (row : GeneratedRow)
    (matches : list MatchWithOdds) (trials : nat) (confidenceLevel : Q) (n : nat) :
  0 <= confidenceLevel -> confidenceLevel <= 1 ->
  exists base ci,
    simulateWithConfidenceIntervals rand row matches trials confidenceLevel n
      = Ok ((base, ci),
            (n + trials * List.length matches
               + 1000 * (1000 * List.length matches))%nat) /\
    simulateRow rand row matches trials n
      = Ok (base, (n + trials * List.length matches)%nat) /\
    (confidenceLevel <= 0.999 ->
       exists lo hi lo' hi',
         ci_averageCorrect ci = {| lower := Some lo; upper := Some hi |} /\
         ci_expectedPayout ci = {| lower := Some lo'; upper := Some hi' |} /\
         (0 <= lo /\ lo <= hi /\ hi <= Q_of_nat (List.length matches)) /\
         (0 <= lo' /\ lo' <= hi' /\ hi' <= 50000)) /\
    (confidenceLevel == 1 ->
       upper (ci_averageCorrect ci) = None /\ upper (ci_expectedPayout ci) = None).
Proof.
  intros Hc0 Hc1.
  unfold simulateWithConfidenceIntervals.
  assert (Hbase : exists base,
             simulateRow rand row matches trials n
               = Ok (base, (n + trials * List.length matches)%nat)).
  { unfold simulateRow. unfold bind at 1.
    rewrite simulateRow_loop_draws. unfold ret. eauto. }
  destruct Hbase as [base Hbase].
  unfold bind at 1. rewrite Hbase.
  unfold bind at 1. unfold bootstrapSamples.
  destruct (bootstrap_loop_run rand row matches 1000 [] []
              (n + trials * List.length matches)%nat (Forall_nil _) (Forall_nil _))
    as (rs & ps & -> & Lr & Lp & Fr & Fp).
  cbn [List.length Nat.add] in Lr, Lp. cbn [fst snd]. unfold ret.
  do 2 eexists. split; [reflexivity|]. split; [reflexivity|].
  cbn [ci_averageCorrect ci_expectedPayout lower upper].
  assert (H1000 : Q_of_nat 1000 == 1000) by (vm_compute; reflexivity).
  set (lowerIndex := Qfloor ((1 - confidenceLevel) / 2 * Q_of_nat 1000)).
  set (upperIndex := Qfloor ((1 - (1 - confidenceLevel) / 2) * Q_of_nat 1000)).
  assert (Ll := Qfloor_le ((1 - confidenceLevel) / 2 * Q_of_nat 1000)).
  assert (Ul := Qlt_floor ((1 - confidenceLevel) / 2 * Q_of_nat 1000)).
  assert (Lu := Qfloor_le ((1 - (1 - confidenceLevel) / 2) * Q_of_nat 1000)).
  assert (Uu := Qlt_floor ((1 - (1 - confidenceLevel) / 2) * Q_of_nat 1000)).
  fold lowerIndex in Ll, Ul. fold upperIndex in Lu, Uu.
  rewrite inject_Z_plus in Ul, Uu. change (inject_Z 1) with 1 in Ul, Uu.
  rewrite H1000 in Ll, Ul, Lu, Uu.
  assert (Hl : (1 - confidenceLevel) / 2 * 1000 == 500 - 500 * confidenceLevel)
    by field.
  assert (Hu : (1 - (1 - confidenceLevel) / 2) * 1000 == 500 + 500 * confidenceLevel)
    by field.
  rewrite Hl in Ll, Ul. rewrite Hu in Lu, Uu.
  split.
  - intro Hlt.
    assert (I0 : (0 <= lowerIndex)%Z).
    { assert (H : inject_Z (-1) < inject_Z lowerIndex)
        by (change (inject_Z (-1)) with (-1); lra).
      rewrite <- Zlt_Qlt in H. lia. }
    assert (I1 : (lowerIndex <= 500)%Z).
    { rewrite Zle_Qle. change (inject_Z 500) with 500. lra. }
    assert (I2 : (500 <= upperIndex)%Z).
    { assert (H : inject_Z 499 < inject_Z upperIndex)
        by (change (inject_Z 499) with 499; lra).
      rewrite <- Zlt_Qlt in H. lia. }
    assert (I3 : (upperIndex < 1000)%Z).
    { rewrite Zlt_Qlt. change (inject_Z 1000) with 1000. lra. }
    destruct (percentile_pair rs _ lowerIndex upperIndex Fr)
      as (lo & hi & -> & -> & Hle & Plo & Phi); [lia| lia | rewrite Lr; lia |].
    destruct (percentile_pair ps _ lowerIndex upperIndex Fp)
      as (lo' & hi' & -> & -> & Hle' & Plo' & Phi'); [lia| lia | rewrite Lp; lia |].
    exists lo, hi, lo', hi'. cbn beta in Plo, Phi, Plo', Phi'.
    repeat split; solve [reflexivity | lra].
  - intro Heq.
    assert (I : upperIndex = 1000%Z).
    { assert (H1 : inject_Z 999 < inject_Z upperIndex)
        by (change (inject_Z 999) with 999; lra).
      assert (H2 : inject_Z upperIndex <= inject_Z 1000)
        by (change (inject_Z 1000) with 1000; lra).
      rewrite <- Zlt_Qlt in H1. rewrite <- Zle_Qle in H2. lia. }
    assert (Hlr := Permutation_length (sort_asc_by_Permutation (fun x : Q => x) rs)).
    assert (Hlp := Permutation_length (sort_asc_by_Permutation (fun x : Q => x) ps)).
    split; apply array_get_at_length; rewrite I; [rewrite Hlr, Lr|rewrite Hlp, Lp];
      reflexivity.
Qed.

Lemma simulateWithConfidenceIntervals_bounds_witness :
  exists base ci,
    simulateWithConfidenceIntervals example_rand example_row example_slate 4 0.95
        0%nat
      = Ok ((base, ci),
            (0 + 4 * List.length example_slate
               + 1000 * (1000 * List.length example_slate))%nat) /\
    simulateRow example_rand example_row example_slate 4 0%nat
      = Ok (base, (0 + 4 * List.length example_slate)%nat) /\
    (0.95 <= 0.999 ->
       exists lo hi lo' hi',
         ci_averageCorrect ci = {| lower := Some lo; upper := Some hi |} /\
         ci_expectedPayout ci = {| lower := Some lo'; upper := Some hi' |} /\
         (0 <= lo /\ lo <= hi /\ hi <= Q_of_nat (List.length example_slate)) /\
         (0 <= lo' /\ lo' <= hi' /\ hi' <= 50000)) /\
    (0.95 == 1 ->
       upper (ci_averageCorrect ci) = None /\ upper (ci_expectedPayout ci) = None).
Proof.
  apply (simulateWithConfidenceIntervals_bounds example_rand example_row
           example_slate 4 0.95 0%nat).
  - vm_compute; discriminate.
  - vm_compute; discriminate.
Defined.

(** ** Value bets *)

Lemma inverse_odds_positive (o : Q) : 0 < o -> 0 < 1 / o.
Proof. intro H. apply Qlt_shift_div_l; lra. Qed.

Lemma normalized_shares (a b c : Q) :
  0 < a -> 0 < b -> 0 < c ->
  0 < a / (a + b + c) /\ 0 < b / (a + b + c) /\ 0 < c / (a + b + c) /\
  a / (a + b + c) + b / (a + b + c) + c / (a + b + c) == 1.
Proof.
  intros Ha Hb Hc.
  repeat split; try (apply Qlt_shift_div_l; lra).
  field. lra.
Qed.

Lemma true_total_plain (nh nd na : Q) :
  nh + nd + na == 1 -> nh + 0.05 + (nd - 0.05 / 2) + (na - 0.05 / 2) == 1.
Proof. intro H. rewrite <- H. field. Qed.



Lemma calculateTrueProbabilities_plain (m : MatchWithOdds) :
  0 < home (odds m) -> 0 < draw (odds m) -> 0 < away (odds m) ->
  no_public_data m ->
  let t := calculateTrueProbabilities m in
  let p := oddsToNormalizedProbabilities (odds m) in
  home t == home p + 0.05 /\ draw t == draw p - 0.025 /\ away t == away p - 0.025.
Proof.
  intros Hh Hd Ha Hno.
  destruct (normalized_shares _ _ _ (inverse_odds_positive _ Hh)
              (inverse_odds_positive _ Hd) (inverse_odds_positive _ Ha))
    as (Hnh & Hnd & Hna & Hn).
  unfold calculateTrueProbabilities, oddsToNormalizedProbabilities.
  cbv zeta. cbn [home draw away].
  assert (Hs : match svenskaSpelData m with
               | Some d => svenskaFolket d
               | None => None
               end = None).
  { unfold no_public_data in Hno. destruct (svenskaSpelData m); [exact Hno|reflexivity]. }
  rewrite Hs. cbn [home draw away].
  set (nh := 1 / home (odds m) / _) in *.
  set (nd := 1 / draw (odds m) / _) in *.
  set (na := 1 / away (odds m) / _) in *.
  clearbody nh nd na.
  rewrite (true_total_plain nh nd na Hn).
  repeat split; field.
Qed.



Lemma insert_desc_by_sorted {A : Type} (key : A -> Q) (x : A) (l : list A) :
  StronglySorted (fun a b => key b <= key a) l ->
  StronglySorted (fun a b => key b <= key a) (insert_desc_by key x l).
Proof.
  induction l as [|y l IH]; intro Hs; cbn [insert_desc_by].
  - constructor; constructor.
  - inversion Hs as [|? ? Hl Hy]; subst.
    destruct (Qltb (key x) (key y)) eqn:E.
    + apply Qltb_true in E. constructor; [apply IH; assumption|].
      apply (Permutation_Forall
               (Permutation_sym (insert_desc_by_Permutation key x l))).
      constructor; [lra|assumption].
    + apply Qltb_false in E. constructor; [assumption|].
      constructor; [assumption|].
      eapply Forall_impl; [|exact Hy]. intros a Ha. cbn beta in Ha. lra.
Qed.

Lemma sort_desc_by_sorted {A : Type} (key : A -> Q) (l : list A) :
  StronglySorted (fun a b => key b <= key a) (sort_desc_by key l).
Proof.
  unfold sort_desc_by. induction l as [|x l IH]; cbn [fold_right].
  - constructor.
  - apply insert_desc_by_sorted, IH.
Qed.

Lemma calculateConfidence_range (p od : Q) (m : MatchWithOdds) :
  0.5 <= calculateConfidence p od m /\ calculateConfidence p od m <= 1.
Proof.
  unfold calculateConfidence.
  assert (Ha := Qabs_nonneg (p - 1 / od)).
  set (d := Qabs (p - 1 / od)) in *. clearbody d.
  assert (Hm : 0 <= Qmin (d * 2) 0.3).
  { apply Q.min_glb; lra. }
  split.
  - apply Q.min_glb; [|lra].
    destruct (Qgtb p 0.6 || Qltb p 0.2); lra.
  - eapply Qle_trans; [apply Q.le_min_r|]. vm_compute; discriminate.
Qed.

Lemma stake_of_value_bet (p od bankroll : Q) :
  0 < bankroll -> 1 < od -> 0 < KellyCriterion.calculateValue p od ->
  0 < KellyCriterion.calculateOptimalStake p od bankroll /\
  KellyCriterion.calculateOptimalStake p od bankroll <= 0.25 * bankroll.
Proof.
  unfold KellyCriterion.calculateValue, KellyCriterion.calculateOptimalStake.
  intros Hb Ho Hv.
  destruct (Qle_bool (p * od - 1) 0) eqn:E.
  - apply Qle_bool_iff in E. lra.
  - split; [|apply Q.le_min_r].
    apply Q.min_glb_lt; [|lra].
    apply Qmult_lt_0_compat; [|exact Hb].
    apply Qlt_shift_div_l; lra.
Qed.

Lemma scan_outcome_In (m : MatchWithOdds) (bankroll : Q) (st : OutcomeScan)
    (o : Outcome) (p od : Q) (bet : ValueBet) :
  In bet (scan_valueBets (scan_outcome m bankroll st (o, p, od))) <->
  In bet (scan_valueBets st) \/
  (0 < KellyCriterion.calculateValue p od /\
   bet = {| vb_matchId := matchId m;
            vb_outcome := o;
            value := KellyCriterion.calculateValue p od;
            kellyFraction :=
              KellyCriterion.calculateOptimalStake p od bankroll / bankroll;
            vb_confidence := calculateConfidence p od m;
            recommendedStake := KellyCriterion.calculateOptimalStake p od bankroll |}).
Proof.
  unfold scan_outcome.
  destruct (Qgtb (KellyCriterion.calculateValue p od) 0) eqn:E.
  - apply Qgtb_true in E.
    destruct (Qgtb _ (bestValue st)); cbn [scan_valueBets];
      rewrite in_app_iff; cbn [In]; intuition (subst; auto).
  - apply Qgtb_false in E.
    destruct (Qgtb _ (bestValue st)); cbn [scan_valueBets];
      intuition lra.
Qed.

Lemma scan_match_In (bankroll : Q) (st : list ValueBet * list (string * Outcome))
    (m : MatchWithOdds) (bet : ValueBet) :
  In bet (fst (scan_match bankroll st m)) <->
  In bet (fst st) \/ exists o, 0 < bet_value m o /\ bet = value_bet m bankroll o.
Proof.
  destruct st as [bets recs]. unfold scan_match. cbn [fold_left fst].
  rewrite !scan_outcome_In. cbn [scan_valueBets].
  split.
  - intros [[[H|[V E]]|[V E]]|[V E]].
    + left. exact H.
    + right. exists O1. split; assumption.
    + right. exists OX. split; assumption.
    + right. exists O2. split; assumption.
  - intros [H|[o [V E]]]; [auto|].
    destruct o; unfold bet_value, value_bet in V, E; cbn [prob_of] in V, E; auto.
Qed.

Lemma fold_scan_match_In (bankroll : Q) (matches : list MatchWithOdds) :
  forall (st : list ValueBet * list (string * Outcome)) (bet : ValueBet),
    In bet (fst (fold_left (scan_match bankroll) matches st)) <->
    In bet (fst st) \/
    exists m o, In m matches /\ 0 < bet_value m o /\ bet = value_bet m bankroll o.
Proof.
  induction matches as [|m0 rest IH]; intros st bet; cbn [fold_left].
  - split; [auto|]. intros [H|(m & o & [] & _)]. exact H.
  - rewrite IH, scan_match_In. split.
    + intros [[H|(o & V & E)]|(m & o & Hin & V & E)].
      * left. exact H.
      * right. exists m0, o. split; [left; reflexivity|]. split; assumption.
      * right. exists m, o. split; [right; exact Hin|]. split; assumption.
    + intros [H|(m & o & [<-|Hin] & V & E)].
      * left. left. exact H.
      * left. right. exists o. split; assumption.
      * right. exists m, o. split; [exact Hin|]. split; assumption.
Qed.

Lemma valueBets_membership (matches : list MatchWithOdds) (bankroll : Q)
    (bet : ValueBet) :
  In bet (valueBets (findValueBets matches bankroll)) <->
  exists m o, In m matches /\ 0 < bet_value m o /\ bet = value_bet m bankroll o.
Proof.
  unfold findValueBets.
  assert (H := fold_scan_match_In bankroll matches ([], []) bet).
  destruct (fold_left (scan_match bankroll) matches ([], [])) as [bets recs].
  cbn [fst] in H. cbn [valueBets].
  split.
  - intro Hin. apply (Permutation_in _ (sort_desc_by_Permutation value bets)) in Hin.
    apply H in Hin. destruct Hin as [[]|Hin]. exact Hin.
  - intro Hex.
    apply (Permutation_in _ (Permutation_sym (sort_desc_by_Permutation value bets))).
    apply H. right. exact Hex.
Qed.

(** X21: [findValueBets] reports exactly the value bets of the slate: an
    entry is in [valueBets] if and only if it is the entry of an outcome of
    one of the matches whose value (true probability times odds, minus 1) is
    positive. The entries are sorted by value, highest first, and
    [totalValue] is the sum of their values. *)
Theorem findValueBets_reports_positive_values (matches : list MatchWithOdds)
    (bankroll : Q) :
  let result := findValueBets matches bankroll in
  (forall bet,
     In bet (valueBets result) <->
     exists m o, In m matches /\ 0 < bet_value m o /\ bet = value_bet m bankroll o) /\
  StronglySorted (fun a b => value b <= value a) (valueBets result) /\
  totalValue result == Qsum (map value (valueBets result)).
Proof.
  split; [intro bet; apply valueBets_membership|].
  unfold findValueBets.
  destruct (fold_left (scan_match bankroll) matches ([], [])) as [bets recs].
  cbn [valueBets totalValue]. split.
  - apply sort_desc_by_sorted.
  - rewrite fold_left_sum_map. ring.
Qed.

(** X22: for a positive bankroll and odds above 1, every value bet that
    [findValueBets] reports has a positive value, a recommended stake that is
    positive and at most a quarter of the bankroll, a Kelly fraction that is
    this stake as a share of the bankroll, hence at most 0.25, and a
    confidence between 0.5 and 1. *)
Theorem findValueBets_stakes_bounded (matches : list MatchWithOdds) (bankroll : Q) :
  0 < bankroll ->
  Forall (fun m => 1 < home (odds m) /\ 1 < draw (odds m) /\ 1 < away (odds m))
         matches ->
  Forall (fun bet =>
            0 < value bet /\
            0 < recommendedStake bet /\
            recommendedStake bet <= 0.25 * bankroll /\
            kellyFraction bet * bankroll == recommendedStake bet /\
            (0 < kellyFraction bet /\ kellyFraction bet <= 0.25) /\
            (0.5 <= vb_confidence bet /\ vb_confidence bet <= 1))
         (valueBets (findValueBets matches bankroll)).
Proof.
  intros Hb Hodds. rewrite Forall_forall. intros bet Hin.
  apply valueBets_membership in Hin. destruct Hin as (m & o & Hm & V & ->).
  rewrite Forall_forall in Hodds. destruct (Hodds m Hm) as (O1' & O2' & O3').
  assert (Ho : 1 < prob_of (odds m) o) by (destruct o; assumption).
  unfold value_bet. cbn [value recommendedStake kellyFraction vb_confidence].
  unfold bet_value in V.
  destruct (stake_of_value_bet _ _ bankroll Hb Ho V) as [S0 S1].
  set (stake := KellyCriterion.calculateOptimalStake _ _ bankroll) in *.
  clearbody stake.
  split; [exact V|]. split; [exact S0|]. split; [exact S1|].
  split; [field; lra|]. split; [|apply calculateConfidence_range].
  split.
  - apply Qlt_shift_div_l; lra.
  - apply Qle_shift_div_r; lra.
Qed.

Lemma findValueBets_stakes_bounded_witness :
  Forall (fun bet =>
            0 < value bet /\
            0 < recommendedStake bet /\
            recommendedStake bet <= 0.25 * 1000 /\
            kellyFraction bet * 1000 == recommendedStake bet /\
            (0 < kellyFraction bet /\ kellyFraction bet <= 0.25) /\
            (0.5 <= vb_confidence bet /\ vb_confidence bet <= 1))
         (valueBets (findValueBets [example_tipped_match; example_contrarian_match]
                       1000)).
Proof.
  apply (findValueBets_stakes_bounded
           [example_tipped_match; example_contrarian_match] 1000).
  - vm_compute; reflexivity.
  - repeat (apply Forall_cons; [vm_compute; repeat split; reflexivity|]).
    apply Forall_nil.
Defined.

(** X23: on a slate whose matches carry no public percentages and whose
    odds are positive with implied probabilities that add up to at least 1
    (the bookmaker takes no negative margin), [findValueBets] never reports a
    draw or an away win: every value bet is on the home win. *)
Theorem findValueBets_without_public_data_backs_home (matches : list MatchWithOdds)
    (bankroll : Q) :
  Forall (fun m =>
            no_public_data m /\
            0 < home (odds m) /\ 0 < draw (odds m) /\ 0 < away (odds m) /\
            1 <= 1 / home (odds m) + 1 / draw (odds m) + 1 / away (odds m))
         matches ->
  Forall (fun bet => vb_outcome bet = O1) (valueBets (findValueBets matches bankroll)).
Proof.
  intros Hm. rewrite Forall_forall. intros bet Hin.
  apply valueBets_membership in Hin. destruct Hin as (m & o & Hin & V & ->).
  rewrite Forall_forall in Hm. destruct (Hm m Hin) as (Hno & Hh & Hd & Ha & Hov).
  cbn [value_bet vb_outcome].
  destruct (calculateTrueProbabilities_plain m Hh Hd Ha Hno) as (_ & Ed & Ea).
  cbv zeta in Ed, Ea. unfold oddsToNormalizedProbabilities in Ed, Ea.
  cbn [home draw away] in Ed, Ea.
  unfold bet_value, KellyCriterion.calculateValue in V.
  set (total := 1 / home (odds m) + 1 / draw (odds m) + 1 / away (odds m)) in *.
  clearbody total.
  assert (Hinv : 1 / total <= 1) by (apply Qle_shift_div_r; lra).
  destruct o; [reflexivity| |]; exfalso; cbn [prob_of] in V.
  - rewrite Ed in V.
    assert (E : (1 / draw (odds m) / total - 0.025) * draw (odds m) - 1
                == 1 / total - 0.025 * draw (odds m) - 1) by (field; lra).
    rewrite E in V. lra.
  - rewrite Ea in V.
    assert (E : (1 / away (odds m) / total - 0.025) * away (odds m) - 1
                == 1 / total - 0.025 * away (odds m) - 1) by (field; lra).
    rewrite E in V. lra.
Qed.

Lemma findValueBets_without_public_data_backs_home_witness :
  Forall (fun bet => vb_outcome bet = O1)
         (valueBets (findValueBets example_slate 1000)).
Proof.
  apply (findValueBets_without_public_data_backs_home example_slate 1000).
  unfold example_slate.
  repeat (apply Forall_cons;
          [vm_compute; repeat split; solve [discriminate | reflexivity]|]).
  apply Forall_nil.
Defined.

Lemma object_get_set_same {V : Type} (obj : list (string * V)) (k : string) (v : V) :
  object_get (object_set obj k v) k = Some v.
Proof.
  induction obj as [|[k' w] obj IH]; cbn [object_set object_get].
  - rewrite String.eqb_refl. reflexivity.
  - destruct (String.eqb k' k) eqn:E; cbn [object_get]; rewrite E;
      [reflexivity|exact IH].
Qed.

Lemma object_get_set_other {V : Type} (obj : list (string * V)) (k k' : string)
    (v : V) :
  k' <> k -> object_get (object_set obj k v) k' = object_get obj k'.
Proof.
  intro Hne. induction obj as [|[k0 w] obj IH]; cbn [object_set object_get].
  - destruct (String.eqb k k') eqn:E; [|reflexivity].
    apply String.eqb_eq in E. congruence.
  - destruct (String.eqb k0 k) eqn:E; cbn [object_get].
    + apply String.eqb_eq in E. subst k0.
      destruct (String.eqb k k') eqn:E'; [|reflexivity].
      apply String.eqb_eq in E'. congruence.
    + destruct (String.eqb k0 k'); [reflexivity|exact IH].
Qed.

Lemma scan_outcome_bestValue (m : MatchWithOdds) (bankroll : Q) (st : OutcomeScan)
    (o : Outcome) (p od : Q) :
  bestValue (scan_outcome m bankroll st (o, p, od))
  = if Qgtb (KellyCriterion.calculateValue p od) (bestValue st)
    then KellyCriterion.calculateValue p od else bestValue st.
Proof.
  unfold scan_outcome.
  destruct (Qgtb (KellyCriterion.calculateValue p od) (bestValue st)); reflexivity.
Qed.

Lemma scan_outcome_bestOutcome (m : MatchWithOdds) (bankroll : Q) (st : OutcomeScan)
    (o : Outcome) (p od : Q) :
  bestOutcome (scan_outcome m bankroll st (o, p, od))
  = if Qgtb (KellyCriterion.calculateValue p od) (bestValue st)
    then o else bestOutcome st.
Proof.
  unfold scan_outcome.
  destruct (Qgtb (KellyCriterion.calculateValue p od) (bestValue st)); reflexivity.
Qed.

Lemma scan_match_recommended (bankroll : Q)
    (st : list ValueBet * list (string * Outcome)) (m : MatchWithOdds) :
  exists bv bo,
    snd (scan_match bankroll st m)
    = (if Qgtb bv (-0.05) then object_set (snd st) (matchId m) bo else snd st) /\
    (forall o, bet_value m o <= bv) /\
    (-1 < bv -> bet_value m bo = bv).
Proof.
  destruct st as [bets recs]. unfold scan_match. cbn [fold_left snd].
  do 2 eexists. split; [reflexivity|].
  rewrite !scan_outcome_bestValue, !scan_outcome_bestOutcome.
  rewrite !scan_outcome_bestValue. cbn [bestValue bestOutcome].
  unfold bet_value.
  set (v1 := KellyCriterion.calculateValue (home (calculateTrueProbabilities m))
               (home (odds m))).
  set (vx := KellyCriterion.calculateValue (draw (calculateTrueProbabilities m))
               (draw (odds m))).
  set (v2 := KellyCriterion.calculateValue (away (calculateTrueProbabilities m))
               (away (odds m))).
  destruct (Qgtb v1 (-1)) eqn:E1;
    [apply Qgtb_true in E1|apply Qgtb_false in E1];
    (destruct (Qgtb vx _) eqn:Ex;
      [apply Qgtb_true in Ex|apply Qgtb_false in Ex]);
    (destruct (Qgtb v2 _) eqn:E2;
      [apply Qgtb_true in E2|apply Qgtb_false in E2]);
    (split; [intros []; cbn [prob_of]; fold v1 vx v2; lra
            |intro Hb; cbn [prob_of]; first [reflexivity | lra]]).
Qed.

Lemma fold_scan_match_other (bankroll : Q) (matches : list MatchWithOdds) :
  forall (st : list ValueBet * list (string * Outcome)) (k : string),
    ~ In k (map matchId matches) ->
    object_get (snd (fold_left (scan_match bankroll) matches st)) k
    = object_get (snd st) k.
Proof.
  induction matches as [|m0 rest IH]; intros st k Hk; cbn [fold_left];
    [reflexivity|].
  cbn [map In] in Hk. rewrite IH by tauto.
  destruct (scan_match_recommended bankroll st m0) as (bv & bo & -> & _ & _).
  destruct (Qgtb bv (-0.05)); [|reflexivity].
  apply object_get_set_other. intro E. apply Hk. left. symmetry. exact E.
Qed.

Lemma fold_scan_match_recommended (bankroll : Q) (matches : list MatchWithOdds) :
  NoDup (map matchId matches) ->
  forall (st : list ValueBet * list (string * Outcome)) (m : MatchWithOdds),
    In m matches ->
    (exists o,
       object_get (snd (fold_left (scan_match bankroll) matches st)) (matchId m)
         = Some o /\
       (forall o', bet_value m o' <= bet_value m o) /\
       -0.05 < bet_value m o) \/
    (object_get (snd (fold_left (scan_match bankroll) matches st)) (matchId m)
       = object_get (snd st) (matchId m) /\
     forall o', bet_value m o' <= -0.05).
Proof.
  induction matches as [|m0 rest IH]; intros Hnd st m Hin; [destruct Hin|].
  cbn [map] in Hnd. inversion Hnd as [|? ? Hnotin Hnd']; subst.
  cbn [fold_left]. destruct Hin as [<-|Hin].
  - rewrite (fold_scan_match_other bankroll rest _ _ Hnotin).
    destruct (scan_match_recommended bankroll st m0) as (bv & bo & -> & Hmax & Hbest).
    destruct (Qgtb bv (-0.05)) eqn:E.
    + apply Qgtb_true in E. left. exists bo.
      rewrite object_get_set_same. split; [reflexivity|].
      assert (Hbv : bet_value m0 bo = bv) by (apply Hbest; lra).
      rewrite Hbv. split; [exact Hmax|exact E].
    + apply Qgtb_false in E. right. split; [reflexivity|].
      intro o'. specialize (Hmax o'). lra.
  - destruct (IH Hnd' (scan_match bankroll st m0) m Hin) as [Hl|[Hget Hall]];
      [left; exact Hl|].
    right. split; [|exact Hall]. rewrite Hget.
    destruct (scan_match_recommended bankroll st m0) as (bv & bo & -> & _ & _).
    destruct (Qgtb bv (-0.05)); [|reflexivity].
    apply object_get_set_other. intro E. apply Hnotin.
    rewrite <- E. apply in_map, Hin.
Qed.

(** X24: on a slate whose match ids are distinct, the outcome that
    [findValueBets] recommends for a match is one of highest value among its
    three outcomes, and that value is above -0.05; a match has no
    recommendation exactly when none of its outcomes has a value above
    -0.05. *)
Theorem findValueBets_recommends_best_value (matches : list MatchWithOdds)
    (bankroll : Q) (m : MatchWithOdds) :
  NoDup (map matchId matches) ->
  In m matches ->
  match object_get (recommendedOutcomes (findValueBets matches bankroll)) (matchId m) with
  | Some o => (forall o', bet_value m o' <= bet_value m o) /\ -0.05 < bet_value m o
  | None => forall o', bet_value m o' <= -0.05
  end.
Proof.
  intros Hnd Hin.
  assert (H := fold_scan_match_recommended bankroll matches Hnd ([], []) m Hin).
  unfold findValueBets.
  destruct (fold_left (scan_match bankroll) matches ([], [])) as [bets recs].
  cbn [snd object_get] in H. cbn [recommendedOutcomes].
  destruct H as [(o & -> & Hmax & Hv)|[-> Hall]].
  - split; assumption.
  - exact Hall.
Qed.

Lemma findValueBets_recommends_best_value_witness :
  match object_get
          (recommendedOutcomes
             (findValueBets [example_tipped_match; example_contrarian_match] 1000))
          (matchId example_contrarian_match) with
  | Some o =>
      (forall o', bet_value example_contrarian_match o'
                  <= bet_value example_contrarian_match o) /\
      -0.05 < bet_value example_contrarian_match o
  | None => forall o', bet_value example_contrarian_match o' <= -0.05
  end.
Proof.
  apply (findValueBets_recommends_best_value
           [example_tipped_match; example_contrarian_match] 1000
           example_contrarian_match).
  - repeat constructor; cbn; intuition discriminate.
  - right. left. reflexivity.
Defined.

(** ** System sizes *)

Lemma findIndex_from_ge {A : Type} (p : A -> bool) (l : list A) :
  forall i j, findIndex_from p l i = Some j -> (i <= j)%nat.
Proof.
  induction l as [|x l IH]; intros i j H; cbn [findIndex_from] in H; [discriminate|].
  destruct (p x).
  - injection H as <-. lia.
  - apply IH in H. lia.
Qed.

Lemma findIndex_first {A : Type} (p : A -> bool) (pre : list A) (x : A)
    (post : list A) :
  forall i0,
    match findIndex_from p (pre ++ x :: post) i0 with
    | Some i => (i =? i0 + List.length pre)%nat
    | None => false
    end
    = forallb (fun y => negb (p y)) pre && p x.
Proof.
  induction pre as [|y pre IH]; intro i0;
    cbn [app findIndex_from forallb List.length].
  - destruct (p x) eqn:E; cbn [andb].
    + rewrite Nat.add_0_r. apply Nat.eqb_refl.
    + destruct (findIndex_from p post (S i0)) as [j|] eqn:Ej; [|reflexivity].
      apply findIndex_from_ge in Ej. apply Nat.eqb_neq. lia.
  - destruct (p y) eqn:E; cbn [negb andb].
    + apply Nat.eqb_neq. lia.
    + replace (i0 + S (List.length pre))%nat
        with (S i0 + List.length pre)%nat by lia.
      apply (IH (S i0)).
Qed.

Lemma filter_indexed_first (whole : list SystemConfiguration) :
  forall l' pre,
    whole = pre ++ l' ->
    filter_indexed_from
      (fun system index =>
         match findIndex (fun s => (totalRows s =? totalRows system)%Z) whole with
         | Some i => (i =? index)%nat
         | None => false
         end)
      l' (List.length pre)
    = first_of_each_size pre l'.
Proof.
  induction l' as [|x r IH]; intros pre E;
    cbn [filter_indexed_from first_of_each_size]; [reflexivity|].
  assert (Hkeep := findIndex_first (fun s => (totalRows s =? totalRows x)%Z) pre x r 0).
  cbn [Nat.add] in Hkeep. rewrite <- E in Hkeep. unfold findIndex.
  rewrite Hkeep, Z.eqb_refl, andb_true_r.
  assert (E' : whole = (pre ++ [x]) ++ r) by (rewrite <- app_assoc; exact E).
  specialize (IH (pre ++ [x]) E').
  rewrite length_app in IH. cbn [List.length] in IH.
  replace (List.length pre + 1)%nat with (S (List.length pre)) in IH by lia.
  unfold findIndex in IH. rewrite IH. reflexivity.
Qed.

Lemma filter_indexed_first_all (whole : list SystemConfiguration) :
  filter_indexed_from
    (fun system index =>
       match findIndex (fun s => (totalRows s =? totalRows system)%Z) whole with
       | Some i => (i =? index)%nat
       | None => false
       end)
    whole 0
  = first_of_each_size [] whole.
Proof. exact (filter_indexed_first whole whole [] eq_refl). Qed.

Lemma unseen_filter (q : Z -> bool) (x : SystemConfiguration) (seen : list SystemConfiguration) :
  q (totalRows x) = true ->
  forallb (fun s => negb (totalRows s =? totalRows x)%Z)
    (filter (fun s => q (totalRows s)) seen)
  = forallb (fun s => negb (totalRows s =? totalRows x)%Z) seen.
Proof.
  intro Hx. induction seen as [|y seen IH]; cbn [filter forallb]; [reflexivity|].
  destruct (q (totalRows y)) eqn:Hy; cbn [forallb].
  - rewrite IH. reflexivity.
  - rewrite IH.
    destruct (totalRows y =? totalRows x)%Z eqn:E; [|reflexivity].
    apply Z.eqb_eq in E. congruence.
Qed.

Lemma first_of_each_size_filter (q : Z -> bool) (l : list SystemConfiguration) :
  forall seen,
    first_of_each_size (filter (fun s => q (totalRows s)) seen)
      (filter (fun s => q (totalRows s)) l)
    = filter (fun s => q (totalRows s)) (first_of_each_size seen l).
Proof.
  induction l as [|x l IH]; intro seen; cbn [filter first_of_each_size];
    [reflexivity|].
  specialize (IH (seen ++ [x])). rewrite filter_app in IH. cbn [filter] in IH.
  destruct (q (totalRows x)) eqn:Hx.
  - cbn [first_of_each_size]. rewrite (unseen_filter q x seen Hx), IH.
    destruct (forallb _ seen); cbn [filter]; [rewrite Hx|]; reflexivity.
  - rewrite app_nil_r in IH. rewrite IH.
    destruct (forallb _ seen); cbn [filter]; [rewrite Hx|]; reflexivity.
Qed.

Lemma insert_asc_by_key_sorted {A : Type} (key : A -> Q) (x : A) (l : list A) :
  StronglySorted (fun a b => key a <= key b) l ->
  StronglySorted (fun a b => key a <= key b) (insert_asc_by key x l).
Proof.
  induction l as [|y l IH]; intro Hs; cbn [insert_asc_by].
  - constructor; constructor.
  - inversion Hs as [|? ? Hl Hy]; subst.
    destruct (Qltb (key y) (key x)) eqn:E.
    + apply Qltb_true in E. constructor; [apply IH; assumption|].
      apply (Permutation_Forall
               (Permutation_sym (insert_asc_by_Permutation key x l))).
      constructor; [lra|assumption].
    + apply Qltb_false in E. constructor; [assumption|].
      constructor; [assumption|].
      eapply Forall_impl; [|exact Hy]. intros a Ha. cbn beta in Ha. lra.
Qed.

Lemma sort_asc_by_key_sorted {A : Type} (key : A -> Q) (l : list A) :
  StronglySorted (fun a b => key a <= key b) (sort_asc_by key l).
Proof.
  unfold sort_asc_by. induction l as [|x l IH]; cbn [fold_right].
  - constructor.
  - apply insert_asc_by_key_sorted, IH.
Qed.

Lemma insert_asc_by_front {A : Type} (key : A -> Q) (x : A) (l : list A) :
  Forall (fun z => key x <= key z) l -> insert_asc_by key x l = x :: l.
Proof.
  intro H. destruct l as [|y l]; [reflexivity|]. cbn [insert_asc_by].
  inversion H as [|? ? Hy _]; subst.
  destruct (Qltb (key y) (key x)) eqn:E; [|reflexivity].
  apply Qltb_true in E. lra.
Qed.

Lemma insert_asc_by_filter_keep {A : Type} (key : A -> Q) (p : A -> bool) (x : A)
    (l : list A) :
  p x = true ->
  StronglySorted (fun a b => key a <= key b) l ->
  filter p (insert_asc_by key x l) = insert_asc_by key x (filter p l).
Proof.
  intros Hx. induction l as [|y l IH]; intro Hs; cbn [insert_asc_by filter].
  - rewrite Hx. reflexivity.
  - inversion Hs as [|? ? Hl Hy]; subst.
    destruct (Qltb (key y) (key x)) eqn:E.
    + cbn [filter]. destruct (p y); cbn [insert_asc_by].
      * rewrite E, (IH Hl). reflexivity.
      * apply IH, Hl.
    + apply Qltb_false in E. cbn [filter]. rewrite Hx.
      destruct (p y).
      * cbn [insert_asc_by].
        destruct (Qltb (key y) (key x)) eqn:E'; [apply Qltb_true in E'; lra|].
        reflexivity.
      * symmetry. apply insert_asc_by_front.
        rewrite Forall_forall. intros z Hz. apply filter_In in Hz.
        rewrite Forall_forall in Hy. specialize (Hy z (proj1 Hz)).
        cbn beta in Hy. lra.
Qed.

Lemma insert_asc_by_filter_drop {A : Type} (key : A -> Q) (p : A -> bool) (x : A)
    (l : list A) :
  p x = false -> filter p (insert_asc_by key x l) = filter p l.
Proof.
  intros Hx. induction l as [|y l IH]; cbn [insert_asc_by filter].
  - rewrite Hx. reflexivity.
  - destruct (Qltb (key y) (key x)); cbn [filter].
    + rewrite IH. reflexivity.
    + rewrite Hx. reflexivity.
Qed.

Lemma sort_asc_by_filter {A : Type} (key : A -> Q) (p : A -> bool) (l : list A) :
  filter p (sort_asc_by key l) = sort_asc_by key (filter p l).
Proof.
  induction l as [|x l IH]; [reflexivity|].
  change (sort_asc_by key (x :: l)) with (insert_asc_by key x (sort_asc_by key l)).
  cbn [filter]. destruct (p x) eqn:Hx.
  - change (sort_asc_by key (x :: filter p l))
      with (insert_asc_by key x (sort_asc_by key (filter p l))).
    rewrite <- IH. apply insert_asc_by_filter_keep; [exact Hx|].
    apply sort_asc_by_key_sorted.
  - rewrite insert_asc_by_filter_drop by exact Hx. exact IH.
Qed.

Lemma flat_map_filter_in {A B : Type} (p : B -> bool) (f g : A -> list B)
    (l : list A) :
  (forall x, In x l -> f x = filter p (g x)) ->
  flat_map f l = filter p (flat_map g l).
Proof.
  induction l as [|x l IH]; intro H; cbn [flat_map]; [reflexivity|].
  rewrite filter_app, <- IH, <- H.
  - reflexivity.
  - left. reflexivity.
  - intros y Hy. apply H. right. exact Hy.
Qed.

Lemma calculateRows_bounds (h f s : nat) :
  (h <= 10)%nat -> (f <= 6)%nat ->
  (1 <= StryktipsetSystemCalculator.calculateRows h f s <= 746496)%Z.
Proof.
  intros Hh Hf. unfold StryktipsetSystemCalculator.calculateRows.
  rewrite Z.pow_1_l by lia. rewrite Z.mul_1_r.
  assert (P2 : (0 < 2 ^ Z.of_nat h)%Z) by (apply Z.pow_pos_nonneg; lia).
  assert (P3 : (0 < 3 ^ Z.of_nat f)%Z) by (apply Z.pow_pos_nonneg; lia).
  assert (H2 : (2 ^ Z.of_nat h <= 2 ^ 10)%Z) by (apply Z.pow_le_mono_r; lia).
  assert (H3 : (3 ^ Z.of_nat f <= 3 ^ 6)%Z) by (apply Z.pow_le_mono_r; lia).
  change (2 ^ 10)%Z with 1024%Z in H2. change (3 ^ 6)%Z with 729%Z in H3.
  nia.
Qed.

Lemma candidate_filter (maxRows : Q) (h f s : nat) :
  (h <= 10)%nat -> (f <= 6)%nat ->
  StryktipsetSystemCalculator.candidate maxRows h f s
  = filter (fun x => negb (Qgtb (inject_Z (totalRows x)) maxRows))
      (StryktipsetSystemCalculator.candidate largest_system h f s).
Proof.
  intros Hh Hf. unfold StryktipsetSystemCalculator.candidate.
  destruct (h + f + s =? 0)%nat; [reflexivity|].
  destruct (13 <? h + f + s)%nat; [reflexivity|].
  destruct (calculateRows_bounds h f s Hh Hf) as [Hlo Hhi].
  set (rows := StryktipsetSystemCalculator.calculateRows h f s) in *.
  assert (Hbig : Qgtb (inject_Z rows) largest_system = false).
  { apply Qgtb_false. unfold largest_system.
    change 746496 with (inject_Z 746496). rewrite <- Zle_Qle. exact Hhi. }
  rewrite Hbig.
  destruct (rows =? 0)%Z eqn:E0; [apply Z.eqb_eq in E0; lia|]. cbn [orb].
  destruct (Qgtb (inject_Z rows) maxRows) eqn:EM;
    destruct ((h =? 0)%nat && (f =? 0)%nat && (1 <? s)%nat);
    cbn [filter totalRows]; rewrite ?EM; reflexivity.
Qed.

Lemma generateAllValidSystems_table (maxRows : Q) :
  StryktipsetSystemCalculator.generateAllValidSystems maxRows
  = filter (fun x => negb (Qgtb (inject_Z (totalRows x)) maxRows))
      (StryktipsetSystemCalculator.generateAllValidSystems largest_system).
Proof.
  unfold StryktipsetSystemCalculator.generateAllValidSystems, filter_indexed.
  cbv zeta.
  rewrite !filter_indexed_first_all.
  rewrite sort_asc_by_filter. f_equal.
  rewrite <- (first_of_each_size_filter
                (fun z => negb (Qgtb (inject_Z z) maxRows)) _ []).
  cbn [filter]. f_equal.
  apply flat_map_filter_in. intros h Hh. apply in_seq in Hh.
  apply flat_map_filter_in. intros f Hf. apply in_seq in Hf.
  apply flat_map_filter_in. intros s _.
  apply candidate_filter; lia.
Qed.

Lemma StronglySorted_filter {A : Type} (R : A -> A -> Prop) (p : A -> bool)
    (l : list A) :
  StronglySorted R l -> StronglySorted R (filter p l).
Proof.
  induction 1 as [|x l Hs IH Hx]; cbn [filter]; [constructor|].
  destruct (p x); [|exact IH].
  constructor; [exact IH|].
  rewrite Forall_forall in *. intros y Hy. apply filter_In in Hy. apply Hx, Hy.
Qed.

Lemma all_systems_ascending :
  StronglySorted (fun a b => (totalRows a < totalRows b)%Z)
    (StryktipsetSystemCalculator.generateAllValidSystems largest_system).
Proof.
  apply Sorted_StronglySorted.
  - intros a b c Hab Hbc. eapply Z.lt_trans; eassumption.
  - remember (StryktipsetSystemCalculator.generateAllValidSystems largest_system)
      as T eqn:E.
    vm_compute in E. subst T.
    repeat (constructor; try reflexivity).
Qed.

Lemma all_systems_shape :
  Forall (fun s =>
            let d := distribution s in
            (0 <= halves d <= 10)%Z /\ (0 <= fulls d <= 6)%Z /\
            (halves d + fulls d <= 13)%Z /\
            singles d = (if (halves d + fulls d =? 0)%Z then 1 else 0)%Z /\
            totalRows s = (2 ^ halves d * 3 ^ fulls d)%Z /\
            cost s == inject_Z (totalRows s) /\ costPerRow s == 1)
    (StryktipsetSystemCalculator.generateAllValidSystems largest_system).
Proof.
  remember (StryktipsetSystemCalculator.generateAllValidSystems largest_system)
    as T eqn:E.
  vm_compute in E. subst T.
  repeat (apply Forall_cons;
          [cbn [distribution halves fulls singles totalRows cost costPerRow];
           repeat split; solve [reflexivity | discriminate]|]).
  apply Forall_nil.
Qed.

Lemma all_sizes_offered :
  forallb (fun h =>
    forallb (fun f =>
      (13 <? h + f)%nat
      || existsb (Z.eqb (2 ^ Z.of_nat h * 3 ^ Z.of_nat f))
           (StryktipsetSystemCalculator.getAvailableSystemSizes largest_system))
      (seq 0 7))
    (seq 0 11) = true.
Proof. vm_compute. reflexivity. Qed.

Lemma systems_shape (maxRows : Q) (s : SystemConfiguration) :
  In s (StryktipsetSystemCalculator.generateAllValidSystems maxRows) ->
  let d := distribution s in
  (0 <= halves d <= 10)%Z /\ (0 <= fulls d <= 6)%Z /\
  (halves d + fulls d <= 13)%Z /\
  singles d = (if (halves d + fulls d =? 0)%Z then 1 else 0)%Z /\
  totalRows s = (2 ^ halves d * 3 ^ fulls d)%Z /\
  inject_Z (totalRows s) <= maxRows /\
  cost s == inject_Z (totalRows s) /\ costPerRow s == 1.
Proof.
  rewrite generateAllValidSystems_table. intro Hin. apply filter_In in Hin.
  destruct Hin as [Hin Hmax].
  apply negb_true_iff, Qgtb_false in Hmax.
  assert (H := all_systems_shape). rewrite Forall_forall in H.
  destruct (H s Hin) as (H1 & H2 & H3 & H4 & H5 & H6 & H7).
  cbv zeta. repeat split; tauto.
Qed.

(** X25: whatever [maxRows] is, [generateAllValidSystems] offers each
    number of rows at most once, in strictly ascending order; every offered
    system has between 0 and 10 halves and 0 and 6 fulls, at most 13 together,
    exactly [2^halves * 3^fulls] rows, at most [maxRows], and a cost equal to
    its rows at 1 per row; and it counts no singles at all, except the
    one-row system, which counts one. Conversely every product
    [2^h * 3^f] with [h <= 10], [f <= 6] and [h + f <= 13] that does not
    exceed [maxRows] is an offered size. *)
Theorem generateAllValidSystems_offers_products (maxRows : Q) :
  let systems := StryktipsetSystemCalculator.generateAllValidSystems maxRows in
  StronglySorted (fun a b => (totalRows a < totalRows b)%Z) systems /\
  Forall (fun s =>
            let d := distribution s in
            (0 <= halves d <= 10)%Z /\ (0 <= fulls d <= 6)%Z /\
            (halves d + fulls d <= 13)%Z /\
            singles d = (if (halves d + fulls d =? 0)%Z then 1 else 0)%Z /\
            totalRows s = (2 ^ halves d * 3 ^ fulls d)%Z /\
            inject_Z (totalRows s) <= maxRows /\
            cost s == inject_Z (totalRows s) /\ costPerRow s == 1)
         systems /\
  (forall h f : nat,
     (h <= 10)%nat -> (f <= 6)%nat -> (h + f <= 13)%nat ->
     inject_Z (2 ^ Z.of_nat h * 3 ^ Z.of_nat f) <= maxRows ->
     In (2 ^ Z.of_nat h * 3 ^ Z.of_nat f)%Z
        (StryktipsetSystemCalculator.getAvailableSystemSizes maxRows)).
Proof.
  cbv zeta. split; [|split].
  - rewrite generateAllValidSystems_table.
    apply StronglySorted_filter, all_systems_ascending.
  - rewrite Forall_forall. intros s Hs. apply (systems_shape maxRows s Hs).
  - intros h f Hh Hf Hhf Hmax.
    assert (H := all_sizes_offered).
    rewrite forallb_forall in H.
    assert (Inh : In h (seq 0 11)) by (apply in_seq; lia).
    assert (Inf : In f (seq 0 7)) by (apply in_seq; lia).
    specialize (H h Inh). rewrite forallb_forall in H. specialize (H f Inf).
    apply orb_true_iff in H. destruct H as [H|H]; [apply Nat.ltb_lt in H; lia|].
    apply existsb_exists in H. destruct H as (z & Hz & Ez).
    apply Z.eqb_eq in Ez. subst z.
    unfold StryktipsetSystemCalculator.getAvailableSystemSizes in *.
    apply in_map_iff in Hz. destruct Hz as (s & Es & Hs).
    apply in_map_iff. exists s. split; [exact Es|].
    rewrite generateAllValidSystems_table. apply filter_In. split; [exact Hs|].
    apply negb_true_iff, Qgtb_false. rewrite Es. exact Hmax.
Qed.

(** X26: every system that [generateAllValidSystems] offers can be
    generated: on a slate of 13 matches, with a random source that keeps its
    contract, [generateSystem] returns for it a system of exactly
    [totalRows] rows, whose plan has the configured numbers of half and
    full coverages and a single outcome on all the other matches, although
    the configuration itself counts no singles. *)
Theorem offered_system_generates_its_rows (rand : nat -> Q) (log2 : Q -> Q)
    (matches : list MatchWithOdds) (maxRows : Q) (config : SystemConfiguration)
    (riskProfile : RiskProfile) (n : nat) :
  random_contract rand ->
  List.length matches = 13%nat ->
  In config (StryktipsetSystemCalculator.generateAllValidSystems maxRows) ->
  exists sys n' plan,
    generateSystem rand log2 matches config riskProfile n = Ok (sys, n') /\
    sys_matches sys = map Some plan /\
    Z.of_nat (List.length (allRows sys)) = totalRows config /\
    Z.of_nat (class_count Half plan) = halves (distribution config) /\
    Z.of_nat (class_count Full plan) = fulls (distribution config) /\
    Z.of_nat (class_count Single plan)
      = (13 - halves (distribution config) - fulls (distribution config))%Z.
Proof.
  intros contract Hlen Hin.
  destruct (systems_shape maxRows config Hin)
    as (Hh & Hf & Hhf & _ & Hrows & _).
  cbv zeta in Hh, Hf, Hhf, Hrows.
  destruct (returns_generateSystem rand log2 matches config riskProfile contract Hlen n)
    as (sys & n' & E & plan & Eplan & Ematch & Ehalf & Efull & Erows).
  pose proof (class_count_total plan) as Htotal.
  rewrite <- (length_map sm_match), Ematch, Hlen in Htotal.
  unfold fulls_assigned, halves_assigned in Ehalf, Efull.
  exists sys, n', plan.
  split; [exact E|]. split; [exact Eplan|].
  assert (Eh : Z.of_nat (class_count Half plan) = halves (distribution config))
    by lia.
  assert (Ef : Z.of_nat (class_count Full plan) = fulls (distribution config))
    by lia.
  split; [|split; [exact Eh|split; [exact Ef|lia]]].
  rewrite <- (length_map outcomes), Erows, rows_of_classes, Eh, Ef, Hrows.
  reflexivity.
Qed.

Lemma offered_96_is_offered :
  In offered_96 (StryktipsetSystemCalculator.generateAllValidSystems 1000).
Proof. vm_compute. do 19 right. left. reflexivity. Qed.

Lemma offered_system_generates_its_rows_witness :
  exists sys n' plan,
    generateSystem example_rand example_log2 example_slate offered_96
      "balanced"%string 0%nat = Ok (sys, n') /\
    sys_matches sys = map Some plan /\
    Z.of_nat (List.length (allRows sys)) = totalRows offered_96 /\
    Z.of_nat (class_count Half plan) = halves (distribution offered_96) /\
    Z.of_nat (class_count Full plan) = fulls (distribution offered_96) /\
    Z.of_nat (class_count Single plan)
      = (13 - halves (distribution offered_96) - fulls (distribution offered_96))%Z.
Proof.
  apply (offered_system_generates_its_rows example_rand example_log2 example_slate
           1000 offered_96 "balanced"%string 0%nat).
  - exact example_rand_contract.
  - reflexivity.
  - exact offered_96_is_offered.
Defined.

Lemma closest_scan (targetRows : Q) (l : list SystemConfiguration) :
  forall (closest : SystemConfiguration) (minDiff : Q),
    minDiff == Qabs (inject_Z (totalRows closest) - targetRows) ->
    let result :=
      fst (fold_left
             (fun (st : SystemConfiguration * Q) system =>
                let diff := Qabs (inject_Z (totalRows system) - targetRows) in
                if Qltb diff (snd st) then (system, diff) else st)
             l (closest, minDiff)) in
    (result = closest \/ In result l) /\
    Qabs (inject_Z (totalRows result) - targetRows) <= minDiff /\
    forall s, In s l ->
      Qabs (inject_Z (totalRows result) - targetRows)
      <= Qabs (inject_Z (totalRows s) - targetRows).
Proof.
  induction l as [|x l IH]; intros closest minDiff Hd; cbn [fold_left fst snd].
  - split; [left; reflexivity|]. split; [rewrite Hd; apply Qle_refl|].
    intros s [].
  - cbv zeta.
    destruct (Qltb (Qabs (inject_Z (totalRows x) - targetRows)) minDiff) eqn:E.
    + apply Qltb_true in E.
      destruct (IH x (Qabs (inject_Z (totalRows x) - targetRows)) (Qeq_refl _))
        as (Hin & Hle & Hall).
      cbv zeta in Hin, Hle, Hall.
      split; [right; destruct Hin as [->|Hin]; [left; reflexivity|right; exact Hin]|].
      split; [lra|].
      intros s [<-|Hs]; [exact Hle|apply Hall, Hs].
    + apply Qltb_false in E.
      destruct (IH closest minDiff Hd) as (Hin & Hle & Hall).
      cbv zeta in Hin, Hle, Hall.
      split; [destruct Hin as [->|Hin]; [left; reflexivity|right; right; exact Hin]|].
      split; [exact Hle|].
      intros s [<-|Hs]; [lra|apply Hall, Hs].
Qed.

(** X27: [findClosestSystem] never fails: for every target it returns one
    of the systems offered up to 1000 rows, and no offered system has a
    number of rows closer to the target. In particular the result has between
    1 and 1000 rows, and a target that is an offered size is returned
    exactly. *)
Theorem findClosestSystem_is_closest (targetRows : Q) :
  exists s,
    StryktipsetSystemCalculator.findClosestSystem targetRows = Ok s /\
    In s (StryktipsetSystemCalculator.generateAllValidSystems
            StryktipsetSystemCalculator.default_maxRows) /\
    (1 <= totalRows s <= 1000)%Z /\
    forall s',
      In s' (StryktipsetSystemCalculator.generateAllValidSystems
               StryktipsetSystemCalculator.default_maxRows) ->
      Qabs (inject_Z (totalRows s) - targetRows)
      <= Qabs (inject_Z (totalRows s') - targetRows).
Proof.
  assert (Hrange : forall s,
             In s (StryktipsetSystemCalculator.generateAllValidSystems
                     StryktipsetSystemCalculator.default_maxRows) ->
             (1 <= totalRows s <= 1000)%Z).
  { intros s Hs.
    destruct (systems_shape _ s Hs) as (Hh & Hf & _ & _ & Hrows & Hmax & _).
    cbv zeta in Hh, Hf, Hrows.
    assert (P2 : (0 < 2 ^ halves (distribution s))%Z)
      by (apply Z.pow_pos_nonneg; lia).
    assert (P3 : (0 < 3 ^ fulls (distribution s))%Z)
      by (apply Z.pow_pos_nonneg; lia).
    split; [rewrite Hrows; nia|].
    unfold StryktipsetSystemCalculator.default_maxRows in Hmax.
    change 1000 with (inject_Z 1000) in Hmax. rewrite <- Zle_Qle in Hmax.
    exact Hmax. }
  unfold StryktipsetSystemCalculator.findClosestSystem. cbv zeta.
  set (allSystems := StryktipsetSystemCalculator.generateAllValidSystems
                       StryktipsetSystemCalculator.default_maxRows) in *.
  destruct (find (fun s => Qeq_bool (inject_Z (totalRows s)) targetRows) allSystems)
    as [exactMatch|] eqn:Efind.
  - apply find_some in Efind. destruct Efind as [Hin Heq].
    apply Qeq_bool_iff in Heq.
    exists exactMatch. split; [reflexivity|]. split; [exact Hin|].
    split; [apply Hrange, Hin|].
    intros s' _.
    assert (E0 : inject_Z (totalRows exactMatch) - targetRows == 0)
      by (rewrite Heq; ring).
    rewrite E0. change (Qabs 0) with 0. apply Qabs_nonneg.
  - clear Efind.
    assert (Hne : allSystems <> []).
    { unfold allSystems. vm_compute. discriminate. }
    clearbody allSystems.
    destruct allSystems as [|first rest]; [congruence|].
    destruct (closest_scan targetRows (first :: rest) first
                (Qabs (inject_Z (totalRows first) - targetRows)) (Qeq_refl _))
      as (Hin & _ & Hall).
    cbv zeta in Hin, Hall.
    eexists. split; [reflexivity|].
    assert (Hin' : In (fst (fold_left
                              (fun (st : SystemConfiguration * Q) system =>
                                 if Qltb (Qabs (inject_Z (totalRows system) - targetRows))
                                      (snd st)
                                 then (system,
                                       Qabs (inject_Z (totalRows system) - targetRows))
                                 else st)
                              (first :: rest)
                              (first, Qabs (inject_Z (totalRows first) - targetRows))))
                      (first :: rest)).
    { destruct Hin as [->|Hin]; [left; reflexivity|exact Hin]. }
    split; [exact Hin'|]. split; [apply Hrange, Hin'|exact Hall].
Qed.

(** ** Single rows *)

Lemma selectEVBasedOutcome_ok (rand : nat -> Q) (odds_ probs : Triple) (rf : Q)
    (n : nat) :
  exists o n', selectEVBasedOutcome rand odds_ probs rf n = Ok (o, n').
Proof.
  unfold selectEVBasedOutcome, bind, random.
  destruct (Qltb (rand n) rf).
  - destruct (selectWeightedRandomOutcome_ok rand probs (S n)) as [o Ho]. eauto.
  - unfold ret.
    destruct (Qgeb _ _ && Qgeb _ _); [eauto|]. destruct (Qgeb _ _); eauto.
Qed.

Lemma Outcome_eqb_eq (a b : Outcome) : Outcome_eqb a b = true <-> a = b.
Proof. destruct a, b; cbn; split; intro H; congruence. Qed.

Lemma same_outcomes_eq (a : list Outcome) :
  forall b, RowGenerator.same_outcomes a b = true <-> a = b.
Proof.
  induction a as [|x a IH]; intros [|y b]; cbn [RowGenerator.same_outcomes];
    try (split; intro H; congruence).
  rewrite andb_true_iff, Outcome_eqb_eq, IH. split.
  - intros [-> ->]. reflexivity.
  - intro H. injection H as -> ->. split; reflexivity.
Qed.

Lemma pick_outcomes_run (rand : nat -> Q) (config : RowGenerator.GeneratorConfig)
    (biased : list (MatchWithOdds * option Outcome)) :
  forall (acc : list Outcome) (n : nat),
    exists picked n',
      RowGenerator.pick_outcomes rand biased config acc n = Ok (acc ++ picked, n') /\
      List.length picked = List.length biased /\
      forall i m o,
        nth_error biased i = Some (m, Some o) -> nth_error picked i = Some o.
Proof.
  induction biased as [|[m forced] rest IH]; intros acc n;
    cbn [RowGenerator.pick_outcomes].
  - exists [], n. rewrite app_nil_r. unfold ret.
    split; [reflexivity|]. split; [reflexivity|].
    intros [|i] ? ? H; discriminate.
  - unfold bind at 1.
    assert (Hpick : exists o n1,
               match forced with
               | Some forced0 => ret forced0
               | None =>
                   if String.eqb (RowGenerator.strategy config) "weighted-random"
                   then selectWeightedRandomOutcome rand
                          (adjustMatchProbabilities (probabilities m)
                             (RowGenerator.riskProfile config))
                   else if String.eqb (RowGenerator.strategy config) "ev-based"
                   then selectEVBasedOutcome rand (odds m)
                          (adjustMatchProbabilities (probabilities m)
                             (RowGenerator.riskProfile config)) 0.15
                   else if String.eqb (RowGenerator.strategy config)
                             "multi-row-coverage"
                   then selectWeightedRandomOutcome rand
                          (adjustMatchProbabilities (probabilities m)
                             (RowGenerator.riskProfile config))
                   else selectWeightedRandomOutcome rand
                          (adjustMatchProbabilities (probabilities m)
                             (RowGenerator.riskProfile config))
               end n = Ok (o, n1) /\
               (forall f, forced = Some f -> o = f)).
    { destruct forced as [f|].
      - exists f, n. split; [reflexivity|]. intros ? [= ->]. reflexivity.
      - assert (Hw := selectWeightedRandomOutcome_ok rand
                        (adjustMatchProbabilities (probabilities m)
                           (RowGenerator.riskProfile config)) n).
        assert (He := selectEVBasedOutcome_ok rand (odds m)
                        (adjustMatchProbabilities (probabilities m)
                           (RowGenerator.riskProfile config)) 0.15 n).
        destruct Hw as [ow Hw]. destruct He as (oe & ne & He).
        destruct (String.eqb _ "weighted-random");
          [exists ow, (S n); split; [exact Hw|discriminate]|].
        destruct (String.eqb _ "ev-based");
          [exists oe, ne; split; [exact He|discriminate]|].
        destruct (String.eqb _ "multi-row-coverage");
          exists ow, (S n); (split; [exact Hw|discriminate]). }
    destruct Hpick as (o & n1 & -> & Hforced).
    destruct (IH (acc ++ [o]) n1) as (picked & n' & E & Hlen & Hf).
    exists (o :: picked), n'. rewrite E, <- app_assoc.
    split; [reflexivity|]. split; [cbn [List.length]; lia|].
    intros [|i] m' o' H; cbn [nth_error] in *.
    + injection H as <- ->. f_equal. apply Hforced. reflexivity.
    + apply (Hf i m' o' H).
Qed.

Lemma count_favorites_from_ok (matches : list MatchWithOdds) (maxOddsBelow : Q)
    (outcomes_ : list Outcome) :
  forall i c,
    (i + List.length outcomes_ <= List.length matches)%nat ->
    exists c',
      RowGenerator.count_favorites_from outcomes_ matches i maxOddsBelow c = Ok c'.
Proof.
  induction outcomes_ as [|o rest IH]; intros i c Hlen;
    cbn [RowGenerator.count_favorites_from List.length] in *.
  - eauto.
  - destruct (nth_error matches i) as [m|] eqn:E.
    + apply IH. lia.
    + apply nth_error_None in E. lia.
Qed.

Lemma validateRowAgainstFilters_ok (outcomes_ : list Outcome)
    (matches : list MatchWithOdds) (filters_ : RowGenerator.RowFilters) :
  (List.length outcomes_ <= List.length matches)%nat ->
  exists b, RowGenerator.validateRowAgainstFilters outcomes_ matches filters_ = Ok b.
Proof.
  intro Hlen. unfold RowGenerator.validateRowAgainstFilters. cbv zeta.
  repeat match goal with
         | |- context [if ?c then Ok false else _] => destruct c; [eauto|]
         end.
  destruct (RowGenerator.maxOddsBelow filters_) as [mob|]; [|eauto].
  destruct (RowGenerator.maxFavorites filters_) as [mf|]; [|eauto].
  destruct (count_favorites_from_ok matches mob outcomes_ 0 0 Hlen) as [c ->].
  cbn [Res_bind]. destruct (Qgtb (Q_of_nat c) mf); eauto.
Qed.

Lemma expected_from_ok (matches : list MatchWithOdds) (outcomes_ : list Outcome) :
  forall i e,
    (i + List.length outcomes_ <= List.length matches)%nat ->
    exists e', RowGenerator.expected_from outcomes_ matches i e = Ok e'.
Proof.
  induction outcomes_ as [|o rest IH]; intros i e Hlen;
    cbn [RowGenerator.expected_from List.length] in *.
  - eauto.
  - destruct (nth_error matches i) as [m|] eqn:E.
    + apply IH. lia.
    + apply nth_error_None in E. lia.
Qed.

Lemma generateRow_run (rand : nat -> Q) (matches : list MatchWithOdds)
    (config : RowGenerator.GeneratorConfig) (rowId : option string) (n : nat) :
  exists r n',
    RowGenerator.generateRow rand matches config rowId n = Ok (r, n') /\
    forall row, r = Some row -> row_meets_configuration matches config row.
Proof.
  unfold RowGenerator.generateRow.
  destruct (pick_outcomes_run rand config (RowGenerator.biasedMatches matches config)
              [] n) as (picked & n1 & E & Hlen & Hforced).
  cbn [app] in E. unfold bind at 1. rewrite E.
  unfold RowGenerator.biasedMatches in Hlen. rewrite length_map in Hlen.
  destruct (validateRowAgainstFilters_ok picked matches (RowGenerator.filters config))
    as [valid Hvalid]; [lia|].
  unfold bind at 1, lift at 1. rewrite Hvalid.
  destruct valid; cbn [negb].
  - destruct (expected_from_ok matches picked 0 0) as [e He]; [lia|].
    unfold bind at 1, lift at 1, RowGenerator.calculateExpectedCorrect. rewrite He.
    assert (Hid : exists i n2,
               match rowId with
               | Some s =>
                   if (String.length s =? 0)%nat then RowGenerator.generateRowId rand
                   else ret (RowGenerator.given_id s)
               | None => RowGenerator.generateRowId rand
               end n1 = Ok (i, n2)).
    { unfold RowGenerator.generateRowId, bind, random, ret.
      destruct rowId as [s|]; [destruct (String.length s =? 0)%nat|]; eauto. }
    destruct Hid as (i & n2 & Hid).
    unfold bind at 1. rewrite Hid. unfold ret.
    do 2 eexists. split; [reflexivity|].
    intros row [= <-]. unfold row_meets_configuration.
    cbn [RowGenerator.outcomes RowGenerator.expectedCorrect RowGenerator.expectedPayout
         RowGenerator.row_riskProfile RowGenerator.row_filters].
    split; [exact Hlen|]. split; [exact Hvalid|]. split; [exact He|].
    split; [reflexivity|]. split; [|split; reflexivity].
    intros j m biases b Hm Hb Hfind.
    apply (Hforced j m). unfold RowGenerator.biasedMatches.
    rewrite nth_error_map, Hm. cbn [option_map]. rewrite Hb, Hfind. reflexivity.
  - unfold ret. do 2 eexists. split; [reflexivity|]. intros row H. discriminate.
Qed.

Lemma generate_loop_run (rand : nat -> Q) (matches : list MatchWithOdds)
    (config : RowGenerator.GeneratorConfig) :
  forall (fuel : nat) (rows : list RowGenerator.GeneratedRow) (attempts n : nat),
    (rows = [] \/ Q_of_nat (List.length rows) < RowGenerator.numRows config + 1) ->
    NoDup (map RowGenerator.outcomes rows) ->
    Forall (row_meets_configuration matches config) rows ->
    exists rows' n',
      RowGenerator.generate_loop rand fuel matches config rows attempts n
        = Ok (rows', n') /\
      (rows' = [] \/ Q_of_nat (List.length rows') < RowGenerator.numRows config + 1) /\
      NoDup (map RowGenerator.outcomes rows') /\
      Forall (row_meets_configuration matches config) rows'.
Proof.
  induction fuel as [|fuel IH]; intros rows attempts n Hlen Hnd Hall;
    cbn [RowGenerator.generate_loop].
  - exists rows, n. unfold ret. repeat split; assumption.
  - cbv zeta.
    destruct (Qltb (Q_of_nat (List.length rows)) (RowGenerator.numRows config)
              && Qltb (Q_of_nat attempts) (RowGenerator.numRows config * 10)) eqn:Ec.
    + apply andb_true_iff in Ec. destruct Ec as [Ec _]. apply Qltb_true in Ec.
      unfold bind at 1.
      destruct (generateRow_run rand matches config None n) as (r & n1 & E & HP).
      rewrite E. destruct r as [row|]; [|apply IH; assumption].
      destruct (existsb _ rows) eqn:Ed; cbn [negb]; [apply IH; assumption|].
      apply IH.
      * right. rewrite length_app. cbn [List.length]. rewrite Q_of_nat_plus.
        change (Q_of_nat 1) with 1. lra.
      * rewrite map_app. cbn [map].
        apply NoDup_app; [exact Hnd|constructor; [intros []|constructor]|].
        intros a Ha [<-|[]].
        apply in_map_iff in Ha. destruct Ha as (x & Ex & Hx).
        assert (Hex : existsb
                        (fun existingRow =>
                           RowGenerator.same_outcomes
                             (RowGenerator.outcomes existingRow)
                             (RowGenerator.outcomes row)) rows = true).
        { apply existsb_exists. exists x. split; [exact Hx|].
          apply same_outcomes_eq. exact Ex. }
        congruence.
      * apply Forall_app. split; [exact Hall|].
        constructor; [apply HP; reflexivity|constructor].
    + exists rows, n. unfold ret. repeat split; assumption.
Qed.

Lemma generate_loop_enough_fuel (rand : nat -> Q) (matches : list MatchWithOdds)
    (config : RowGenerator.GeneratorConfig) :
  forall (fuel extra : nat) (rows : list RowGenerator.GeneratedRow)
         (attempts n : nat),
    RowGenerator.numRows config * 10 <= Q_of_nat (attempts + fuel) ->
    RowGenerator.generate_loop rand (fuel + extra) matches config rows attempts n
    = RowGenerator.generate_loop rand fuel matches config rows attempts n.
Proof.
  induction fuel as [|fuel IH]; intros extra rows attempts n Hmax.
  - rewrite Nat.add_0_r in Hmax. cbn [Nat.add RowGenerator.generate_loop].
    destruct extra as [|extra]; [reflexivity|]. cbn [RowGenerator.generate_loop].
    cbv zeta.
    destruct (Qltb (Q_of_nat attempts) (RowGenerator.numRows config * 10)) eqn:E.
    + apply Qltb_true in E. lra.
    + rewrite andb_false_r. reflexivity.
  - cbn [Nat.add RowGenerator.generate_loop]. cbv zeta.
    destruct (Qltb (Q_of_nat (List.length rows)) (RowGenerator.numRows config)
              && Qltb (Q_of_nat attempts) (RowGenerator.numRows config * 10));
      [|reflexivity].
    unfold bind.
    destruct (RowGenerator.generateRow rand matches config None n) as [[r n1]|e];
      [|reflexivity].
    assert (Hmax' : RowGenerator.numRows config * 10 <= Q_of_nat (S attempts + fuel)).
    { replace (S attempts + fuel)%nat with (attempts + S fuel)%nat by lia. exact Hmax. }
    destruct r as [row|]; [destruct (negb _)|]; apply IH; exact Hmax'.
Qed.

Lemma Qceiling_to_nat_bound (x : Q) : x <= Q_of_nat (Z.to_nat (Qceiling x)).
Proof.
  unfold Q_of_nat.
  destruct (Z_le_gt_dec 0 (Qceiling x)) as [H|H].
  - rewrite Z2Nat.id by exact H. apply Qle_ceiling.
  - eapply Qle_trans; [apply Qle_ceiling|].
    rewrite <- Zle_Qle. lia.
Qed.

(** X28: [generateMultipleRows] always returns, without reading past the
    end of the slate, and the turns allowed to its loop are enough: more
    turns give the same rows. The rows have pairwise different outcomes and,
    for a whole [numRows], are at most [numRows]; every row has one outcome
    per match, passes the filters of the configuration, gives each match
    named by a personal bias the outcome of the first such bias, carries the
    expected correct count computed from its outcomes with the payout step of
    that count, and the profile and filters of the configuration. *)
Theorem generateMultipleRows_rows_valid (rand : nat -> Q) (matches : list MatchWithOdds)
    (config : RowGenerator.GeneratorConfig) (n : nat) :
  exists rows n',
    RowGenerator.generateMultipleRows rand matches config n = Ok (rows, n') /\
    (forall fuel,
       (Z.to_nat (Qceiling (RowGenerator.numRows config * 10)) <= fuel)%nat ->
       RowGenerator.generate_loop rand fuel matches config [] 0 n = Ok (rows, n')) /\
    (rows = [] \/ Q_of_nat (List.length rows) < RowGenerator.numRows config + 1) /\
    NoDup (map RowGenerator.outcomes rows) /\
    Forall (row_meets_configuration matches config) rows.
Proof.
  unfold RowGenerator.generateMultipleRows.
  set (turns := Z.to_nat (Qceiling (RowGenerator.numRows config * 10))).
  destruct (generate_loop_run rand matches config turns [] 0%nat n
              (or_introl eq_refl) (NoDup_nil _) (Forall_nil _))
    as (rows & n' & E & Hlen & Hnd & Hall).
  exists rows, n'. split; [exact E|]. split; [|repeat split; assumption].
  intros fuel Hfuel.
  replace fuel with (turns + (fuel - turns))%nat by lia.
  rewrite generate_loop_enough_fuel; [exact E|].
  cbn [Nat.add]. apply Qceiling_to_nat_bound.
Qed.

Lemma differences_from_shift (a : list Outcome) (x : Outcome) (other : list Outcome) :
  forall index diff,
    RowGenerator.differences_from a (x :: other) (S index) diff
    = RowGenerator.differences_from a other index diff.
Proof.
  induction a as [|o a IH]; intros index diff; cbn [RowGenerator.differences_from];
    [reflexivity|].
  cbn [nth_error]. apply IH.
Qed.

Lemma differences_from_bounds (a : list Outcome) :
  forall other diff,
    (diff <= RowGenerator.differences_from a other 0 diff <= diff + List.length a)%nat.
Proof.
  induction a as [|o a IH]; intros other diff;
    cbn [RowGenerator.differences_from List.length]; [lia|].
  destruct other as [|y other]; cbn [nth_error].
  - specialize (IH [] (diff + 1)%nat).
    assert (E : forall index d,
               RowGenerator.differences_from a [] index d
               = RowGenerator.differences_from a [] 0 d).
    { clear. induction a as [|o a IH]; intros index d;
        cbn [RowGenerator.differences_from]; [reflexivity|].
      assert (N : forall k, nth_error (@nil Outcome) k = None) by (intros []; reflexivity).
      rewrite !N, (IH (S index)), (IH 1%nat). reflexivity. }
    rewrite E. lia.
  - rewrite differences_from_shift.
    specialize (IH other (diff + (if Outcome_eqb o y then 0 else 1))%nat).
    destruct (Outcome_eqb o y); lia.
Qed.

Lemma differences_from_distinct (a : list Outcome) :
  forall other diff,
    List.length a = List.length other -> a <> other ->
    (diff + 1 <= RowGenerator.differences_from a other 0 diff)%nat.
Proof.
  induction a as [|o a IH]; intros [|y other] diff Hlen Hne;
    cbn [List.length] in Hlen; try discriminate; [congruence|].
  cbn [RowGenerator.differences_from nth_error]. rewrite differences_from_shift.
  destruct (Outcome_eqb o y) eqn:E.
  - apply Outcome_eqb_eq in E. subst y.
    rewrite Nat.add_0_r. apply IH; [lia|]. intro H. apply Hne. congruence.
  - destruct (differences_from_bounds a other (diff + 1)%nat) as [H _]. exact H.
Qed.

Lemma compare_with_rest (m : nat) (row_i : RowGenerator.GeneratedRow)
    (rest : list RowGenerator.GeneratedRow) :
  List.length (RowGenerator.outcomes row_i) = m ->
  Forall (fun r => List.length (RowGenerator.outcomes r) = m) rest ->
  ~ In (RowGenerator.outcomes row_i) (map RowGenerator.outcomes rest) ->
  forall t c,
    exists T,
      fold_left
        (fun (st : nat * nat) row_j =>
           (fst st
            + RowGenerator.differences_from (RowGenerator.outcomes row_i)
                (RowGenerator.outcomes row_j) 0 0,
            S (snd st)))%nat
        rest (t, c)
      = ((t + T)%nat, (c + List.length rest)%nat) /\
      (List.length rest <= T <= m * List.length rest)%nat.
Proof.
  intros Hm. induction rest as [|r rest IH]; intros Hall Hnot t c; cbn [fold_left].
  - exists 0%nat. cbn [List.length]. split; [f_equal; lia|lia].
  - inversion Hall as [|? ? Hr Hrest]; subst. cbn [map In] in Hnot.
    cbn [fst snd].
    destruct (IH Hrest (fun H => Hnot (or_intror H))
                (t + RowGenerator.differences_from (RowGenerator.outcomes row_i)
                       (RowGenerator.outcomes r) 0 0)%nat (S c))
      as (T & E & Hlo & Hhi).
    rewrite E.
    destruct (differences_from_bounds (RowGenerator.outcomes row_i)
                (RowGenerator.outcomes r) 0) as [_ Hub].
    assert (Hlb := differences_from_distinct (RowGenerator.outcomes row_i)
                     (RowGenerator.outcomes r) 0 (eq_sym Hr)
                     (fun H => Hnot (or_introl (eq_sym H)))).
    exists (RowGenerator.differences_from (RowGenerator.outcomes row_i)
              (RowGenerator.outcomes r) 0 0 + T)%nat.
    cbn [List.length]. split; [f_equal; lia|]. nia.
Qed.

Lemma compare_pairs_bounds (m : nat) (rows : list RowGenerator.GeneratedRow) :
  Forall (fun r => List.length (RowGenerator.outcomes r) = m) rows ->
  NoDup (map RowGenerator.outcomes rows) ->
  forall t c,
    exists T C,
      RowGenerator.compare_pairs rows t c = ((t + T)%nat, (c + C)%nat) /\
      (C <= T <= m * C)%nat /\ (List.length rows - 1 <= C)%nat.
Proof.
  induction rows as [|row_i rest IH]; intros Hall Hnd t c;
    cbn [RowGenerator.compare_pairs].
  - exists 0%nat, 0%nat. cbn [List.length]. split; [f_equal; lia|lia].
  - inversion Hall as [|? ? Hi Hrest]; subst. cbn [map] in Hnd.
    inversion Hnd as [|? ? Hnot Hnd']; subst.
    destruct (compare_with_rest _ row_i rest eq_refl Hrest Hnot t c)
      as (T1 & -> & Hlo1 & Hhi1).
    destruct (IH Hrest Hnd' (t + T1)%nat (c + List.length rest)%nat)
      as (T2 & C2 & -> & [Hlo2 Hhi2] & _).
    exists (T1 + T2)%nat, (List.length rest + C2)%nat.
    cbn [List.length]. split; [f_equal; lia|]. split; [nia|lia].
Qed.

(** X29: for rows that all have the same number of outcomes, at most 13,
    and pairwise different outcomes, the diversity score lies between 1/13
    and 1 (it is 1 for fewer than two rows): two different rows never count as
    identical, and the normalisation by 13 never lets the score exceed 1. *)
Theorem calculateDiversityScore_range (m : nat)
    (rows : list RowGenerator.GeneratedRow) :
  (m <= 13)%nat ->
  Forall (fun r => List.length (RowGenerator.outcomes r) = m) rows ->
  NoDup (map RowGenerator.outcomes rows) ->
  1 / 13 <= RowGenerator.calculateDiversityScore rows /\
  RowGenerator.calculateDiversityScore rows <= 1 /\
  ((List.length rows < 2)%nat -> RowGenerator.calculateDiversityScore rows == 1).
Proof.
  intros Hm Hall Hnd. unfold RowGenerator.calculateDiversityScore.
  destruct (List.length rows <? 2)%nat eqn:E.
  - split; [vm_compute; discriminate|]. split; [apply Qle_refl|]. intros _. reflexivity.
  - apply Nat.ltb_ge in E.
    destruct (compare_pairs_bounds m rows Hall Hnd 0%nat 0%nat)
      as (T & C & -> & [Hlo Hhi] & Hc).
    cbn [Nat.add].
    assert (HC : 0 < Q_of_nat C) by (apply Q_of_nat_pos; lia).
    assert (HT1 : Q_of_nat C <= Q_of_nat T) by (apply Q_of_nat_le; exact Hlo).
    assert (HT2 : Q_of_nat T <= 13 * Q_of_nat C).
    { change 13 with (Q_of_nat 13). rewrite <- Q_of_nat_mult.
      apply Q_of_nat_le. nia. }
    split; [|split; [|intro; lia]].
    + apply Qle_shift_div_l; [lra|].
      assert (E' : 1 / 13 * (Q_of_nat C * 13) == Q_of_nat C) by field.
      rewrite E'. exact HT1.
    + apply Qle_shift_div_r; lra.
Qed.

Lemma calculateDiversityScore_range_witness :
  1 / 13 <= RowGenerator.calculateDiversityScore example_generated_rows /\
  RowGenerator.calculateDiversityScore example_generated_rows <= 1 /\
  ((List.length example_generated_rows < 2)%nat ->
   RowGenerator.calculateDiversityScore example_generated_rows == 1).
Proof.
  apply (calculateDiversityScore_range 3 example_generated_rows).
  - lia.
  - repeat constructor.
  - repeat constructor; cbn; intuition discriminate.
Defined.

(** ** Profiles that do not randomize *)

Section Reproducible.

Variable riskProfile : RiskProfile.
Hypothesis not_risky : riskProfile <> "risky"%string.
Hypothesis not_balanced : riskProfile <> "balanced"%string.

Lemma selectIntelligentHalf_fixed (a : MatchIntelligence) :
  exists o, forall rand n, selectIntelligentHalf rand a riskProfile n = Ok (o, n).
Proof.
  unfold selectIntelligentHalf.
  rewrite (proj2 (String.eqb_neq _ _) not_risky).
  destruct (String.eqb riskProfile "safe"); eexists; intros; reflexivity.
Qed.

Lemma selectIntelligentSingle_fixed (a : MatchIntelligence) :
  exists o, forall rand n, selectIntelligentSingle rand a riskProfile n = Ok (o, n).
Proof.
  unfold selectIntelligentSingle.
  rewrite (proj2 (String.eqb_neq _ _) not_risky).
  destruct (String.eqb riskProfile "safe"); eexists; intros; reflexivity.
Qed.

Lemma assign_outcomes_fixed (config : SystemConfiguration)
    (strategicMatches : list StrategicMatch) :
  forall systemMatches halvesAssigned fullsAssigned,
    exists result,
      forall rand n,
        assign_outcomes rand config riskProfile strategicMatches systemMatches
          halvesAssigned fullsAssigned n = Ok (result, n).
Proof.
  induction strategicMatches as [|a rest IH]; intros sm h f;
    cbn [assign_outcomes].
  - exists sm. intros. reflexivity.
  - destruct (Z.of_nat h <? halves (distribution config))%Z.
    + destruct (selectIntelligentHalf_fixed (analysis a)) as [o Ho].
      destruct (IH (array_set sm (index a)
                      {| sm_match := match_ (analysis a); systemOutcome := o |})
                   (S h) f) as [result Hr].
      exists result. intros rand n. unfold bind. rewrite Ho. apply Hr.
    + destruct (Z.of_nat f <? fulls (distribution config))%Z.
      * destruct (IH (array_set sm (index a)
                        {| sm_match := match_ (analysis a); systemOutcome := S1X2 |})
                     h (S f)) as [result Hr].
        exists result. exact Hr.
      * destruct (selectIntelligentSingle_fixed (analysis a)) as [o Ho].
        destruct (IH (array_set sm (index a)
                        {| sm_match := match_ (analysis a);
                           systemOutcome := single o |})
                     h f) as [result Hr].
        exists result. intros rand n. unfold bind. rewrite Ho. apply Hr.
Qed.

Lemma randomize_order_fixed (rand : nat -> Q) (l : list StrategicMatch) (n : nat) :
  randomize_order rand riskProfile l n = Ok (l, n).
Proof.
  unfold randomize_order.
  rewrite (proj2 (String.eqb_neq _ _) not_risky).
  rewrite (proj2 (String.eqb_neq _ _) not_balanced).
  reflexivity.
Qed.

Lemma generateSystem_fixed (log2 : Q -> Q) (matches : list MatchWithOdds)
    (config : SystemConfiguration) :
  exists r : Res GeneratedSystem,
    forall rand n,
      generateSystem rand log2 matches config riskProfile n
      = match r with
        | Ok sys => Ok (sys, S n)
        | Throw e => Throw e
        end.
Proof.
  destruct (assign_outcomes_fixed config
              (sort_desc (strategic_matches (map (analyzeMatch log2) matches)))
              (repeat None 13) 0%nat 0%nat) as [plan Hplan].
  destruct (generateAllSystemRows plan riskProfile) as [rows|e] eqn:Erows.
  - eexists (Ok _). intros rand n.
    unfold generateSystem, selectSystemOutcomes. cbv zeta.
    unfold bind at 1. unfold bind at 1. rewrite randomize_order_fixed, Hplan.
    unfold bind at 1, lift at 1. rewrite Erows.
    unfold bind, random, ret. reflexivity.
  - exists (Throw e). intros rand n.
    unfold generateSystem, selectSystemOutcomes. cbv zeta.
    unfold bind at 1. unfold bind at 1. rewrite randomize_order_fixed, Hplan.
    unfold bind at 1, lift at 1. rewrite Erows. reflexivity.
Qed.

End Reproducible.

(** X30: only the profiles [balanced] and [risky] randomize. For [safe],
    and for every profile string that is not recognised, system generation
    does not depend on the random source: two runs on the same slate and
    configuration give the same system, or fail alike, and each uses a single
    random number, the one of the system id. *)
Theorem generateSystem_reproducible_unless_randomized (rand rand' : nat -> Q)
    (log2 : Q -> Q) (matches : list MatchWithOdds) (config : SystemConfiguration)
    (riskProfile : RiskProfile) (n n' : nat) :
  riskProfile <> "risky"%string -> riskProfile <> "balanced"%string ->
  match generateSystem rand log2 matches config riskProfile n,
        generateSystem rand' log2 matches config riskProfile n' with
  | Ok (sys, k), Ok (sys', k') => sys = sys' /\ k = S n /\ k' = S n'
  | Throw e, Throw e' => e = e'
  | _, _ => False
  end.
Proof.
  intros Hr Hb.
  destruct (generateSystem_fixed riskProfile Hr Hb log2 matches config) as [r Hfix].
  rewrite (Hfix rand n), (Hfix rand' n').
  destruct r as [sys|e]; [repeat split|reflexivity].
Qed.

Lemma generateSystem_reproducible_unless_randomized_witness :
  match generateSystem example_rand example_log2 example_slate system_96
          "safe"%string 0%nat,
        generateSystem (fun _ => 0.9) example_log2 example_slate system_96
          "safe"%string 5%nat with
  | Ok (sys, k), Ok (sys', k') => sys = sys' /\ k = 1%nat /\ k' = 6%nat
  | Throw e, Throw e' => e = e'
  | _, _ => False
  end.
Proof.
  apply (generateSystem_reproducible_unless_randomized example_rand (fun _ => 0.9)
           example_log2 example_slate system_96 "safe"%string 0%nat 5%nat).
  - intro H. discriminate H.
  - intro H. discriminate H.
Defined.
